(** * LB-t: lattice-Boltzmann solver -- storage, initialisation and driver

    A shallow embedding of the parts of the solver that are visible in the
    sources:

    - [population/population.hpp]              (class [Population])
    - [population/population_indexing_avx.hpp] ([Population::Load] / [Store])
    - [continuum/continuum.hpp]                (class [Continuum])
    - [continuum/initialisation.hpp]           ([InitContinuum])
    - [main.cpp]                               (command surface and time loop)

    Conventions.

    - [unsigned int] values are integers in [Z] with the 32-bit wrap-around
      written out ([wrap32]); [size_t] values wrap at 64 bits ([wrap64]).
    - The floating type [T] is a template parameter of the C++ classes.  It
      is a type-class parameter here; its instance is IEEE binary64, the
      [double] that [main] selects, with the primitive floats and their
      bit-level specification [spec_float].
    - A heap buffer is a [list T]; a null pointer is [None].  Access through
      a null pointer or outside of the buffer is undefined behaviour and makes
      the operation return [None].
    - Output, process exit and undefined behaviour of [main] and of the
      constructors are threaded through the small monad [prog].  Calls into
      files that are not listed above (boundary conditions, collision,
      export, geometry, timer) are recorded as events, with the template
      and function arguments that tell them apart.
    - The OpenMP work-sharing loop of [InitContinuum] is embedded as the
      sequential loop over its blocks; [block_partition] below shows that
      the blocks write disjoint cells.

    Part I is the embedding, each module closing with the vocabulary in
    which the properties are stated; Part II holds the properties. *)

From Stdlib Require Import ZArith Lia List String Bool Floats.
From Equations Require Import Equations.
From stdpp Require Import base list list_numbers.

Local Open Scope Z_scope.

(** Decimal literals such as [0.05] denote the nearest binary64 value, as
    they do in C++. *)
#[local] Set Warnings "-inexact-float".

(** * Part I: the embedding *)

(** ** Machine integers *)

Definition wrap32 (n : Z) : Z := n mod 2 ^ 32.
Definition wrap64 (n : Z) : Z := n mod 2 ^ 64.

Definition UINT_MAX : Z := 2 ^ 32 - 1.

(** ** The floating type of the lattice *)

Class Floating (T : Type) : Type := {
  fadd : T -> T -> T;
  fsub : T -> T -> T;
  fmul : T -> T -> T;
  fdiv : T -> T -> T;
  (** [static_cast<T>] of an [unsigned int] *)
  of_uint : Z -> T;
  (** the literals that occur in the sources *)
  f_zero : T;
  f_one : T;
  f_two : T;
  f_quarter : T;
}.

Declare Scope fl_scope.
Delimit Scope fl_scope with fl.
Infix "+" := fadd : fl_scope.
Infix "-" := fsub : fl_scope.
Infix "*" := fmul : fl_scope.
Infix "/" := fdiv : fl_scope.

(** IEEE-754 binary64, the [double] of the program. *)
#[export] Instance Floating_double : Floating float := {
  fadd := PrimFloat.add;
  fsub := PrimFloat.sub;
  fmul := PrimFloat.mul;
  fdiv := PrimFloat.div;
  of_uint := fun n => PrimFloat.of_uint63 (Uint63.of_Z n);
  f_zero := 0%float;
  f_one := 1%float;
  f_two := 2%float;
  f_quarter := 0.25%float;
}.

(** ** Binary64 numbers

    The properties of the values that the constructor of [Population]
    computes are stated on [spec_float], the specification of the primitive
    floats: a finite number is a sign, a mantissa [m] and an exponent [e]
    and stands for [m * 2^e]; the exponents of the format are at least
    [-1074]. *)

(** [m * 2^e] in units of [2^-1074], the smallest positive number *)
Definition scaled (m e : Z) : Z := m * 2 ^ (e + 1074).

(** [b] is [a] shifted right by [n] bits: the mantissa is divided by [2^n],
    and an exact record of a multiple of [2^n] stays exact *)
Definition shifts (n : Z) (a b : shr_record) : Prop :=
  0 <= shr_m a ->
  0 <= shr_m b /\
  shr_m b = shr_m a / 2 ^ n /\
  (shr_r a = false -> shr_s a = false -> shr_m a mod 2 ^ n = 0 ->
   shr_r b = false /\ shr_s b = false).

(** the numbers [0.5], [1] and [2] *)
Definition SF_half : spec_float := S754_finite false 4503599627370496 (-53).
Definition SF_one : spec_float := S754_finite false 4503599627370496 (-52).
Definition SF_two : spec_float := S754_finite false 4503599627370496 (-51).

(** what [valid_binary] says of a finite number *)
Definition canonical (m : positive) (e : Z) : Prop :=
  fexp prec emax (Z.pos (digits2_pos m) + e) = e /\ e <= 971.

(** not a NaN and not negative *)
Definition nonneg_sf (x : spec_float) : Prop :=
  match x with
  | S754_zero _ => True
  | S754_infinity s | S754_finite s _ _ => s = false
  | S754_nan => False
  end.

(** positive: finite or infinite *)
Definition positive_sf (x : spec_float) : Prop :=
  match x with
  | S754_infinity false | S754_finite false _ _ => True
  | _ => False
  end.

(** [+infinity], or a finite number that is at least [1/2] *)
Definition at_least_half (x : spec_float) : Prop :=
  x = S754_infinity false \/
  exists m e,
    x = S754_finite false m e /\ -1074 <= e /\ 2 ^ (-1 + 1074) <= scaled (Z.pos m) e.

(** [+0], or a positive finite number that is at most [2] *)
Definition at_most_two (x : spec_float) : Prop :=
  x = S754_zero false \/
  exists m e,
    x = S754_finite false m e /\ -1074 <= e /\ scaled (Z.pos m) e <= 2 ^ (1 + 1074).

(** ** Heap buffers *)

Section Buffer.
Context {T : Type}.

(** [buf[i]] as an rvalue *)
Definition rd (buf : list T) (i : Z) : option T :=
  if i <? 0 then None else buf !! Z.to_nat i.

(** [buf[i] = v] *)
Definition wr (buf : list T) (i : Z) (v : T) : option (list T) :=
  if (0 <=? i) && (i <? Z.of_nat (length buf))
  then Some (<[Z.to_nat i := v]> buf)
  else None.

End Buffer.

(** ** Counted loops

    [for (unsigned int i = lo; i < hi; ++i) body(i);] over a state that the
    body may leave undefined.  The test is evaluated before every iteration;
    since [i < hi <= UINT_MAX] holds whenever the body runs, [++i] never
    wraps. *)

Equations? for_lt {S : Type} (i hi : Z) (body : Z -> S -> option S) (s : S)
  : option S by wf (Z.to_nat (hi - i)) lt :=
  for_lt i hi body s with Z_lt_dec i hi := {
    | left _ with body i s := {
        | Some s' => for_lt (i + 1) hi body s'
        | None => None };
    | right _ => Some s }.
Proof. lia. Qed.

(** A counted loop runs its body over the indices [lo, lo+1, ..., hi-1]. *)
Fixpoint run_list {A S : Type} (f : A -> S -> option S) (l : list A) (s : S)
  : option S :=
  match l with
  | [] => Some s
  | a :: l' =>
      match f a s with
      | Some s' => run_list f l' s'
      | None => None
      end
  end.

(** ** Output, exit and undefined behaviour *)

Inductive stream : Type := Cout | Cerr.

Inductive boundary_type : Type := Velocity | Pressure.
Inductive orientation : Type := Left | Right.

(** The three boundary-element vectors of [main]. *)
Inductive boundary_list : Type := wall | inlet | outlet.

(** What a run does that can be observed from outside: lines written to
    the standard streams and calls into the collaborators whose code is
    outside of the files above, with the arguments that identify the call. *)
Inductive event : Type :=
  | Print (s : stream) (line : string)
  | Parallelism_ctor
  | PrintDisclaimer
  | InitialOutput
  | ExportParameters
  | Cylinder3D
  | InitLattice (odd : bool)
  | Timer_Start
  | Timer_Stop
  | PerformanceOutput
  | Guo (odd : bool) (ty : boundary_type) (o : orientation) (b : boundary_list)
  | CollideStreamBGK_Smagorinsky (odd : bool)
  | BounceBackHalfway (odd : bool) (b : boundary_list)
  | StatusOutput (i : Z)
  | SetZero (b : boundary_list)
  | ExportVtk (i : Z).

Inductive outcome (A : Type) : Type :=
  | Done (a : A)            (** ran to its end with value [a] *)
  | Exited (status : Z)     (** called [exit(status)] *)
  | Undefined.              (** ran into undefined behaviour *)

Arguments Done {A} a.
Arguments Exited {A} status.
Arguments Undefined {A}.

(** A computation: the events it produced, in order, and how it ended. *)
Definition prog (A : Type) : Type := (list event * outcome A)%type.

Definition ret {A : Type} (a : A) : prog A := ([], Done a).

Definition bind {A B : Type} (m : prog A) (k : A -> prog B) : prog B :=
  match m with
  | (t, Done a) => let (t', r) := k a in (t ++ t', r)
  | (t, Exited c) => (t, Exited c)
  | (t, Undefined) => (t, Undefined)
  end.

Definition emit (e : event) : prog unit := ([e], Done tt).
Definition exit {A : Type} (status : Z) : prog A := ([], Exited status).
Definition undefined {A : Type} : prog A := ([], Undefined).

(** An operation on memory that is undefined when it returns [None]. *)
Definition lift {A : Type} (o : option A) : prog A :=
  match o with Some a => ret a | None => undefined end.

Declare Scope prog_scope.
Delimit Scope prog_scope with prog.
Notation "x <- m ;; k" := (bind m (fun x => k))
  (at level 100, m at next level, right associativity) : prog_scope.
Notation "m ;; k" := (bind m (fun _ => k))
  (at level 100, right associativity) : prog_scope.

Definition trace {A : Type} (m : prog A) : list event := fst m.
Definition result {A : Type} (m : prog A) : outcome A := snd m.

Definition EXIT_SUCCESS : Z := 0.
Definition EXIT_FAILURE : Z := 1.

(** ** Domain resolution: the template parameters [NX], [NY], [NZ] *)

Record dims : Type := { NX : Z; NY : Z; NZ : Z }.

(** Modelled from the spec: [cef::ceil] of [general/constexpr_func.hpp] is
    not among the sources.  It is only applied to
    [static_cast<double>(N) / BLOCK_SIZE] with [N] an [unsigned int], a
    quotient that binary64 represents exactly, so the block count is the
    ceil-division of [N] by the block size. *)
Definition ceil_div (n b : Z) : Z := (n + b - 1) / b.

(** ** Continuum: the macroscopic field *)

Module Continuum.
Section Continuum.
Context {T : Type}.
Variable d : dims.

(** number of macroscopic values: rho, ux, uy, uz *)
Definition NM_ : Z := 4.

(** number of elements of the buffer, [memSize_ / sizeof(T)]; the
    product is computed in [size_t] and stays below [2^64] for every
    resolution that [fits] below *)
Definition length_ : Z := NZ d * NY d * NX d * NM_.

(** [memSize_], the size of the array in bytes: the product is computed
    from the left in [size_t]; [sizeof_T] is [sizeof(T)] *)
Definition memSize_ (sizeof_T : Z) : Z :=
  wrap64 (wrap64 (wrap64 (wrap64 (sizeof_T * NZ d) * NY d) * NX d) * NM_).

(** The object: its only data member is the pointer [M_] ([None] when
    [aligned_alloc] returned the null pointer). *)
Record t : Type := { M_ : option (list T) }.

(** Class constructor.  [alloc] is what [aligned_alloc(CACHE_LINE, memSize_)]
    returned. *)
Definition ctor (alloc : option (list T)) : prog t :=
  (match alloc with
   | None => emit (Print Cerr "Fatal error: Population could not be allocated.")
   | Some _ => ret tt
   end ;;
   ret {| M_ := alloc |})%prog.

(** Modelled from the spec: [continuum_indexing.hpp] is not among the
    sources.  The field is a flat buffer of [NX*NY*NZ*4] values, the four
    macroscopic values of a cell side by side (density, then the three
    velocity components), cells in row-major order with [x] fastest. *)
Definition SpatialToLinear (x y z m : Z) : Z :=
  ((z * NY d + y) * NX d + x) * NM_ + m.

(** [con(x,y,z,m)] read *)
Definition get (con : t) (x y z m : Z) : option T :=
  match M_ con with
  | Some buf => rd buf (SpatialToLinear x y z m)
  | None => None
  end.

(** [con(x,y,z,m) = v] *)
Definition set (con : t) (x y z m : Z) (v : T) : option t :=
  match M_ con with
  | Some buf =>
      match wr buf (SpatialToLinear x y z m) v with
      | Some buf' => Some {| M_ := Some buf' |}
      | None => None
      end
  | None => None
  end.

(** *** [InitContinuum] *)

Definition BLOCK_SIZE : Z := 32.
Definition NUM_BLOCKS_Z : Z := wrap32 (ceil_div (NZ d) BLOCK_SIZE).
Definition NUM_BLOCKS_Y : Z := wrap32 (ceil_div (NY d) BLOCK_SIZE).
Definition NUM_BLOCKS_X : Z := wrap32 (ceil_div (NX d) BLOCK_SIZE).
Definition NUM_BLOCKS : Z :=
  wrap32 (wrap32 (NUM_BLOCKS_X * NUM_BLOCKS_Y) * NUM_BLOCKS_Z).

Definition z_start (block : Z) : Z :=
  wrap32 (BLOCK_SIZE * (block / wrap32 (NUM_BLOCKS_X * NUM_BLOCKS_Y))).
Definition z_end (block : Z) : Z :=
  Z.min (wrap32 (z_start block + BLOCK_SIZE)) (NZ d).

Definition y_start (block : Z) : Z :=
  wrap32 (BLOCK_SIZE * ((block mod wrap32 (NUM_BLOCKS_X * NUM_BLOCKS_Y)) / NUM_BLOCKS_X)).
Definition y_end (block : Z) : Z :=
  Z.min (wrap32 (y_start block + BLOCK_SIZE)) (NY d).

Definition x_start (block : Z) : Z :=
  wrap32 (BLOCK_SIZE * (block mod NUM_BLOCKS_X)).
Definition x_end (block : Z) : Z :=
  Z.min (wrap32 (x_start block + BLOCK_SIZE)) (NX d).

(** The loop nest of [InitContinuum], over any per-cell statement. *)
Definition blocked_loop {S : Type} (cell : Z -> Z -> Z -> S -> option S)
  : S -> option S :=
  for_lt 0 NUM_BLOCKS (fun block =>
    for_lt (z_start block) (z_end block) (fun z =>
      for_lt (y_start block) (y_end block) (fun y =>
        for_lt (x_start block) (x_end block) (fun x =>
          cell x y z)))).

(** The four assignments of the innermost loop. *)
Definition init_cell (RHO_0 U_0 V_0 W_0 : T) (x y z : Z) (con : t) : option t :=
  match set con x y z 0 RHO_0 with
  | Some con1 =>
      match set con1 x y z 1 U_0 with
      | Some con2 =>
          match set con2 x y z 2 V_0 with
          | Some con3 => set con3 x y z 3 W_0
          | None => None
          end
      | None => None
      end
  | None => None
  end.

Definition InitContinuum (con : t) (RHO_0 U_0 V_0 W_0 : T) : option t :=
  blocked_loop (init_cell RHO_0 U_0 V_0 W_0) con.

(** *** Vocabulary of the properties *)

(** The resolutions for which no [unsigned int] computation of the loop
    nest wraps around: every extent leaves room for one block below
    [2^32], and so does the number of blocks. *)
Definition fits : Prop :=
  0 <= NX d <= UINT_MAX - 31 /\
  0 <= NY d <= UINT_MAX - 31 /\
  0 <= NZ d <= UINT_MAX - 31 /\
  ceil_div (NX d) BLOCK_SIZE * ceil_div (NY d) BLOCK_SIZE * ceil_div (NZ d) BLOCK_SIZE
    <= UINT_MAX.

(** The cells of the domain. *)
Definition in_domain (x y z : Z) : Prop :=
  0 <= x < NX d /\ 0 <= y < NY d /\ 0 <= z < NZ d.

(** The block that owns cell [(x,y,z)]. *)
Definition owner (x y z : Z) : Z :=
  (NUM_BLOCKS_X * NUM_BLOCKS_Y) * (z / BLOCK_SIZE) + NUM_BLOCKS_X * (y / BLOCK_SIZE)
  + x / BLOCK_SIZE.

(** The cells that the loop nest visits, in the order of the visits. *)
Definition visited : option (list (Z * Z * Z)) :=
  blocked_loop (fun x y z acc => Some (acc ++ [(x, y, z)])) [].

(** The same cells, as the list the four loops range over. *)
Definition block_cells (block : Z) : list (Z * Z * Z) :=
  z ← seqZ (z_start block) (z_end block - z_start block);
  y ← seqZ (y_start block) (y_end block - y_start block);
  x ← seqZ (x_start block) (x_end block - x_start block);
  [(x, y, z)].

Definition cells : list (Z * Z * Z) :=
  block ← seqZ 0 NUM_BLOCKS; block_cells block.

(** Whether block [block] owns cell [(x,y,z)]: its three ranges contain it. *)
Definition in_block (block x y z : Z) : bool :=
  (x_start block <=? x) && (x <? x_end block) &&
  (y_start block <=? y) && (y <? y_end block) &&
  (z_start block <=? z) && (z <? z_end block).

(** The field is allocated, with a buffer of the size of the class. *)
Definition allocated (con : t) : Prop :=
  exists buf : list T, M_ con = Some buf /\ Z.of_nat (length buf) = length_.

(** The field holds what the class allocates: a buffer of [memSize_] bytes,
    that is of [memSize_ / sizeof(T)] elements. *)
Definition holds_memSize (sizeof_T : Z) (con : t) : Prop :=
  exists buf : list T,
    M_ con = Some buf /\ sizeof_T * Z.of_nat (length buf) = memSize_ sizeof_T.

(** Cell [(x,y,z)] reads [(RHO_0, U_0, V_0, W_0)] in its four slots. *)
Definition initialised (con : t) (RHO_0 U_0 V_0 W_0 : T) (x y z : Z) : Prop :=
  get con x y z 0 = Some RHO_0 /\
  get con x y z 1 = Some U_0 /\
  get con x y z 2 = Some V_0 /\
  get con x y z 3 = Some W_0.

End Continuum.
End Continuum.

(** ** Population: the microscopic field *)

(** The lattice descriptor [LT]: the compile-time constants of a
    discrete-velocity model ([lattice::DdQq]). *)
Record lattice (T : Type) : Type := {
  DIM : Z;
  SPEEDS : Z;
  HSPEED : Z;
  PAD : Z;
  ND : Z;
  OFF : Z;
  CS : T;
}.

Arguments DIM {T} _.
Arguments SPEEDS {T} _.
Arguments HSPEED {T} _.
Arguments PAD {T} _.
Arguments ND {T} _.
Arguments OFF {T} _.
Arguments CS {T} _.

Module Population.
Section Population.
Context {T : Type} {FT : Floating T}.
Variable d : dims.
Variable LT : lattice T.
Variable NPOP : Z.

(** number of elements of the buffer, [MEM_SIZE_ / sizeof(T)] *)
Definition length_ : Z := NZ d * NY d * NX d * NPOP * ND LT.

(** [MEM_SIZE_], the size of the array in bytes: the product is computed
    from the left in [size_t]; [sizeof_T] is [sizeof(T)] *)
Definition MEM_SIZE_ (sizeof_T : Z) : Z :=
  wrap64 (wrap64 (wrap64 (wrap64 (wrap64 (sizeof_T * NZ d) * NY d) * NX d) * NPOP) * ND LT).

(** The object: the pointer [F_] ([None] when [aligned_alloc] returned the
    null pointer) and the physical parameters. *)
Record t : Type := {
  F_ : option (list T);
  NU_ : T;
  TAU_ : T;
  OMEGA_ : T;
  LAMBDA_ : T;
  OMEGA_M_ : T;
}.

(** The member initialisers of the constructor, in declaration order. *)
Definition init_NU (Re U : T) (L : Z) : T := (U * of_uint L / Re)%fl.
Definition init_TAU (NU : T) : T := (NU / (CS LT * CS LT) + f_one / f_two)%fl.
Definition init_OMEGA (TAU : T) : T := (f_one / TAU)%fl.
Definition init_OMEGA_M (TAU LAMBDA : T) : T :=
  ((TAU - f_one / f_two) / (LAMBDA + f_one / f_two * (TAU - f_one / f_two)))%fl.

(** Class constructor.  [alloc] is what [aligned_alloc(CACHE_LINE, MEM_SIZE_)]
    returned. *)
Definition ctor (alloc : option (list T)) (Re U : T) (L : Z) (LAMBDA : T) : prog t :=
  let NU := init_NU Re U L in
  let TAU := init_TAU NU in
  let pop := {| F_ := alloc; NU_ := NU; TAU_ := TAU; OMEGA_ := init_OMEGA TAU;
                LAMBDA_ := LAMBDA; OMEGA_M_ := init_OMEGA_M TAU LAMBDA |} in
  match alloc with
  | None =>
      (emit (Print Cerr "Fatal error: Population could not be allocated.") ;;
       exit EXIT_FAILURE)%prog
  | Some _ => ret pop
  end.

(** Class destructor. *)
Definition dtor (pop : t) : prog unit :=
  emit (Print Cout "See you, comrade!").

(** Modelled from the spec: [population_indexing.hpp] is not among the
    sources.  The field is a flat buffer of [NX*NY*NZ*NPOP*ND] values: cells
    in row-major order with [x] fastest, the [NPOP] populations of a cell
    side by side, and for each the [ND] values of the cell, which are the
    two halves [n = 0, 1] of [OFF] directions [d] each (direction
    [n*OFF + d]). *)
Definition SpatialToLinear (x y z n dd p : Z) : Z :=
  (((z * NY d + y) * NX d + x) * NPOP + p) * ND LT + n * OFF LT + dd.

(** Modelled from the spec: the inverse of [SpatialToLinear], by repeated
    division; the result is [(x, y, z, p, n, d)], in the order of the
    reference parameters of the declaration. *)
Definition LinearToSpatial (index : Z) : Z * Z * Z * Z * Z * Z :=
  let cell := index / (ND LT * NPOP) in
  let rest := index mod (ND LT * NPOP) in
  let z := cell / (NX d * NY d) in
  let y := (cell mod (NX d * NY d)) / NX d in
  let x := cell mod NX d in
  let p := rest / ND LT in
  let n := (rest mod ND LT) / OFF LT in
  let dd := (rest mod ND LT) mod OFF LT in
  (x, y, z, p, n, dd).

(** *** [Load] *)

(** [AA_IndexRead<odd>(x,y,z,n,d,p)] is defined in [population_indexing.hpp],
    which is not among the sources: [Load] is embedded over any such index
    function.  The coordinate windows [x[3]], [y[3]], [z[3]] are triples. *)
Variable AA_IndexRead : bool -> Z * Z * Z -> Z * Z * Z -> Z * Z * Z -> Z -> Z -> Z -> Z.

(** [F[i]] as an rvalue *)
Definition F_read (pop : t) (i : Z) : option T :=
  match F_ pop with
  | Some F => rd F i
  | None => None
  end.

(** [f[n*OFF + d] = F[AA_IndexRead<odd>(x,y,z,n,d,p)];] *)
Definition load_one (pop : t) (odd : bool) (x y z : Z * Z * Z) (p n dd : Z)
    (f : list T) : option (list T) :=
  match F_read pop (AA_IndexRead odd x y z n dd p) with
  | Some v => wr f (wrap32 (wrap32 (n * OFF LT) + dd)) v
  | None => None
  end.

(** The local array [f] has [ND] elements and is passed by reference: the
    result is its content after the call.  The outer loop is
    [for (n = 0; n <= 1; ++n)]. *)
Definition Load (pop : t) (odd : bool) (x y z : Z * Z * Z) (f : list T) (p : Z)
  : option (list T) :=
  match
    for_lt 0 (1 + 1) (fun n =>
      for_lt 0 (OFF LT) (fun dd => load_one pop odd x y z p n dd)) f
  with
  | Some f1 => wr f1 (OFF LT) f_zero
  | None => None
  end.

(** *** [Store] *)

(** [AA_IndexWrite<odd>(x,y,z,n,d,p)], like [AA_IndexRead], is defined in
    [population_indexing.hpp]: [Store] is embedded over any such index
    function. *)
Variable AA_IndexWrite : bool -> Z * Z * Z -> Z * Z * Z -> Z * Z * Z -> Z -> Z -> Z -> Z.

(** [F[i] = v]: the object with its buffer updated. *)
Definition F_write (pop : t) (i : Z) (v : T) : option t :=
  match F_ pop with
  | Some F =>
      match wr F i v with
      | Some F' =>
          Some {| F_ := Some F'; NU_ := NU_ pop; TAU_ := TAU_ pop; OMEGA_ := OMEGA_ pop;
                  LAMBDA_ := LAMBDA_ pop; OMEGA_M_ := OMEGA_M_ pop |}
      | None => None
      end
  | None => None
  end.

(** [F[AA_IndexWrite<odd>(x,y,z,n,d,p)] = f[n*OFF + d];] *)
Definition store_one (odd : bool) (x y z : Z * Z * Z) (f : list T) (p n dd : Z)
    (pop : t) : option t :=
  match rd f (wrap32 (wrap32 (n * OFF LT) + dd)) with
  | Some v => F_write pop (AA_IndexWrite odd x y z n dd p) v
  | None => None
  end.

(** The local array [f] is passed by const reference; the result is the
    object after the call.  The outer loop is [for (n = 0; n <= 1; ++n)]. *)
Definition Store (pop : t) (odd : bool) (x y z : Z * Z * Z) (f : list T) (p : Z)
  : option t :=
  for_lt 0 (1 + 1) (fun n =>
    for_lt 0 (OFF LT) (fun dd => store_one odd x y z f p n dd)) pop.

(** *** Vocabulary of the properties *)

(** The buffer offsets that [Load] reads and [Store] writes for index [i] of
    the local array: those of half [i / OFF] and direction [i mod OFF]. *)
Definition read_index (odd : bool) (x y z : Z * Z * Z) (p : Z) (i : Z) : Z :=
  AA_IndexRead odd x y z (i / OFF LT) (i mod OFF LT) p.

Definition write_index (odd : bool) (x y z : Z * Z * Z) (p : Z) (i : Z) : Z :=
  AA_IndexWrite odd x y z (i / OFF LT) (i mod OFF LT) p.

(** The object [q] holds the physical parameters of [pop]. *)
Definition same_parameters (q pop : t) : Prop :=
  NU_ q = NU_ pop /\ TAU_ q = TAU_ pop /\ OMEGA_ q = OMEGA_ pop /\
  LAMBDA_ q = LAMBDA_ pop /\ OMEGA_M_ q = OMEGA_M_ pop.

(** The state after the first [k] assignments of [Store] of the array [f]
    into the object [pop] with buffer [F]: the parameters are those of
    [pop], the elements that none of the assignments addressed are as
    before, and an assignment that no later one overwrote is visible. *)
Definition stored (odd : bool) (x y z : Z * Z * Z) (p : Z) (f F : list T) (pop : t)
    (k : Z) (q : t) : Prop :=
  same_parameters q pop /\
  exists Fk, F_ q = Some Fk /\ length Fk = length F /\
    (forall i, (forall j, 0 <= j < k -> write_index odd x y z p j <> i) -> rd Fk i = rd F i) /\
    (forall j, 0 <= j < k ->
       (forall j', j < j' < k -> write_index odd x y z p j' <> write_index odd x y z p j) ->
       rd Fk (write_index odd x y z p j) = rd f j).

(** The coordinates that address a value of the field. *)
Definition valid (x y z n dd p : Z) : Prop :=
  0 <= x < NX d /\ 0 <= y < NY d /\ 0 <= z < NZ d /\
  0 <= n < 2 /\ 0 <= dd < OFF LT /\ 0 <= p < NPOP.

(** The buffer element that [Load] reads for index [i] of the local array:
    that of half [i / OFF] and direction [i mod OFF]. *)
Definition loaded (pop : t) (odd : bool) (x y z : Z * Z * Z) (p : Z) (i : Z)
  : option T :=
  F_read pop (AA_IndexRead odd x y z (i / OFF LT) (i mod OFF LT) p).

End Population.
End Population.

(** ** The program: [main] *)

Module Main.

(** Modelled from the spec: [lattice/D3Q27.hpp] is not among the sources.
    The D3Q27 model has 27 discrete velocities in 3 dimensions, 14 of which
    reconstruct all by symmetry; a cell stores [ND] values, the 27
    populations and one pad value, in two halves of [OFF = ND/2]; its
    lattice speed of sound is [1/sqrt(3)]. *)
Definition D3Q27 : lattice float := {|
  DIM := 3;
  SPEEDS := 27;
  HSPEED := 14;
  PAD := 1;
  ND := 28;
  OFF := 14;
  CS := (1 / PrimFloat.sqrt 3)%float;
|}.

(** spatial and temporal resolution *)
Definition domain : dims := {| NX := 192; NY := 96; NZ := 96 |}.
Definition NT : Z := 10000.

(** physics *)
Definition Re : float := 1000%float.
Definition U : float := 0.05%float.
Definition L : Z := wrap32 (NY domain / 5).

(** initial conditions *)
Definition RHO_0 : float := 1%float.
Definition U_0 : float := U.
Definition V_0 : float := 0%float.
Definition W_0 : float := 0%float.

(** save values to disk after each time step *)
Definition save : bool := true.

(** What the run depends on besides its arguments: whether the program was
    compiled with OpenMP, and what the two calls of [aligned_alloc]
    return. *)
Record environment : Type := {
  openmp : bool;
  alloc_Macro : option (list float);
  alloc_Micro : option (list float);
}.

(** The four calls of one parity of the main loop. *)
Definition parity_pass (odd : bool) : prog unit :=
  (emit (Guo odd Velocity Left inlet) ;;
   emit (Guo odd Pressure Right outlet) ;;
   emit (CollideStreamBGK_Smagorinsky odd) ;;
   emit (BounceBackHalfway odd wall))%prog.

(** The body of [if ((save == true) && (i % (NT/10) == 0))]. *)
Definition export_step (i : Z) : prog unit :=
  (emit (StatusOutput i) ;;
   emit (SetZero wall) ;;
   emit (ExportVtk (wrap32 i)))%prog.

(** One iteration of the main loop, over the constants [nt] and [sv] of
    the program.  A zero divisor [nt/10] is undefined behaviour. *)
Definition loop_body (nt : Z) (sv : bool) (i : Z) : prog unit :=
  (parity_pass false ;;
   parity_pass true ;;
   if sv then
     if wrap32 (nt / 10) =? 0 then undefined
     else if wrap64 (i mod wrap32 (nt / 10)) =? 0 then export_step i
     else ret tt
   else ret tt)%prog.

(** [for (size_t i = 0; i < NT; i+=2) { ... }], from index [i] on.  Since
    [i < NT <= UINT_MAX] holds whenever the body runs, [i += 2] never wraps
    in [size_t]. *)
Equations? main_loop (nt : Z) (sv : bool) (i : Z) : prog unit
  by wf (Z.to_nat (nt - i)) lt :=
  main_loop nt sv i with Z_lt_dec i nt := {
    | left _ => bind (loop_body nt sv i) (fun _ => main_loop nt sv (i + 2))
    | right _ => ret tt }.
Proof. lia. Qed.

(** Everything after the command-line switches. *)
Definition simulation (env : environment) : prog Z :=
  (Macro <- Continuum.ctor (alloc_Macro env) ;;
   Micro <- Population.ctor D3Q27 (alloc_Micro env) Re U L f_quarter ;;
   emit InitialOutput ;;
   emit ExportParameters ;;
   emit Cylinder3D ;;
   Macro' <- lift (Continuum.InitContinuum domain Macro RHO_0 U_0 V_0 W_0) ;;
   emit (InitLattice false) ;;
   emit (Print Cout "Simulation started...") ;;
   emit Timer_Start ;;
   main_loop NT save 0 ;;
   emit Timer_Stop ;;
   emit PerformanceOutput ;;
   Population.dtor Micro ;;
   ret EXIT_SUCCESS)%prog.

(** The command-line switches: [argv] holds the program name and the
    arguments, [argc] is its length. *)
Definition switches (argv : list string) : prog unit :=
  let argc := Z.of_nat (length argv) in
  let arg1 := nth 1 argv EmptyString in
  if 1 <? argc then
    if String.eqb arg1 "--version" || String.eqb arg1 "--v" then
      (emit PrintDisclaimer ;; exit EXIT_SUCCESS)%prog
    else if String.eqb arg1 "--convert" then
      (emit (Print Cerr "Error: Feature not implemented yet.") ;;
       exit EXIT_FAILURE)%prog
    else if String.eqb arg1 "--info" || String.eqb arg1 "--help" then
      (emit (Print Cerr "Usage: '--convert'             Convert *.bin files to *.vtk") ;;
       emit (Print Cerr "       '--help'    or '--info' Show help") ;;
       emit (Print Cerr "       '--version' or '--v'    Show build version") ;;
       exit EXIT_SUCCESS)%prog
    else ret tt
  else ret tt.

Definition main (env : environment) (argv : list string) : prog Z :=
  ((if openmp env then emit Parallelism_ctor else ret tt) ;;
   switches argv ;;
   simulation env)%prog.

(** *** Vocabulary of the properties *)

(** The loop indices from [i] on: [i], [i+2], ... below [nt]. *)
Definition indices (nt i : Z) : list Z :=
  (fun k => i + 2 * k) <$> seqZ 0 ((nt - i + 1) / 2).

(** The calls of a parity pass, of an export, and of a loop iteration. *)
Definition pass_events (odd : bool) : list event :=
  [Guo odd Velocity Left inlet; Guo odd Pressure Right outlet;
   CollideStreamBGK_Smagorinsky odd; BounceBackHalfway odd wall].

Definition export_events (i : Z) : list event :=
  [StatusOutput i; SetZero wall; ExportVtk i].

Definition iteration_events (nt : Z) (sv : bool) (i : Z) : list event :=
  pass_events false ++ pass_events true ++
  (if sv && (i mod (nt / 10) =? 0) then export_events i else []).

(** The calls that belong to a parity pass: boundary enforcers and
    collision+streaming. *)
Definition is_pass_event (e : event) : bool :=
  match e with
  | Guo _ _ _ _ | CollideStreamBGK_Smagorinsky _ | BounceBackHalfway _ _ => true
  | _ => false
  end.

(** The calls that belong to an export. *)
Definition is_export_event (e : event) : bool :=
  match e with
  | StatusOutput _ | SetZero _ | ExportVtk _ => true
  | _ => false
  end.

(** What [main] calls before the switches. *)
Definition startup_events (env : environment) : list event :=
  if openmp env then [Parallelism_ctor] else [].

(** A run in which both allocations succeed; the buffers hold whatever was
    left in memory. *)
Definition allocating : environment := {|
  openmp := true;
  alloc_Macro := Some (replicate (Z.to_nat (Continuum.length_ domain)) PrimFloat.nan);
  alloc_Micro := Some (replicate (Z.to_nat (Population.length_ domain D3Q27 1)) PrimFloat.nan);
|}.

(** An index function of the shape the specification gives for even
    parity, the slot of the cell itself; the cell is the middle element of
    each window. *)
Definition own_slot (odd : bool) (x y z : Z * Z * Z) (n dd p : Z) : Z :=
  Population.SpatialToLinear domain D3Q27 1 x.1.2 y.1.2 z.1.2 n dd p.

(** A population of [main] whose allocation failed. *)
Definition unallocated : Population.t := {|
  Population.F_ := None;
  Population.NU_ := Population.init_NU Re U L;
  Population.TAU_ := Population.init_TAU D3Q27 (Population.init_NU Re U L);
  Population.OMEGA_ := Population.init_OMEGA (Population.init_TAU D3Q27 (Population.init_NU Re U L));
  Population.LAMBDA_ := f_quarter;
  Population.OMEGA_M_ :=
    Population.init_OMEGA_M (Population.init_TAU D3Q27 (Population.init_NU Re U L)) f_quarter;
|}.

(** A population of [main] whose buffer holds the same value everywhere. *)
Definition uniform (v : float) : Population.t := {|
  Population.F_ := Some (replicate (Z.to_nat (Population.length_ domain D3Q27 1)) v);
  Population.NU_ := Population.init_NU Re U L;
  Population.TAU_ := Population.init_TAU D3Q27 (Population.init_NU Re U L);
  Population.OMEGA_ := Population.init_OMEGA (Population.init_TAU D3Q27 (Population.init_NU Re U L));
  Population.LAMBDA_ := f_quarter;
  Population.OMEGA_M_ :=
    Population.init_OMEGA_M (Population.init_TAU D3Q27 (Population.init_NU Re U L)) f_quarter;
|}.

End Main.

(** ** Particular inputs *)

(** The domain of the concrete scenario of the specification. *)
Definition cube16 : dims := {| NX := 16; NY := 16; NZ := 16 |}.

(** A one-dimensional domain whose extent is within one block of [2^32]
    (a field of 128 GiB in binary64). *)
Definition wide : dims := {| NX := 4294967292; NY := 1; NZ := 1 |}.

(** A domain whose byte count does not fit in [size_t]: its cells of four
    doubles take [2^64 + 582656] bytes. *)
Definition vast : dims := {| NX := 16531; NY := 16293; NZ := 2140274912 |}.

(** A field as [aligned_alloc] hands it out, every element holding the
    same left-over value [v]. *)
Definition fresh (d : dims) (v : float) : Continuum.t :=
  {| Continuum.M_ := Some (replicate (Z.to_nat (Continuum.length_ d)) v) |}.

(** * Part II: properties *)

(** Linear arithmetic with division and remainder by constants. *)
Ltac lia_div := Z.div_mod_to_equations; lia.

(** ** Buffers and loops *)

Section BufferFacts.
Context {T : Type}.
Implicit Types (buf : list T) (v : T).

Lemma wr_Some buf i v :
  0 <= i < Z.of_nat (length buf) ->
  wr buf i v = Some (<[Z.to_nat i := v]> buf).
Proof.
  intros H. unfold wr.
  destruct (Z.leb_spec 0 i); [|lia].
  destruct (Z.ltb_spec i (Z.of_nat (length buf))); [|lia].
  reflexivity.
Qed.

Lemma wr_inv buf i v buf' :
  wr buf i v = Some buf' ->
  0 <= i < Z.of_nat (length buf) /\ buf' = <[Z.to_nat i := v]> buf.
Proof.
  unfold wr.
  destruct (Z.leb_spec 0 i); simpl; [|discriminate].
  destruct (Z.ltb_spec i (Z.of_nat (length buf))); [|discriminate].
  intros [= <-]. split; [lia | reflexivity].
Qed.

Lemma wr_length buf i v buf' :
  wr buf i v = Some buf' -> length buf' = length buf.
Proof.
  intros H. apply wr_inv in H as [_ ->]. apply length_insert.
Qed.

Lemma rd_wr_eq buf i v buf' :
  wr buf i v = Some buf' -> rd buf' i = Some v.
Proof.
  intros H. apply wr_inv in H as [Hi ->]. unfold rd.
  destruct (Z.ltb_spec i 0); [lia|].
  apply list_lookup_insert_eq. lia.
Qed.

Lemma rd_wr_ne buf i j v buf' :
  wr buf i v = Some buf' -> i <> j -> rd buf' j = rd buf j.
Proof.
  intros H Hne. apply wr_inv in H as [Hi ->]. unfold rd.
  destruct (Z.ltb_spec j 0); [reflexivity|].
  apply list_lookup_insert_ne. lia.
Qed.
End BufferFacts.

Lemma for_lt_done {S : Type} (i hi : Z) (body : Z -> S -> option S) s :
  hi <= i -> for_lt i hi body s = Some s.
Proof.
  intros H. rewrite for_lt_equation_1.
  destruct (Z_lt_dec i hi); [lia | reflexivity].
Qed.

Lemma for_lt_step {S : Type} (i hi : Z) (body : Z -> S -> option S) s :
  i < hi ->
  for_lt i hi body s =
  match body i s with Some s' => for_lt (i + 1) hi body s' | None => None end.
Proof.
  intros H. rewrite for_lt_equation_1.
  destruct (Z_lt_dec i hi); [|lia].
  simpl. destruct (body i s); reflexivity.
Qed.

(** Induction principle for counted loops: an invariant that every
    iteration preserves holds at the end, provided no iteration is
    undefined on a state that satisfies it. *)
Lemma for_lt_invariant {S : Type} (P : Z -> S -> Prop) (body : Z -> S -> option S)
    (lo hi : Z) (s : S) :
  lo <= hi ->
  P lo s ->
  (forall i s0, lo <= i < hi -> P i s0 ->
     exists s1, body i s0 = Some s1 /\ P (i + 1) s1) ->
  exists s', for_lt lo hi body s = Some s' /\ P hi s'.
Proof.
  intros Hle HP Hbody.
  remember (Z.to_nat (hi - lo)) as n eqn:Hn.
  revert lo s Hle HP Hbody Hn.
  induction n as [|n IH]; intros lo s Hle HP Hbody Hn.
  - assert (lo = hi) as -> by lia.
    exists s. split; [apply for_lt_done; lia | exact HP].
  - assert (lo < hi) as Hlt by lia.
    destruct (Hbody lo s) as (s1 & Hs1 & HP1); [lia | exact HP |].
    destruct (IH (lo + 1) s1) as (s' & Hs' & HP'); [lia | exact HP1 | | lia |].
    + intros i s0 Hi. apply Hbody. lia.
    + exists s'. split; [|exact HP'].
      rewrite for_lt_step by lia. rewrite Hs1. exact Hs'.
Qed.

Lemma run_list_app {A S : Type} (f : A -> S -> option S) (l1 l2 : list A) (s : S) :
  run_list f (l1 ++ l2) s =
  match run_list f l1 s with Some s' => run_list f l2 s' | None => None end.
Proof.
  revert s. induction l1 as [|a l1 IH]; intros s; simpl; [reflexivity|].
  destruct (f a s); [apply IH | reflexivity].
Qed.

Lemma run_list_bind {A B S : Type} (f : B -> S -> option S) (g : A -> list B)
    (l : list A) (s : S) :
  run_list (fun a => run_list f (g a)) l s = run_list f (l ≫= g) s.
Proof.
  revert s. induction l as [|a l IH]; intros s; [reflexivity|].
  cbn [run_list]. rewrite bind_cons, run_list_app.
  destruct (run_list f (g a) s); [apply IH | reflexivity].
Qed.

Lemma run_list_ext {A S : Type} (f g : A -> S -> option S) (l : list A) (s : S) :
  (forall a s0, a ∈ l -> f a s0 = g a s0) ->
  run_list f l s = run_list g l s.
Proof.
  revert s. induction l as [|a l IH]; intros s H; [reflexivity|].
  simpl. rewrite (H a s) by apply list_elem_of_here.
  destruct (g a s); [|reflexivity].
  apply IH. intros b sb Hb. apply H. apply list_elem_of_further, Hb.
Qed.

Lemma for_lt_run_list {S : Type} (lo hi : Z) (body : Z -> S -> option S) (s : S) :
  for_lt lo hi body s = run_list body (seqZ lo (hi - lo)) s.
Proof.
  remember (Z.to_nat (hi - lo)) as n eqn:Hn.
  revert lo s Hn. induction n as [|n IH]; intros lo s Hn.
  - rewrite for_lt_done by lia.
    unfold seqZ. replace (Z.to_nat (hi - lo)) with 0%nat by lia. reflexivity.
  - rewrite for_lt_step by lia.
    rewrite seqZ_cons by lia. cbn [run_list].
    destruct (body lo s) as [s'|]; [|reflexivity].
    rewrite IH by lia.
    replace (Z.pred (hi - lo)) with (hi - (lo + 1)) by lia.
    replace (Z.succ lo) with (lo + 1) by lia. reflexivity.
Qed.


(** ** The loop nest of [InitContinuum] *)

Section BlockedLoop.
Context {T : Type}.
Variable d : dims.

Lemma run_list_singleton {A S : Type} (f : A -> S -> option S) (a : A) (s : S) :
  run_list f [a] s = f a s.
Proof. simpl. destruct (f a s); reflexivity. Qed.

(** The loop nest runs the per-cell statement over [cells], in order. *)
Lemma blocked_loop_cells {S : Type} (cell : Z -> Z -> Z -> S -> option S) (s : S) :
  Continuum.blocked_loop d cell s =
  run_list (fun c : Z * Z * Z => cell c.1.1 c.1.2 c.2) (Continuum.cells d) s.
Proof.
  unfold Continuum.blocked_loop, Continuum.cells, Continuum.block_cells.
  rewrite for_lt_run_list, Z.sub_0_r, <- run_list_bind.
  apply run_list_ext; intros block s1 _.
  rewrite for_lt_run_list, <- run_list_bind.
  apply run_list_ext; intros z s2 _.
  rewrite for_lt_run_list, <- run_list_bind.
  apply run_list_ext; intros y s3 _.
  rewrite for_lt_run_list, <- run_list_bind.
  apply run_list_ext; intros x s4 _.
  rewrite run_list_singleton. reflexivity.
Qed.

Lemma run_list_collect {A : Type} (l acc : list A) :
  run_list (fun a acc0 => Some (acc0 ++ [a])) l acc = Some (acc ++ l).
Proof.
  revert acc. induction l as [|a l IH]; intros acc; simpl.
  - rewrite app_nil_r. reflexivity.
  - rewrite IH, <- app_assoc. reflexivity.
Qed.

Lemma visited_cells : Continuum.visited d = Some (Continuum.cells d).
Proof.
  unfold Continuum.visited. rewrite blocked_loop_cells.
  etransitivity; [|exact (run_list_collect (Continuum.cells d) [])].
  apply run_list_ext. intros [[x y] z] acc _. reflexivity.
Qed.

Lemma in_block_spec block x y z :
  Continuum.in_block d block x y z = true <->
  Continuum.x_start d block <= x < Continuum.x_end d block /\
  Continuum.y_start d block <= y < Continuum.y_end d block /\
  Continuum.z_start d block <= z < Continuum.z_end d block.
Proof.
  unfold Continuum.in_block.
  rewrite !andb_true_iff, !Z.leb_le, !Z.ltb_lt. tauto.
Qed.

(** The cells of a block are those that it owns, each once. *)
Lemma elem_of_block_cells block x y z :
  (x, y, z) ∈ Continuum.block_cells d block <->
  Continuum.in_block d block x y z = true.
Proof.
  unfold Continuum.block_cells. rewrite in_block_spec. split.
  - intros Hc.
    apply list_elem_of_bind in Hc as (z' & Hc & Hz). apply elem_of_seqZ in Hz.
    apply list_elem_of_bind in Hc as (y' & Hc & Hy). apply elem_of_seqZ in Hy.
    apply list_elem_of_bind in Hc as (x' & Hc & Hx). apply elem_of_seqZ in Hx.
    apply list_elem_of_singleton in Hc. injection Hc as -> -> ->. lia.
  - intros Hin.
    apply list_elem_of_bind. exists z. split; [|apply elem_of_seqZ; lia].
    apply list_elem_of_bind. exists y. split; [|apply elem_of_seqZ; lia].
    apply list_elem_of_bind. exists x. split; [|apply elem_of_seqZ; lia].
    apply list_elem_of_singleton. reflexivity.
Qed.

Lemma NoDup_block_cells block : NoDup (Continuum.block_cells d block).
Proof.
  unfold Continuum.block_cells.
  apply NoDup_bind; [| |apply NoDup_seqZ].
  { intros z1 z2 [[x y] z] _ _ H1 H2.
    apply list_elem_of_bind in H1 as (y1 & H1 & _).
    apply list_elem_of_bind in H1 as (x1 & H1 & _).
    apply list_elem_of_bind in H2 as (y2 & H2 & _).
    apply list_elem_of_bind in H2 as (x2 & H2 & _).
    apply list_elem_of_singleton in H1, H2. congruence. }
  intros z _. apply NoDup_bind; [| |apply NoDup_seqZ].
  { intros y1 y2 [[x y] z'] _ _ H1 H2.
    apply list_elem_of_bind in H1 as (x1 & H1 & _).
    apply list_elem_of_bind in H2 as (x2 & H2 & _).
    apply list_elem_of_singleton in H1, H2. congruence. }
  intros y _. apply NoDup_bind; [| |apply NoDup_seqZ].
  { intros x1 x2 [[x y'] z'] _ _ H1 H2.
    apply list_elem_of_singleton in H1, H2. congruence. }
  intros x _. apply NoDup_singleton.
Qed.

(** A cell is visited exactly when some block owns it. *)
Lemma elem_of_cells x y z :
  (x, y, z) ∈ Continuum.cells d <->
  exists block, 0 <= block < Continuum.NUM_BLOCKS d /\
                Continuum.in_block d block x y z = true.
Proof.
  unfold Continuum.cells. rewrite list_elem_of_bind. split.
  - intros (block & Hc & Hb). exists block.
    apply elem_of_seqZ in Hb. apply elem_of_block_cells in Hc. split; [lia | exact Hc].
  - intros (block & Hb & Hin). exists block.
    split; [apply elem_of_block_cells, Hin | apply elem_of_seqZ; lia].
Qed.

(** Whatever the resolution, only cells of the domain are visited. *)
Lemma cells_in_domain x y z :
  0 <= NX d -> 0 <= NY d -> 0 <= NZ d ->
  (x, y, z) ∈ Continuum.cells d -> Continuum.in_domain d x y z.
Proof.
  intros Hx Hy Hz Hc. apply elem_of_cells in Hc as (block & _ & Hin).
  apply in_block_spec in Hin. revert Hin.
  unfold Continuum.x_end, Continuum.y_end, Continuum.z_end.
  unfold Continuum.x_start, Continuum.y_start, Continuum.z_start.
  unfold Continuum.in_domain, wrap32.
  intros Hin.
  repeat match goal with
  | H : context [?n mod 2 ^ 32] |- _ =>
      pose proof (Z.mod_pos_bound n (2 ^ 32) eq_refl); generalize dependent (n mod 2 ^ 32); intros
  end.
  lia.
Qed.

End BlockedLoop.

(** ** Arithmetic of the block index

    A block index below [a*b*c] splits into its three digits
    [block mod a], [(block mod (a*b)) / a] and [block / (a*b)]. *)

Section BlockIndex.
Variables a b c : Z.
Hypothesis Ha : 0 < a.
Hypothesis Hb : 0 < b.

Lemma digits_bound block :
  0 <= block < a * b * c ->
  0 <= block mod a < a /\
  0 <= (block mod (a * b)) / a < b /\
  0 <= block / (a * b) < c.
Proof.
  intros Hblock.
  assert (0 < a * b) as Hab by nia.
  pose proof (Z.mod_pos_bound block a Ha).
  pose proof (Z.mod_pos_bound block (a * b) Hab).
  split; [lia|]. split; split.
  - apply Z.div_pos; lia.
  - apply Z.div_lt_upper_bound; lia.
  - apply Z.div_pos; lia.
  - apply Z.div_lt_upper_bound; lia.
Qed.

Lemma digits_recompose block :
  block = (a * b) * (block / (a * b)) + a * ((block mod (a * b)) / a) + block mod a.
Proof.
  assert (0 < a * b) as Hab by nia.
  assert (block mod a = (block mod (a * b)) mod a) as ->.
  { symmetry. apply Z.mod_mod_divide. exists b. lia. }
  pose proof (Z.div_mod block (a * b)).
  pose proof (Z.div_mod (block mod (a * b)) a).
  lia.
Qed.

Lemma digits_of_compose i j k :
  0 <= i < a -> 0 <= j < b -> 0 <= k ->
  let block := (a * b) * k + a * j + i in
  block mod a = i /\ (block mod (a * b)) / a = j /\ block / (a * b) = k.
Proof.
  intros Hi Hj Hk block.
  assert (0 <= a * j + i < a * b) as Hr by nia.
  assert (block mod (a * b) = a * j + i) as Hmod.
  { symmetry. apply (Z.mod_unique_pos _ _ k); [exact Hr | unfold block; ring]. }
  split; [|split].
  - symmetry. apply (Z.mod_unique_pos _ _ (b * k + j)); [lia | unfold block; ring].
  - rewrite Hmod. symmetry. apply (Z.div_unique_pos _ _ _ i); lia.
  - symmetry. apply (Z.div_unique_pos _ _ _ (a * j + i)); [exact Hr | unfold block; ring].
Qed.

Lemma compose_bound i j k :
  0 <= i < a -> 0 <= j < b -> 0 <= k < c ->
  0 <= (a * b) * k + a * j + i < a * b * c.
Proof.
  intros Hi Hj Hk.
  assert (0 <= a * j + i <= a * b - 1) as Hr by nia.
  assert (0 <= (a * b) * k <= (a * b) * (c - 1)) as Hq by nia.
  split; [lia|].
  replace (a * b * c) with ((a * b) * (c - 1) + a * b) by ring.
  lia.
Qed.

End BlockIndex.

(** ** The blocks of a domain that fits *)

Lemma wrap32_small n : 0 <= n <= UINT_MAX -> wrap32 n = n.
Proof. unfold wrap32, UINT_MAX. intros H. apply Z.mod_small. lia. Qed.

Lemma ceil_div_block n :
  0 <= n ->
  32 * ceil_div n Continuum.BLOCK_SIZE - 31 <= n <= 32 * ceil_div n Continuum.BLOCK_SIZE.
Proof. unfold ceil_div, Continuum.BLOCK_SIZE. intros H. lia_div. Qed.

Section BlockRanges.
Variable d : dims.
Hypothesis Hfits : Continuum.fits d.

Lemma NUM_BLOCKS_X_eq :
  Continuum.NUM_BLOCKS_X d = ceil_div (NX d) Continuum.BLOCK_SIZE.
Proof.
  destruct Hfits as (Hx & _). pose proof (ceil_div_block (NX d)).
  unfold Continuum.NUM_BLOCKS_X. apply wrap32_small. unfold UINT_MAX in *. lia.
Qed.

Lemma NUM_BLOCKS_Y_eq :
  Continuum.NUM_BLOCKS_Y d = ceil_div (NY d) Continuum.BLOCK_SIZE.
Proof.
  destruct Hfits as (_ & Hy & _). pose proof (ceil_div_block (NY d)).
  unfold Continuum.NUM_BLOCKS_Y. apply wrap32_small. unfold UINT_MAX in *. lia.
Qed.

Lemma NUM_BLOCKS_Z_eq :
  Continuum.NUM_BLOCKS_Z d = ceil_div (NZ d) Continuum.BLOCK_SIZE.
Proof.
  destruct Hfits as (_ & _ & Hz & _). pose proof (ceil_div_block (NZ d)).
  unfold Continuum.NUM_BLOCKS_Z. apply wrap32_small. unfold UINT_MAX in *. lia.
Qed.

(** The extents in terms of the block counts. *)
Lemma block_counts :
  let a := Continuum.NUM_BLOCKS_X d in
  let b := Continuum.NUM_BLOCKS_Y d in
  let c := Continuum.NUM_BLOCKS_Z d in
  (32 * a - 31 <= NX d <= 32 * a) /\
  (32 * b - 31 <= NY d <= 32 * b) /\
  (32 * c - 31 <= NZ d <= 32 * c) /\
  0 <= a /\ 0 <= b /\ 0 <= c /\ a * b * c <= UINT_MAX.
Proof.
  intros a b c. subst a b c.
  rewrite NUM_BLOCKS_X_eq, NUM_BLOCKS_Y_eq, NUM_BLOCKS_Z_eq.
  destruct Hfits as (Hx & Hy & Hz & Hn).
  pose proof (ceil_div_block (NX d)). pose proof (ceil_div_block (NY d)).
  pose proof (ceil_div_block (NZ d)).
  repeat split; try lia.
Qed.

Lemma NUM_BLOCKS_eq :
  Continuum.NUM_BLOCKS d =
  Continuum.NUM_BLOCKS_X d * Continuum.NUM_BLOCKS_Y d * Continuum.NUM_BLOCKS_Z d.
Proof.
  pose proof block_counts as (_ & _ & _ & Ha & Hb & Hc & Hn). cbv zeta in *.
  unfold Continuum.NUM_BLOCKS.
  destruct (Z.eq_dec (Continuum.NUM_BLOCKS_Z d) 0) as [-> | Hne].
  - rewrite !Z.mul_0_r. reflexivity.
  - assert (0 <= Continuum.NUM_BLOCKS_X d * Continuum.NUM_BLOCKS_Y d <= UINT_MAX) by nia.
    rewrite (wrap32_small (Continuum.NUM_BLOCKS_X d * Continuum.NUM_BLOCKS_Y d)) by lia.
    apply wrap32_small. nia.
Qed.

Lemma blocks_pos block :
  0 <= block < Continuum.NUM_BLOCKS d ->
  0 < Continuum.NUM_BLOCKS_X d /\ 0 < Continuum.NUM_BLOCKS_Y d /\
  0 < Continuum.NUM_BLOCKS_Z d /\
  wrap32 (Continuum.NUM_BLOCKS_X d * Continuum.NUM_BLOCKS_Y d) =
    Continuum.NUM_BLOCKS_X d * Continuum.NUM_BLOCKS_Y d.
Proof.
  rewrite NUM_BLOCKS_eq.
  pose proof block_counts as (_ & _ & _ & Ha & Hb & Hc & Hn). cbv zeta in *.
  intros Hblock.
  assert (0 < Continuum.NUM_BLOCKS_X d) by nia.
  assert (0 < Continuum.NUM_BLOCKS_Y d) by nia.
  assert (0 < Continuum.NUM_BLOCKS_Z d) by nia.
  repeat split; try lia.
  apply wrap32_small. nia.
Qed.

(** Without wrap-around, the ranges of a block are its digits times the
    block size, clamped to the extents. *)
Lemma block_ranges block :
  0 <= block < Continuum.NUM_BLOCKS d ->
  let a := Continuum.NUM_BLOCKS_X d in
  let b := Continuum.NUM_BLOCKS_Y d in
  Continuum.x_start d block = 32 * (block mod a) /\
  Continuum.x_end d block = Z.min (32 * (block mod a) + 32) (NX d) /\
  Continuum.y_start d block = 32 * ((block mod (a * b)) / a) /\
  Continuum.y_end d block = Z.min (32 * ((block mod (a * b)) / a) + 32) (NY d) /\
  Continuum.z_start d block = 32 * (block / (a * b)) /\
  Continuum.z_end d block = Z.min (32 * (block / (a * b)) + 32) (NZ d).
Proof.
  intros Hblock a b.
  destruct (blocks_pos block Hblock) as (Ha & Hb & Hc & Hab).
  pose proof block_counts as (Hx & Hy & Hz & _). cbv zeta in Hx, Hy, Hz.
  destruct Hfits as (Hfx & Hfy & Hfz & _).
  rewrite NUM_BLOCKS_eq in Hblock.
  destruct (digits_bound _ _ _ Ha Hb block Hblock) as (Hi & Hj & Hk).
  fold a b in Hi, Hj, Hk, Hx, Hy, Hab.
  unfold Continuum.x_end, Continuum.y_end, Continuum.z_end.
  unfold Continuum.x_start, Continuum.y_start, Continuum.z_start.
  fold a b. rewrite Hab. unfold Continuum.BLOCK_SIZE, UINT_MAX in *.
  rewrite (wrap32_small (32 * (block mod a))) by (unfold UINT_MAX; lia).
  rewrite (wrap32_small (32 * (block mod (a * b) / a))) by (unfold UINT_MAX; lia).
  rewrite (wrap32_small (32 * (block / (a * b)))) by (unfold UINT_MAX; lia).
  rewrite !wrap32_small by (unfold UINT_MAX; lia).
  repeat split; reflexivity.
Qed.

(** A block owns exactly the cells of the domain whose coordinates,
    divided by the block size, are its digits. *)
Lemma in_block_digits block x y z :
  0 <= block < Continuum.NUM_BLOCKS d ->
  let a := Continuum.NUM_BLOCKS_X d in
  let b := Continuum.NUM_BLOCKS_Y d in
  Continuum.in_block d block x y z = true <->
  Continuum.in_domain d x y z /\
  x / 32 = block mod a /\ y / 32 = (block mod (a * b)) / a /\ z / 32 = block / (a * b).
Proof.
  intros Hblock a b.
  destruct (block_ranges block Hblock) as (Hxs & Hxe & Hys & Hye & Hzs & Hze).
  destruct (blocks_pos block Hblock) as (Ha & Hb & Hc & Hab).
  rewrite NUM_BLOCKS_eq in Hblock.
  destruct (digits_bound _ _ _ Ha Hb block Hblock) as (Hi & Hj & Hk).
  fold a b in Hxs, Hxe, Hys, Hye, Hzs, Hze, Hi, Hj, Hk.
  rewrite in_block_spec, Hxs, Hxe, Hys, Hye, Hzs, Hze.
  unfold Continuum.in_domain.
  generalize dependent (block mod a). generalize dependent (block mod (a * b) / a).
  generalize dependent (block / (a * b)). intros k _ _ Hk j _ _ Hj i _ _ Hi.
  lia_div.
Qed.

Lemma owner_in_block x y z :
  Continuum.in_domain d x y z ->
  0 <= Continuum.owner d x y z < Continuum.NUM_BLOCKS d /\
  Continuum.in_block d (Continuum.owner d x y z) x y z = true.
Proof.
  intros Hdom. pose proof Hdom as (Hx & Hy & Hz).
  pose proof block_counts as (Hbx & Hby & Hbz & Ha & Hb & Hc & _).
  cbv zeta in Hbx, Hby, Hbz, Ha, Hb, Hc.
  assert (0 < Continuum.NUM_BLOCKS_X d) as Hapos by lia.
  assert (0 < Continuum.NUM_BLOCKS_Y d) as Hbpos by lia.
  assert (0 <= x / 32 < Continuum.NUM_BLOCKS_X d) as Hi by lia_div.
  assert (0 <= y / 32 < Continuum.NUM_BLOCKS_Y d) as Hj by lia_div.
  assert (0 <= z / 32 < Continuum.NUM_BLOCKS_Z d) as Hk by lia_div.
  assert (0 <= Continuum.owner d x y z < Continuum.NUM_BLOCKS d) as Hown.
  { rewrite NUM_BLOCKS_eq. apply compose_bound; assumption. }
  split; [exact Hown|].
  apply in_block_digits; [exact Hown|].
  split; [exact Hdom|].
  destruct (digits_of_compose _ (Continuum.NUM_BLOCKS_Y d) Hapos (x / 32) (y / 32) (z / 32))
    as (H1 & H2 & H3); [lia | lia | lia |].
  unfold Continuum.owner, Continuum.BLOCK_SIZE. rewrite H1, H2, H3. auto.
Qed.

Lemma in_block_owner block x y z :
  0 <= block < Continuum.NUM_BLOCKS d ->
  Continuum.in_block d block x y z = true ->
  block = Continuum.owner d x y z.
Proof.
  intros Hblock Hin.
  destruct (blocks_pos block Hblock) as (Ha & Hb & _).
  apply in_block_digits in Hin as (_ & H1 & H2 & H3); [|exact Hblock].
  unfold Continuum.owner, Continuum.BLOCK_SIZE. rewrite H1, H2, H3.
  apply digits_recompose; assumption.
Qed.

End BlockRanges.

(** ** The block decomposition partitions a domain that fits *)

Section Partition.
Variable d : dims.
Hypothesis Hfits : Continuum.fits d.

Lemma elem_of_cells_domain x y z :
  (x, y, z) ∈ Continuum.cells d <-> Continuum.in_domain d x y z.
Proof.
  split.
  - destruct Hfits as (Hx & Hy & Hz & _). apply cells_in_domain; lia.
  - intros Hdom. apply elem_of_cells.
    exists (Continuum.owner d x y z). apply owner_in_block; assumption.
Qed.

Lemma NoDup_cells : NoDup (Continuum.cells d).
Proof.
  unfold Continuum.cells. apply NoDup_bind; [| |apply NoDup_seqZ].
  - intros b1 b2 [[x y] z] Hb1 Hb2 H1 H2.
    apply elem_of_seqZ in Hb1, Hb2.
    apply elem_of_block_cells in H1, H2.
    rewrite (in_block_owner d Hfits b1 x y z), (in_block_owner d Hfits b2 x y z);
      [reflexivity | lia | assumption | lia | assumption].
  - intros block _. apply NoDup_block_cells.
Qed.

End Partition.

(** ** [InitContinuum] on an allocated field *)

(** A number in base [n] determines its last digit and the rest. *)
Lemma mixed_radix_inj n q r q' r' :
  0 <= r < n -> 0 <= r' < n -> q * n + r = q' * n + r' -> r = r' /\ q = q'.
Proof.
  intros Hr Hr' Heq.
  assert (q = q') as ->.
  { rewrite (Z.div_unique_pos (q * n + r) n q r) by lia.
    rewrite Heq. symmetry. apply (Z.div_unique_pos _ n q' r'); lia. }
  split; [lia | reflexivity].
Qed.

(** Distinct cell slots of the domain lie at distinct offsets, all of them
    inside of the buffer. *)
Lemma Continuum_SpatialToLinear_range d x y z m :
  Continuum.in_domain d x y z -> 0 <= m < 4 ->
  0 <= Continuum.SpatialToLinear d x y z m < Continuum.length_ d.
Proof.
  unfold Continuum.in_domain, Continuum.SpatialToLinear, Continuum.length_, Continuum.NM_.
  intros (Hx & Hy & Hz) Hm.
  assert (0 <= z * NY d) by (apply Z.mul_nonneg_nonneg; lia).
  assert (z * NY d <= (NZ d - 1) * NY d) by (apply Z.mul_le_mono_nonneg_r; lia).
  assert (0 <= (z * NY d + y) * NX d) by (apply Z.mul_nonneg_nonneg; lia).
  assert ((z * NY d + y) * NX d <= (NZ d * NY d - 1) * NX d)
    by (apply Z.mul_le_mono_nonneg_r; lia).
  lia.
Qed.

Lemma Continuum_SpatialToLinear_inj d x y z m x' y' z' m' :
  Continuum.in_domain d x y z -> Continuum.in_domain d x' y' z' ->
  0 <= m < 4 -> 0 <= m' < 4 ->
  Continuum.SpatialToLinear d x y z m = Continuum.SpatialToLinear d x' y' z' m' ->
  (x, y, z) = (x', y', z') /\ m = m'.
Proof.
  unfold Continuum.in_domain, Continuum.SpatialToLinear, Continuum.NM_.
  intros (Hx & Hy & Hz) (Hx' & Hy' & Hz') Hm Hm' Heq.
  assert (m = m' /\ (z * NY d + y) * NX d + x = (z' * NY d + y') * NX d + x')
    as (-> & Hc) by lia.
  assert (x = x' /\ z * NY d + y = z' * NY d + y') as (-> & Hr).
  { apply (mixed_radix_inj (NX d)); lia. }
  assert (y = y' /\ z = z') as (-> & ->).
  { apply (mixed_radix_inj (NY d)); lia. }
  split; reflexivity.
Qed.

Section InitContinuumFacts.
Context {T : Type}.
Variable d : dims.
Variables RHO_0 U_0 V_0 W_0 : T.

Lemma set_allocated (con : @Continuum.t T) x y z m v :
  Continuum.allocated d con -> Continuum.in_domain d x y z -> 0 <= m < 4 ->
  exists con',
    Continuum.set d con x y z m v = Some con' /\
    Continuum.allocated d con' /\
    Continuum.get d con' x y z m = Some v /\
    (forall x' y' z' m',
       Continuum.in_domain d x' y' z' -> 0 <= m' < 4 ->
       (x', y', z', m') <> (x, y, z, m) ->
       Continuum.get d con' x' y' z' m' = Continuum.get d con x' y' z' m').
Proof.
  intros (buf & Hbuf & Hlen) Hdom Hm.
  pose proof (Continuum_SpatialToLinear_range d x y z m Hdom Hm) as Hrange.
  unfold Continuum.set, Continuum.get. rewrite Hbuf.
  rewrite wr_Some by lia.
  eexists. split; [reflexivity|]. cbn [Continuum.M_].
  split; [|split].
  - eexists. split; [reflexivity|]. rewrite length_insert. exact Hlen.
  - apply (rd_wr_eq buf). apply wr_Some. lia.
  - intros x' y' z' m' Hdom' Hm' Hne.
    apply (rd_wr_ne buf (Continuum.SpatialToLinear d x y z m) _ v); [apply wr_Some; lia|].
    intros Heq.
    apply Continuum_SpatialToLinear_inj in Heq as (Hc & ->); try assumption.
    apply Hne. congruence.
Qed.

(** The four assignments initialise their cell and leave every other cell
    of the domain as it was. *)
Lemma init_cell_allocated (con : @Continuum.t T) x y z :
  Continuum.allocated d con -> Continuum.in_domain d x y z ->
  exists con',
    Continuum.init_cell d RHO_0 U_0 V_0 W_0 x y z con = Some con' /\
    Continuum.allocated d con' /\
    Continuum.initialised d con' RHO_0 U_0 V_0 W_0 x y z /\
    (forall x' y' z' m',
       Continuum.in_domain d x' y' z' -> 0 <= m' < 4 ->
       (x', y', z') <> (x, y, z) ->
       Continuum.get d con' x' y' z' m' = Continuum.get d con x' y' z' m').
Proof.
  intros Hal Hdom. unfold Continuum.init_cell.
  destruct (set_allocated con x y z 0 RHO_0 Hal Hdom) as (c1 & -> & Hal1 & Hg1 & Hf1); [lia|].
  destruct (set_allocated c1 x y z 1 U_0 Hal1 Hdom) as (c2 & -> & Hal2 & Hg2 & Hf2); [lia|].
  destruct (set_allocated c2 x y z 2 V_0 Hal2 Hdom) as (c3 & -> & Hal3 & Hg3 & Hf3); [lia|].
  destruct (set_allocated c3 x y z 3 W_0 Hal3 Hdom) as (c4 & -> & Hal4 & Hg4 & Hf4); [lia|].
  exists c4. split; [reflexivity|]. split; [exact Hal4|]. split.
  - unfold Continuum.initialised. split; [|split; [|split]].
    + rewrite Hf4, Hf3, Hf2 by (try assumption; try lia; congruence). exact Hg1.
    + rewrite Hf4, Hf3 by (try assumption; try lia; congruence). exact Hg2.
    + rewrite Hf4 by (try assumption; try lia; congruence). exact Hg3.
    + exact Hg4.
  - intros x' y' z' m' Hdom' Hm' Hne.
    rewrite Hf4, Hf3, Hf2, Hf1 by (try assumption; congruence). reflexivity.
Qed.

(** Running the assignments over a list of cells of the domain: it ends,
    the cells of the list are initialised, and the other cells keep their
    values. *)
Lemma run_init_cells (l : list (Z * Z * Z)) (con : @Continuum.t T) :
  Continuum.allocated d con ->
  (forall x y z, (x, y, z) ∈ l -> Continuum.in_domain d x y z) ->
  exists con',
    run_list (fun c : Z * Z * Z => Continuum.init_cell d RHO_0 U_0 V_0 W_0 c.1.1 c.1.2 c.2)
      l con = Some con' /\
    Continuum.allocated d con' /\
    (forall x y z, Continuum.in_domain d x y z ->
       Continuum.initialised d con RHO_0 U_0 V_0 W_0 x y z \/ (x, y, z) ∈ l ->
       Continuum.initialised d con' RHO_0 U_0 V_0 W_0 x y z) /\
    (forall x y z m, Continuum.in_domain d x y z -> 0 <= m < 4 ->
       (x, y, z) ∉ l ->
       Continuum.get d con' x y z m = Continuum.get d con x y z m).
Proof.
  revert con. induction l as [|[[x0 y0] z0] l IH]; intros con Hal Hl.
  - exists con. split; [reflexivity|]. split; [exact Hal|]. split.
    + intros x y z _ [H | H]; [exact H | inversion H].
    + reflexivity.
  - assert (Continuum.in_domain d x0 y0 z0) as Hdom0 by (apply Hl, list_elem_of_here).
    destruct (init_cell_allocated con x0 y0 z0 Hal Hdom0) as (c1 & Hc1 & Hal1 & Hi1 & Hf1).
    destruct (IH c1 Hal1) as (c2 & Hc2 & Hal2 & Hi2 & Hf2).
    { intros x y z H. apply Hl, list_elem_of_further, H. }
    exists c2. cbn [run_list fst snd]. rewrite Hc1.
    split; [exact Hc2|]. split; [exact Hal2|]. split.
    + intros x y z Hdom H. apply Hi2; [exact Hdom|].
      destruct (decide ((x, y, z) = (x0, y0, z0))) as [Heq | Hne].
      * left. injection Heq as -> -> ->. exact Hi1.
      * destruct H as [H | H].
        -- left. destruct H as (H0 & H1 & H2 & H3). unfold Continuum.initialised.
           rewrite !Hf1 by (try assumption; lia). auto.
        -- right. apply elem_of_cons in H as [H | H]; [contradiction | exact H].
    + intros x y z m Hdom Hm Hnotin.
      apply not_elem_of_cons in Hnotin as (Hne & Hnotin).
      rewrite Hf2, Hf1 by assumption. reflexivity.
Qed.

End InitContinuumFacts.

Section InitContinuumTotal.
Context {T : Type}.
Variable d : dims.
Variables RHO_0 U_0 V_0 W_0 : T.

Lemma InitContinuum_cells (con : @Continuum.t T) :
  Continuum.InitContinuum d con RHO_0 U_0 V_0 W_0 =
  run_list (fun c : Z * Z * Z => Continuum.init_cell d RHO_0 U_0 V_0 W_0 c.1.1 c.1.2 c.2)
    (Continuum.cells d) con.
Proof. apply blocked_loop_cells. Qed.

(** On an allocated field [InitContinuum] is defined, whatever the
    resolution; it initialises the visited cells and leaves the other cells
    of the domain as they were. *)
Lemma InitContinuum_frame (con : @Continuum.t T) :
  0 <= NX d -> 0 <= NY d -> 0 <= NZ d ->
  Continuum.allocated d con ->
  exists con',
    Continuum.InitContinuum d con RHO_0 U_0 V_0 W_0 = Some con' /\
    (forall x y z, (x, y, z) ∈ Continuum.cells d ->
       Continuum.initialised d con' RHO_0 U_0 V_0 W_0 x y z) /\
    (forall x y z m, Continuum.in_domain d x y z -> 0 <= m < 4 ->
       (x, y, z) ∉ Continuum.cells d ->
       Continuum.get d con' x y z m = Continuum.get d con x y z m).
Proof.
  intros Hx Hy Hz Hal.
  destruct (run_init_cells d RHO_0 U_0 V_0 W_0 (Continuum.cells d) con Hal)
    as (con' & Hrun & _ & Hinit & Hframe).
  { intros x y z. apply cells_in_domain; assumption. }
  exists con'. rewrite InitContinuum_cells. split; [exact Hrun|]. split.
  - intros x y z Hc. apply Hinit; [|right; exact Hc].
    apply cells_in_domain in Hc; assumption.
  - exact Hframe.
Qed.

End InitContinuumTotal.

(** A freshly allocated buffer, every element of which holds [v]. *)
Lemma get_replicate {T : Type} d (v : T) x y z m :
  Continuum.in_domain d x y z -> 0 <= m < 4 ->
  Continuum.get d {| Continuum.M_ := Some (replicate (Z.to_nat (Continuum.length_ d)) v) |}
    x y z m = Some v.
Proof.
  intros Hdom Hm.
  pose proof (Continuum_SpatialToLinear_range d x y z m Hdom Hm) as Hr.
  unfold Continuum.get, rd. cbn [Continuum.M_].
  destruct (Z.ltb_spec (Continuum.SpatialToLinear d x y z m) 0); [lia|].
  apply lookup_replicate_2. lia.
Qed.

Lemma allocated_replicate {T : Type} d (v : T) :
  0 <= Continuum.length_ d ->
  Continuum.allocated d
    {| Continuum.M_ := Some (replicate (Z.to_nat (Continuum.length_ d)) v) |}.
Proof.
  intros H. eexists. split; [reflexivity|].
  rewrite length_replicate. apply Z2Nat.id, H.
Qed.

(** ** A wide domain: the last block is empty *)

Lemma wide_NUM_BLOCKS : Continuum.NUM_BLOCKS wide = 134217728.
Proof. reflexivity. Qed.

(** In the last block [x_start + BLOCK_SIZE] is [2^32], which wraps to [0]. *)
Lemma wide_last_block :
  Continuum.x_start wide 134217727 = 4294967264 /\
  Continuum.x_end wide 134217727 = 0.
Proof. split; reflexivity. Qed.

Lemma wide_unowned block :
  0 <= block < Continuum.NUM_BLOCKS wide ->
  Continuum.in_block wide block 4294967291 0 0 = false.
Proof.
  rewrite wide_NUM_BLOCKS. intros Hblock.
  apply not_true_is_false. rewrite in_block_spec.
  unfold Continuum.x_end, Continuum.x_start.
  change (Continuum.NUM_BLOCKS_X wide) with 134217728.
  change (NX wide) with 4294967292.
  unfold Continuum.BLOCK_SIZE, wrap32.
  intros (Hx & _). lia_div.
Qed.

Lemma wide_last_cell_in_domain : Continuum.in_domain wide 4294967291 0 0.
Proof. unfold Continuum.in_domain, wide; cbn [NX NY NZ]. lia. Qed.

Lemma wide_last_cell_not_visited : (4294967291, 0, 0) ∉ Continuum.cells wide.
Proof.
  intros H. apply elem_of_cells in H as (block & Hblock & Hin).
  rewrite wide_unowned in Hin by exact Hblock. discriminate.
Qed.

(** ** The claims on [InitContinuum] and its blocks *)

(** C3, as amended: on an allocated ContinuumField whose resolution fits
    (no extent above [2^32 - 32], no more than [2^32 - 1] blocks),
    [InitContinuum(con, RHO_0, U_0, V_0, W_0)] is defined and afterwards
    every cell [(x,y,z)] with [x < NX], [y < NY], [z < NZ] reads exactly
    [(RHO_0, U_0, V_0, W_0)] in its four slots. *)
Theorem InitContinuum_uniform {T : Type} (d : dims) (con : @Continuum.t T)
    (RHO_0 U_0 V_0 W_0 : T) :
  Continuum.fits d -> Continuum.allocated d con ->
  exists con',
    Continuum.InitContinuum d con RHO_0 U_0 V_0 W_0 = Some con' /\
    forall x y z, Continuum.in_domain d x y z ->
      Continuum.initialised d con' RHO_0 U_0 V_0 W_0 x y z.
Proof.
  intros Hfits Hal. pose proof Hfits as (Hx & Hy & Hz & _).
  destruct (InitContinuum_frame d RHO_0 U_0 V_0 W_0 con) as (con' & Hrun & Hinit & _);
    [lia | lia | lia | exact Hal |].
  exists con'. split; [exact Hrun|].
  intros x y z Hdom. apply Hinit. apply elem_of_cells_domain; assumption.
Qed.

Lemma cube16_fits : Continuum.fits cube16.
Proof.
  unfold Continuum.fits, ceil_div, Continuum.BLOCK_SIZE, UINT_MAX, cube16.
  cbn [NX NY NZ]. repeat split; try lia. vm_compute. discriminate.
Qed.

(** The concrete scenario: a 16x16x16 domain initialised with
    [RHO_0 = 1, U_0 = 0.05, V_0 = 0, W_0 = 0] reads [(1, 0.05, 0, 0)] at
    every cell after 0 steps. *)
Lemma InitContinuum_uniform_cube16 :
  Continuum.fits cube16 /\
  Continuum.allocated cube16 (fresh cube16 PrimFloat.nan) /\
  exists con',
    Continuum.InitContinuum cube16 (fresh cube16 PrimFloat.nan) 1%float 0.05%float 0%float 0%float
      = Some con' /\
    forall x y z, Continuum.in_domain cube16 x y z ->
      Continuum.initialised cube16 con' 1%float 0.05%float 0%float 0%float x y z.
Proof.
  split; [exact cube16_fits|].
  split; [apply allocated_replicate; vm_compute; discriminate|].
  apply InitContinuum_uniform;
    [exact cube16_fits | apply allocated_replicate; vm_compute; discriminate].
Defined.

(** C3 as stated fails on a wide domain: [InitContinuum] runs to its end
    and leaves the last cell as it found it. *)
Lemma InitContinuum_misses_wide :
  Continuum.allocated wide (fresh wide 0%float) /\
  Continuum.in_domain wide 4294967291 0 0 /\
  exists con',
    Continuum.InitContinuum wide (fresh wide 0%float) 1%float 0.05%float 0%float 0%float
      = Some con' /\
    Continuum.get wide con' 4294967291 0 0 0 = Some 0%float /\
    ~ Continuum.initialised wide con' 1%float 0.05%float 0%float 0%float 4294967291 0 0.
Proof.
  assert (Continuum.allocated wide (fresh wide 0%float)) as Hal.
  { apply allocated_replicate. vm_compute. discriminate. }
  split; [exact Hal|]. split; [exact wide_last_cell_in_domain|].
  destruct (InitContinuum_frame wide 1%float 0.05%float 0%float 0%float
              (fresh wide 0%float)) as (con' & Hrun & _ & Hframe);
    [vm_compute; discriminate | vm_compute; discriminate | vm_compute; discriminate
    | exact Hal |].
  exists con'. split; [exact Hrun|].
  assert (Continuum.get wide con' 4294967291 0 0 0 = Some 0%float) as Hget.
  { rewrite Hframe;
      [| exact wide_last_cell_in_domain | lia | exact wide_last_cell_not_visited].
    apply get_replicate; [exact wide_last_cell_in_domain | lia]. }
  split; [exact Hget|].
  intros (H0 & _). rewrite Hget in H0.
  apply (f_equal (fun o => match o with Some v => PrimFloat.eqb 1 v | None => false end))
    in H0.
  vm_compute in H0. discriminate.
Qed.

(** C9, as amended: for a resolution that fits (no extent above
    [2^32 - 32], no more than [2^32 - 1] blocks) the 32-cell blocks
    partition the domain.  Every cell of the domain lies in the ranges of
    exactly one block index in [[0, NUM_BLOCKS)], its [owner]; a block owns
    cells of the domain only; and the loop nest of [InitContinuum] visits
    each cell of the domain exactly once, running the four assignments at
    each visit. *)
Theorem block_partition (d : dims) :
  Continuum.fits d ->
  (forall x y z, Continuum.in_domain d x y z ->
     0 <= Continuum.owner d x y z < Continuum.NUM_BLOCKS d /\
     Continuum.in_block d (Continuum.owner d x y z) x y z = true /\
     forall block, 0 <= block < Continuum.NUM_BLOCKS d ->
       Continuum.in_block d block x y z = true -> block = Continuum.owner d x y z) /\
  (forall block x y z, 0 <= block < Continuum.NUM_BLOCKS d ->
     Continuum.in_block d block x y z = true -> Continuum.in_domain d x y z) /\
  Continuum.visited d = Some (Continuum.cells d) /\
  NoDup (Continuum.cells d) /\
  (forall x y z, (x, y, z) ∈ Continuum.cells d <-> Continuum.in_domain d x y z) /\
  (forall (T : Type) (con : @Continuum.t T) (RHO_0 U_0 V_0 W_0 : T),
     Continuum.InitContinuum d con RHO_0 U_0 V_0 W_0 =
     run_list (fun c : Z * Z * Z => Continuum.init_cell d RHO_0 U_0 V_0 W_0 c.1.1 c.1.2 c.2)
       (Continuum.cells d) con).
Proof.
  intros Hfits. split; [|split; [|split; [|split; [|split]]]].
  - intros x y z Hdom.
    destruct (owner_in_block d Hfits x y z Hdom) as (Hrange & Hin).
    split; [exact Hrange|]. split; [exact Hin|].
    intros block Hblock Hb. apply (in_block_owner d Hfits); assumption.
  - intros block x y z Hblock Hin.
    apply (in_block_digits d Hfits) in Hin as (Hdom & _); assumption.
  - apply visited_cells.
  - apply NoDup_cells, Hfits.
  - intros x y z. apply elem_of_cells_domain, Hfits.
  - intros T con RHO_0 U_0 V_0 W_0. apply InitContinuum_cells.
Qed.

Lemma domain_fits : Continuum.fits Main.domain.
Proof.
  unfold Continuum.fits, ceil_div, Continuum.BLOCK_SIZE, UINT_MAX, Main.domain.
  cbn [NX NY NZ]. repeat split; try lia. vm_compute. discriminate.
Qed.

(** The blocks of the domain of [main]. *)
Lemma block_partition_main :
  Continuum.fits Main.domain /\
  (forall x y z, Continuum.in_domain Main.domain x y z ->
     0 <= Continuum.owner Main.domain x y z < Continuum.NUM_BLOCKS Main.domain /\
     Continuum.in_block Main.domain (Continuum.owner Main.domain x y z) x y z = true /\
     forall block, 0 <= block < Continuum.NUM_BLOCKS Main.domain ->
       Continuum.in_block Main.domain block x y z = true ->
       block = Continuum.owner Main.domain x y z) /\
  NoDup (Continuum.cells Main.domain).
Proof.
  split; [exact domain_fits|].
  pose proof (block_partition Main.domain domain_fits) as (H1 & _ & _ & H4 & _).
  split; [exact H1 | exact H4].
Defined.

(** C9 as stated fails on a wide domain: the last cell of the domain
    lies in the ranges of no block. *)
Lemma block_partition_fails_wide :
  Continuum.in_domain wide 4294967291 0 0 /\
  forall block, 0 <= block < Continuum.NUM_BLOCKS wide ->
    Continuum.in_block wide block 4294967291 0 0 = false.
Proof. split; [exact wide_last_cell_in_domain | exact wide_unowned]. Qed.

(** ** [Population::Load] *)

Section LoadFacts.
Context {T : Type} {FT : Floating T}.
Variable LT : lattice T.
Variable AA_IndexRead : bool -> Z * Z * Z -> Z * Z * Z -> Z * Z * Z -> Z -> Z -> Z -> Z.
Variable pop : @Population.t T.
Variable odd : bool.
Variables x y z : Z * Z * Z.
Variable p : Z.

Local Abbreviation loaded := (Population.loaded LT AA_IndexRead pop odd x y z p).

Hypothesis HOFF : 0 < OFF LT.
Hypothesis HND : ND LT = 2 * OFF LT.
Hypothesis Huint : ND LT <= UINT_MAX.

Lemma half_direction n dd :
  0 <= dd < OFF LT ->
  (n * OFF LT + dd) / OFF LT = n /\ (n * OFF LT + dd) mod OFF LT = dd.
Proof.
  intros Hdd. split; symmetry.
  - apply (Z.div_unique_pos _ _ n dd); lia.
  - apply (Z.mod_unique_pos _ _ n dd); lia.
Qed.

(** One assignment of the inner loop extends the loaded prefix by one. *)
Lemma load_one_prefix n dd (f : list T) :
  0 <= n < 2 -> 0 <= dd < OFF LT ->
  Z.of_nat (length f) = ND LT ->
  is_Some (loaded (n * OFF LT + dd)) ->
  (forall i, 0 <= i < n * OFF LT + dd -> rd f i = loaded i) ->
  exists f',
    Population.load_one LT AA_IndexRead pop odd x y z p n dd f = Some f' /\
    Z.of_nat (length f') = ND LT /\
    (forall i, 0 <= i < n * OFF LT + (dd + 1) -> rd f' i = loaded i).
Proof.
  intros Hn Hdd Hlen [v Hv] Hpre.
  destruct (half_direction n dd Hdd) as (Hq & Hr).
  unfold Population.loaded in Hv. rewrite Hq, Hr in Hv.
  unfold Population.load_one. rewrite Hv.
  assert (0 <= n * OFF LT <= OFF LT) as Hn' by nia.
  rewrite (wrap32_small (n * OFF LT)) by lia.
  rewrite (wrap32_small (n * OFF LT + dd)) by lia.
  rewrite wr_Some by lia.
  eexists. split; [reflexivity|]. split; [rewrite length_insert; exact Hlen|].
  intros i Hi.
  assert (wr f (n * OFF LT + dd) v = Some (<[Z.to_nat (n * OFF LT + dd) := v]> f)) as Hwr
    by (apply wr_Some; lia).
  destruct (Z.eq_dec i (n * OFF LT + dd)) as [-> | Hne].
  - rewrite (rd_wr_eq _ _ _ _ Hwr). unfold Population.loaded. rewrite Hq, Hr. symmetry. exact Hv.
  - rewrite (rd_wr_ne _ _ i _ _ Hwr) by lia. apply Hpre. lia.
Qed.

(** The two loops load the whole array. *)
Lemma load_loops (f : list T) :
  Z.of_nat (length f) = ND LT ->
  (forall i, 0 <= i < ND LT -> is_Some (loaded i)) ->
  exists f1,
    for_lt 0 (1 + 1) (fun n =>
      for_lt 0 (OFF LT) (fun dd =>
        Population.load_one LT AA_IndexRead pop odd x y z p n dd)) f = Some f1 /\
    Z.of_nat (length f1) = ND LT /\
    (forall i, 0 <= i < ND LT -> rd f1 i = loaded i).
Proof.
  intros Hlen Hdef.
  destruct (for_lt_invariant
    (fun n f0 => Z.of_nat (length f0) = ND LT /\
                 forall i, 0 <= i < n * OFF LT -> rd f0 i = loaded i)
    (fun n => for_lt 0 (OFF LT) (fun dd =>
       Population.load_one LT AA_IndexRead pop odd x y z p n dd))
    0 (1 + 1) f) as (f1 & Hrun & Hlen1 & Hall).
  - lia.
  - split; [exact Hlen | intros i Hi; lia].
  - intros n f0 Hn (Hlen0 & Hpre0).
    destruct (for_lt_invariant
      (fun dd f2 => Z.of_nat (length f2) = ND LT /\
                    forall i, 0 <= i < n * OFF LT + dd -> rd f2 i = loaded i)
      (fun dd => Population.load_one LT AA_IndexRead pop odd x y z p n dd)
      0 (OFF LT) f0) as (f2 & Hrun2 & Hlen2 & Hall2).
    + lia.
    + split; [exact Hlen0 | intros i Hi; apply Hpre0; lia].
    + intros dd f2 Hdd (Hlen2 & Hpre2).
      destruct (load_one_prefix n dd f2) as (f3 & H3 & Hlen3 & Hpre3);
        [lia | lia | exact Hlen2 | apply Hdef; nia | exact Hpre2 |].
      exists f3. split; [exact H3|]. split; [exact Hlen3 | exact Hpre3].
    + exists f2. split; [exact Hrun2|]. split; [exact Hlen2|].
      intros i Hi. apply Hall2. lia.
  - exists f1. split; [exact Hrun|]. split; [exact Hlen1|].
    intros i Hi. apply Hall. lia.
Qed.

End LoadFacts.

(** Two arrays of the same length with the same elements are equal. *)
Lemma rd_ext {T : Type} (l1 l2 : list T) (n : Z) :
  Z.of_nat (length l1) = n -> Z.of_nat (length l2) = n ->
  (forall i, 0 <= i < n -> rd l1 i = rd l2 i) ->
  l1 = l2.
Proof.
  intros H1 H2 Hrd. apply list_eq. intros i.
  destruct (decide (Z.of_nat i < n)) as [Hlt | Hge].
  - specialize (Hrd (Z.of_nat i)). unfold rd in Hrd.
    destruct (Z.ltb_spec (Z.of_nat i) 0); [lia|].
    rewrite Nat2Z.id in Hrd. apply Hrd. lia.
  - rewrite (lookup_ge_None_2 l1), (lookup_ge_None_2 l2) by lia. reflexivity.
Qed.

(** C10: for every parity, every population index and every buffer state
    for which the reads are defined, [Load] returns the local array whose
    element [i] is the value read through [AA_IndexRead] for half [i / OFF]
    and direction [i mod OFF], except for element [OFF], which is exactly
    [0.0]; so the result does not depend on the previous content of the
    array nor on the buffer element read for half 1, direction 0. *)
Theorem Load_zeroes_OFF {T : Type} {FT : Floating T} (LT : lattice T)
    (AA_IndexRead : bool -> Z * Z * Z -> Z * Z * Z -> Z * Z * Z -> Z -> Z -> Z -> Z)
    (pop : @Population.t T) (odd : bool) (x y z : Z * Z * Z) (p : Z) (f : list T) :
  0 < OFF LT -> ND LT = 2 * OFF LT -> ND LT <= UINT_MAX ->
  Z.of_nat (length f) = ND LT ->
  (forall i, 0 <= i < ND LT ->
     is_Some (Population.loaded LT AA_IndexRead pop odd x y z p i)) ->
  exists f',
    Population.Load LT AA_IndexRead pop odd x y z f p = Some f' /\
    Z.of_nat (length f') = ND LT /\
    rd f' (OFF LT) = Some f_zero /\
    (forall i, 0 <= i < ND LT -> i <> OFF LT ->
       rd f' i = Population.loaded LT AA_IndexRead pop odd x y z p i) /\
    (forall (pop2 : @Population.t T) (f2 : list T),
       Z.of_nat (length f2) = ND LT ->
       (forall i, 0 <= i < ND LT ->
          is_Some (Population.loaded LT AA_IndexRead pop2 odd x y z p i)) ->
       (forall i, 0 <= i < ND LT -> i <> OFF LT ->
          Population.loaded LT AA_IndexRead pop2 odd x y z p i =
          Population.loaded LT AA_IndexRead pop odd x y z p i) ->
       Population.Load LT AA_IndexRead pop2 odd x y z f2 p = Some f').
Proof.
  intros HOFF HND Huint Hlen Hdef.
  assert (forall (q : @Population.t T) (g : list T),
    Z.of_nat (length g) = ND LT ->
    (forall i, 0 <= i < ND LT ->
       is_Some (Population.loaded LT AA_IndexRead q odd x y z p i)) ->
    exists g',
      Population.Load LT AA_IndexRead q odd x y z g p = Some g' /\
      Z.of_nat (length g') = ND LT /\
      rd g' (OFF LT) = Some f_zero /\
      (forall i, 0 <= i < ND LT -> i <> OFF LT ->
         rd g' i = Population.loaded LT AA_IndexRead q odd x y z p i)) as Hload.
  { intros q g Hg Hq.
    destruct (load_loops LT AA_IndexRead q odd x y z p HOFF HND Huint g Hg Hq)
      as (g1 & Hrun & Hlen1 & Hall).
    unfold Population.Load. rewrite Hrun.
    assert (wr g1 (OFF LT) f_zero = Some (<[Z.to_nat (OFF LT) := f_zero]> g1)) as Hwr
      by (apply wr_Some; lia).
    rewrite Hwr. eexists. split; [reflexivity|].
    split; [rewrite length_insert; exact Hlen1|].
    split; [exact (rd_wr_eq _ _ _ _ Hwr)|].
    intros i Hi Hne. rewrite (rd_wr_ne _ _ i _ _ Hwr) by lia. apply Hall, Hi. }
  destruct (Hload pop f Hlen Hdef) as (f' & Hrun & Hlen' & Hzero & Hrest).
  exists f'. split; [exact Hrun|]. split; [exact Hlen'|].
  split; [exact Hzero|]. split; [exact Hrest|].
  intros pop2 f2 Hlen2 Hdef2 Hsame.
  destruct (Hload pop2 f2 Hlen2 Hdef2) as (f2' & Hrun2 & Hlen2' & Hzero2 & Hrest2).
  rewrite Hrun2. f_equal. apply (rd_ext _ _ (ND LT) Hlen2' Hlen').
  intros i Hi. destruct (Z.eq_dec i (OFF LT)) as [-> | Hne].
  - rewrite Hzero, Hzero2. reflexivity.
  - rewrite Hrest, Hrest2 by assumption. apply Hsame; assumption.
Qed.

(** ** Indexing of the population field *)

Section PopulationIndexing.
Context {T : Type}.
Variable d : dims.
Variable LT : lattice T.
Variable NPOP : Z.

Hypothesis HND : ND LT = 2 * OFF LT.

(** The offset in terms of the cell number and the offset inside of the
    cell. *)
Lemma Population_SpatialToLinear_split x y z n dd p :
  Population.SpatialToLinear d LT NPOP x y z n dd p =
  (ND LT * NPOP) * ((NX d * NY d) * z + NX d * y + x) + (p * ND LT + (n * OFF LT + dd)).
Proof. unfold Population.SpatialToLinear. ring. Qed.

Lemma Population_valid_bounds x y z n dd p :
  Population.valid d LT NPOP x y z n dd p ->
  0 <= n * OFF LT + dd < ND LT /\
  0 <= p * ND LT + (n * OFF LT + dd) < ND LT * NPOP /\
  0 <= (NX d * NY d) * z + NX d * y + x < NX d * NY d * NZ d.
Proof.
  intros (Hx & Hy & Hz & Hn & Hdd & Hp).
  assert (0 <= n * OFF LT + dd < ND LT) as Hr by nia.
  split; [exact Hr|]. split.
  - assert (0 <= p * ND LT) by (apply Z.mul_nonneg_nonneg; lia).
    assert (p * ND LT <= (NPOP - 1) * ND LT) by (apply Z.mul_le_mono_nonneg_r; lia).
    lia.
  - apply compose_bound; lia.
Qed.

Lemma Population_SpatialToLinear_range x y z n dd p :
  Population.valid d LT NPOP x y z n dd p ->
  0 <= Population.SpatialToLinear d LT NPOP x y z n dd p < Population.length_ d LT NPOP.
Proof.
  intros Hv. pose proof Hv as (Hx & Hy & Hz & Hn & Hdd & Hp).
  destruct (Population_valid_bounds x y z n dd p Hv) as (Hr & Hrest & Hcell).
  rewrite Population_SpatialToLinear_split. unfold Population.length_.
  assert (0 <= ND LT * NPOP * (NX d * NY d * z + NX d * y + x)
          <= ND LT * NPOP * (NX d * NY d * NZ d - 1)) by nia.
  replace (NZ d * NY d * NX d * NPOP * ND LT)
    with (ND LT * NPOP * (NX d * NY d * NZ d - 1) + ND LT * NPOP) by ring.
  lia.
Qed.

Lemma LinearToSpatial_SpatialToLinear x y z n dd p :
  Population.valid d LT NPOP x y z n dd p ->
  Population.LinearToSpatial d LT NPOP (Population.SpatialToLinear d LT NPOP x y z n dd p)
  = (x, y, z, p, n, dd).
Proof.
  intros Hv. pose proof Hv as (Hx & Hy & Hz & Hn & Hdd & Hp).
  destruct (Population_valid_bounds x y z n dd p Hv) as (Hr & Hrest & Hcell).
  rewrite Population_SpatialToLinear_split. unfold Population.LinearToSpatial.
  set (cell := NX d * NY d * z + NX d * y + x) in *.
  set (rest := p * ND LT + (n * OFF LT + dd)) in *.
  assert ((ND LT * NPOP * cell + rest) / (ND LT * NPOP) = cell) as ->
    by (symmetry; apply (Z.div_unique_pos _ _ _ rest); lia).
  assert ((ND LT * NPOP * cell + rest) mod (ND LT * NPOP) = rest) as ->
    by (symmetry; apply (Z.mod_unique_pos _ _ cell); lia).
  assert (rest / ND LT = p) as ->
    by (symmetry; apply (Z.div_unique_pos _ _ _ (n * OFF LT + dd)); unfold rest; lia).
  assert (rest mod ND LT = n * OFF LT + dd) as ->
    by (symmetry; apply (Z.mod_unique_pos _ _ p); unfold rest; lia).
  assert ((n * OFF LT + dd) / OFF LT = n) as ->
    by (symmetry; apply (Z.div_unique_pos _ _ _ dd); lia).
  assert ((n * OFF LT + dd) mod OFF LT = dd) as ->
    by (symmetry; apply (Z.mod_unique_pos _ _ n); lia).
  unfold cell.
  destruct (digits_of_compose (NX d) (NY d) ltac:(lia) x y z) as (-> & -> & ->);
    [lia | lia | lia |].
  reflexivity.
Qed.

Lemma SpatialToLinear_LinearToSpatial index :
  0 <= NX d -> 0 <= NY d -> 0 <= NZ d -> 0 <= NPOP -> 0 <= OFF LT ->
  0 <= index < Population.length_ d LT NPOP ->
  exists x y z p n dd,
    Population.LinearToSpatial d LT NPOP index = (x, y, z, p, n, dd) /\
    Population.valid d LT NPOP x y z n dd p /\
    Population.SpatialToLinear d LT NPOP x y z n dd p = index.
Proof.
  intros Hx Hy Hz Hp Ho Hi. unfold Population.length_ in Hi.
  assert (0 < NZ d * NY d * NX d * NPOP * (2 * OFF LT)) as Hpos by (rewrite <- HND; lia).
  assert (NX d <> 0) by (intros E; rewrite E in Hpos; ring_simplify in Hpos; lia).
  assert (NY d <> 0) by (intros E; rewrite E in Hpos; ring_simplify in Hpos; lia).
  assert (NZ d <> 0) by (intros E; rewrite E in Hpos; ring_simplify in Hpos; lia).
  assert (NPOP <> 0) by (intros E; rewrite E in Hpos; ring_simplify in Hpos; lia).
  assert (OFF LT <> 0) by (intros E; rewrite E in Hpos; ring_simplify in Hpos; lia).
  assert (0 < NX d /\ 0 < NY d /\ 0 < NZ d /\ 0 < NPOP /\ 0 < OFF LT)
    as (Hx' & Hy' & Hz' & Hp' & Ho') by lia.
  clear Hpos.
  assert (0 < ND LT * NPOP) as Hnp by nia.
  assert (0 < NX d * NY d) as Hxy by nia.
  set (cell := index / (ND LT * NPOP)).
  set (rest := index mod (ND LT * NPOP)).
  assert (index = ND LT * NPOP * cell + rest) as Hsplit by (apply Z.div_mod; lia).
  assert (0 <= rest < ND LT * NPOP) as Hrest by (apply Z.mod_pos_bound; lia).
  assert (0 <= cell < NX d * NY d * NZ d) as Hcell.
  { split; [apply Z.div_pos; lia|]. apply Z.div_lt_upper_bound; [lia|].
    replace (ND LT * NPOP * (NX d * NY d * NZ d)) with (NZ d * NY d * NX d * NPOP * ND LT)
      by ring. lia. }
  destruct (digits_bound (NX d) (NY d) (NZ d) Hx' Hy' cell Hcell) as (Hdx & Hdy & Hdz).
  pose proof (digits_recompose (NX d) (NY d) Hx' Hy' cell) as Hcelleq.
  assert (0 <= rest / ND LT < NPOP) as Hdp.
  { split; [apply Z.div_pos; lia|]. apply Z.div_lt_upper_bound; lia. }
  assert (0 <= rest mod ND LT < ND LT) as Hdr by (apply Z.mod_pos_bound; lia).
  assert (0 <= (rest mod ND LT) / OFF LT < 2) as Hdn.
  { split; [apply Z.div_pos; lia|]. apply Z.div_lt_upper_bound; lia. }
  assert (0 <= (rest mod ND LT) mod OFF LT < OFF LT) as Hdd by (apply Z.mod_pos_bound; lia).
  exists (cell mod NX d), ((cell mod (NX d * NY d)) / NX d), (cell / (NX d * NY d)),
    (rest / ND LT), ((rest mod ND LT) / OFF LT), ((rest mod ND LT) mod OFF LT).
  split; [reflexivity|]. split.
  - unfold Population.valid. repeat split; lia.
  - rewrite Population_SpatialToLinear_split, <- Hcelleq.
    pose proof (Z.div_mod rest (ND LT) ltac:(lia)).
    pose proof (Z.div_mod (rest mod ND LT) (OFF LT) ltac:(lia)).
    lia.
Qed.

End PopulationIndexing.

(** C6: for all valid coordinates, [LinearToSpatial] applied to
    [SpatialToLinear(x,y,z,n,d,p)] recovers the coordinates (the direction
    of the specification is the pair of the half [n] and [d]); the offset
    lies inside of the buffer, and every offset of the buffer is that of
    exactly the valid coordinates that [LinearToSpatial] gives for it: the
    two functions are inverse bijections between the valid coordinates and
    the offsets of the flat buffer. *)
Theorem indexing_bijection {T : Type} (d : dims) (LT : lattice T) (NPOP : Z) :
  ND LT = 2 * OFF LT ->
  0 <= NX d -> 0 <= NY d -> 0 <= NZ d -> 0 <= NPOP -> 0 <= OFF LT ->
  (forall x y z n dd p,
     Population.valid d LT NPOP x y z n dd p ->
     0 <= Population.SpatialToLinear d LT NPOP x y z n dd p < Population.length_ d LT NPOP /\
     Population.LinearToSpatial d LT NPOP (Population.SpatialToLinear d LT NPOP x y z n dd p)
     = (x, y, z, p, n, dd)) /\
  (forall index,
     0 <= index < Population.length_ d LT NPOP ->
     exists x y z p n dd,
       Population.LinearToSpatial d LT NPOP index = (x, y, z, p, n, dd) /\
       Population.valid d LT NPOP x y z n dd p /\
       Population.SpatialToLinear d LT NPOP x y z n dd p = index).
Proof.
  intros HND Hx Hy Hz Hp Ho. split.
  - intros x y z n dd p Hv. split.
    + apply Population_SpatialToLinear_range; assumption.
    + apply LinearToSpatial_SpatialToLinear; assumption.
  - intros index Hi. apply SpatialToLinear_LinearToSpatial; assumption.
Qed.

(** ** The time loop *)

Lemma loop_body_events nt sv i :
  0 < nt / 10 <= UINT_MAX -> 0 <= i <= UINT_MAX ->
  Main.loop_body nt sv i = (Main.iteration_events nt sv i, Done tt).
Proof.
  intros Hnt Hi. unfold Main.loop_body, Main.iteration_events.
  rewrite (wrap32_small (nt / 10)) by lia.
  assert (0 <= i mod (nt / 10) < nt / 10) as Hmod by (apply Z.mod_pos_bound; lia).
  assert (wrap64 (i mod (nt / 10)) = i mod (nt / 10)) as ->
    by (unfold wrap64; apply Z.mod_small; unfold UINT_MAX in *; lia).
  unfold Main.export_step. rewrite (wrap32_small i) by lia.
  destruct sv; [|reflexivity].
  destruct (Z.eqb_spec (nt / 10) 0) as [E | _]; [lia|].
  destruct (i mod (nt / 10) =? 0); reflexivity.
Qed.

Lemma indices_done nt i : nt <= i -> Main.indices nt i = [].
Proof.
  intros H. unfold Main.indices, seqZ.
  replace (Z.to_nat ((nt - i + 1) / 2)) with 0%nat by lia_div. reflexivity.
Qed.

Lemma indices_step nt i :
  i < nt -> Main.indices nt i = i :: Main.indices nt (i + 2).
Proof.
  intros H. unfold Main.indices.
  rewrite seqZ_cons by lia_div. rewrite fmap_cons. f_equal; [lia|].
  replace (Z.pred ((nt - i + 1) / 2)) with ((nt - (i + 2) + 1) / 2) by lia_div.
  change (Z.succ 0) with (1 + 0).
  rewrite <- (fmap_add_seqZ 1), <- list_fmap_compose.
  apply list_fmap_ext. intros _ k _. simpl. lia.
Qed.

(** The loop runs its body at the indices [0, 2, 4, ...] below [nt], and
    ends. *)
Lemma main_loop_unroll nt sv i :
  0 < nt / 10 -> nt <= UINT_MAX -> 0 <= i ->
  Main.main_loop nt sv i =
  (Main.indices nt i ≫= Main.iteration_events nt sv, Done tt).
Proof.
  intros Hnt Hmax.
  remember (Z.to_nat (nt - i)) as n eqn:Hn. revert i Hn.
  induction n as [n IH] using lt_wf_ind. intros i Hn Hi.
  rewrite Main.main_loop_equation_1.
  destruct (Z_lt_dec i nt) as [Hlt | Hge]; simpl.
  - rewrite loop_body_events by (unfold UINT_MAX in *; lia_div).
    rewrite (IH (Z.to_nat (nt - (i + 2)))) by lia.
    rewrite (indices_step nt i) by lia. reflexivity.
  - rewrite indices_done by lia. reflexivity.
Qed.

Lemma filter_bind {A B : Type} (P : B -> bool) (f : A -> list B) (l : list A) :
  List.filter P (l ≫= f) = l ≫= (fun a => List.filter P (f a)).
Proof.
  induction l as [|a l IH]; [reflexivity|].
  rewrite !bind_cons, List.filter_app, IH. reflexivity.
Qed.

Lemma bind_filter {A B : Type} (P : A -> bool) (f : A -> list B) (l : list A) :
  l ≫= (fun a => if P a then f a else []) = List.filter P l ≫= f.
Proof.
  induction l as [|a l IH]; [reflexivity|].
  rewrite bind_cons, IH. simpl. destruct (P a); [rewrite bind_cons|]; reflexivity.
Qed.

Lemma iteration_pass_events nt sv i :
  List.filter Main.is_pass_event (Main.iteration_events nt sv i) =
  Main.pass_events false ++ Main.pass_events true.
Proof.
  unfold Main.iteration_events.
  destruct (sv && (i mod (nt / 10) =? 0)); reflexivity.
Qed.

Lemma iteration_export_events nt sv i :
  List.filter Main.is_export_event (Main.iteration_events nt sv i) =
  if sv && (i mod (nt / 10) =? 0) then Main.export_events i else [].
Proof.
  unfold Main.iteration_events.
  destruct (sv && (i mod (nt / 10) =? 0)); reflexivity.
Qed.

Lemma iteration_other_events nt sv i :
  List.filter (fun e => negb (Main.is_pass_event e || Main.is_export_event e))
    (Main.iteration_events nt sv i) = [].
Proof.
  unfold Main.iteration_events.
  destruct (sv && (i mod (nt / 10) =? 0)); reflexivity.
Qed.

Lemma bind_nil_const {A B : Type} (l : list A) : l ≫= (fun _ => @nil B) = [].
Proof. induction l as [|a l IH]; [reflexivity|]. rewrite bind_cons, IH. reflexivity. Qed.

(** With an even number of steps the loop makes [nt/2] iterations, each an
    even parity pass followed by an odd one. *)
Lemma main_loop_pass_events nt sv :
  0 < nt / 10 -> nt <= UINT_MAX -> Z.even nt = true ->
  List.filter Main.is_pass_event (trace (Main.main_loop nt sv 0)) =
  (seqZ 0 (nt / 2) ≫= (fun _ => [false; true])) ≫= Main.pass_events.
Proof.
  intros Hnt Hmax Heven. rewrite main_loop_unroll by lia. cbn [trace fst].
  rewrite filter_bind.
  rewrite (list_bind_ext _ (fun _ => Main.pass_events false ++ Main.pass_events true)
             _ (Main.indices nt 0)); [| intros i; apply iteration_pass_events | reflexivity].
  unfold Main.indices. rewrite list_fmap_bind.
  replace ((nt - 0 + 1) / 2) with (nt / 2).
  2:{ apply Zeven_bool_iff, Zeven_ex in Heven as [k ->]. lia_div. }
  generalize (seqZ 0 (nt / 2)). intros l.
  induction l as [|a l IH]; [reflexivity|].
  rewrite !bind_cons, bind_app, <- IH. reflexivity.
Qed.

Lemma main_loop_export_events nt :
  0 < nt / 10 -> nt <= UINT_MAX ->
  List.filter Main.is_export_event (trace (Main.main_loop nt true 0)) =
  List.filter (fun i => i mod (nt / 10) =? 0) (Main.indices nt 0)
    ≫= (fun i => [StatusOutput i; SetZero wall; ExportVtk i]).
Proof.
  intros Hnt Hmax. rewrite main_loop_unroll by lia. cbn [trace fst].
  rewrite filter_bind, <- bind_filter.
  apply list_bind_ext; [|reflexivity].
  intros i. apply iteration_export_events.
Qed.

Lemma main_loop_no_export nt :
  0 < nt / 10 -> nt <= UINT_MAX ->
  List.filter Main.is_export_event (trace (Main.main_loop nt false 0)) = [].
Proof.
  intros Hnt Hmax. rewrite main_loop_unroll by lia. cbn [trace fst].
  rewrite filter_bind.
  rewrite (list_bind_ext _ (fun _ => []) _ (Main.indices nt 0));
    [apply bind_nil_const | intros i; apply iteration_export_events | reflexivity].
Qed.

Lemma main_loop_other_events nt sv :
  0 < nt / 10 -> nt <= UINT_MAX ->
  List.filter (fun e => negb (Main.is_pass_event e || Main.is_export_event e))
    (trace (Main.main_loop nt sv 0)) = [].
Proof.
  intros Hnt Hmax. rewrite main_loop_unroll by lia. cbn [trace fst].
  rewrite filter_bind.
  rewrite (list_bind_ext _ (fun _ => []) _ (Main.indices nt 0));
    [apply bind_nil_const | intros i; apply iteration_other_events | reflexivity].
Qed.

Lemma NT_steps : 0 < Main.NT / 10 /\ Main.NT <= UINT_MAX /\ Z.even Main.NT = true.
Proof. repeat split; vm_compute; congruence. Qed.

(** C2: the time-stepping driver ends after [NT/2] loop iterations, which
    are exactly [NT] parity passes, alternately even and odd; every parity
    pass is, in this order, the Guo velocity condition on the inlet, the Guo
    pressure condition on the outlet, the fused collision+streaming and the
    halfway bounce-back on the wall list, each called once; the only other
    calls of the loop are those of the exports. *)
Theorem main_loop_parity_passes :
  result (Main.main_loop Main.NT Main.save 0) = Done tt /\
  trace (Main.main_loop Main.NT Main.save 0) =
    Main.indices Main.NT 0 ≫= Main.iteration_events Main.NT Main.save /\
  Z.of_nat (length (Main.indices Main.NT 0)) = Main.NT / 2 /\
  List.filter Main.is_pass_event (trace (Main.main_loop Main.NT Main.save 0)) =
    (seqZ 0 (Main.NT / 2) ≫= (fun _ => [false; true])) ≫=
      (fun odd => [Guo odd Velocity Left inlet; Guo odd Pressure Right outlet;
                   CollideStreamBGK_Smagorinsky odd; BounceBackHalfway odd wall]) /\
  Z.of_nat (length (seqZ 0 (Main.NT / 2) ≫= (fun _ => [false; true]))) = Main.NT /\
  List.filter (fun e => negb (Main.is_pass_event e || Main.is_export_event e))
    (trace (Main.main_loop Main.NT Main.save 0)) = [].
Proof.
  destruct NT_steps as (Hnt & Hmax & Heven).
  split; [rewrite main_loop_unroll by lia; reflexivity|].
  split; [rewrite main_loop_unroll by lia; reflexivity|].
  split; [vm_compute; reflexivity|].
  split; [apply main_loop_pass_events; assumption|].
  split; [vm_compute; reflexivity|].
  apply main_loop_other_events; assumption.
Qed.

(** C7: with saving enabled, the calls of the exports in the main loop are,
    for exactly the loop indices [i] (even, below [NT]) with
    [i mod (NT/10) = 0], the status line, then [SetZero] over the wall list,
    then the export of the volumetric snapshot of step [i], after the two
    parity passes of the iteration; these indices are the multiples of
    [NT/10].  Without saving there is no export. *)
Theorem main_loop_exports :
  Main.save = true /\
  trace (Main.main_loop Main.NT true 0) =
    Main.indices Main.NT 0 ≫= (fun i =>
      Main.pass_events false ++ Main.pass_events true ++
      (if i mod (Main.NT / 10) =? 0
       then [StatusOutput i; SetZero wall; ExportVtk i] else [])) /\
  List.filter Main.is_export_event (trace (Main.main_loop Main.NT true 0)) =
    List.filter (fun i => i mod (Main.NT / 10) =? 0) (Main.indices Main.NT 0)
      ≫= (fun i => [StatusOutput i; SetZero wall; ExportVtk i]) /\
  List.filter (fun i => i mod (Main.NT / 10) =? 0) (Main.indices Main.NT 0) =
    [0; 1000; 2000; 3000; 4000; 5000; 6000; 7000; 8000; 9000] /\
  List.filter Main.is_export_event (trace (Main.main_loop Main.NT false 0)) = [].
Proof.
  destruct NT_steps as (Hnt & Hmax & Heven).
  split; [reflexivity|].
  split; [rewrite main_loop_unroll by lia; reflexivity|].
  split; [apply main_loop_export_events; assumption|].
  split; [vm_compute; reflexivity|].
  apply main_loop_no_export; assumption.
Qed.

(** ** Construction of the fields *)

(** C1: when the allocation of its buffer fails, the constructor of
    [Population] reports the failure and exits with [EXIT_FAILURE]; the
    constructor of [Continuum] reports it as well, but then returns, and the
    object is constructed with a null buffer; [main] then goes on to
    [InitContinuum], which writes through the null pointer. *)
Theorem allocation_failure :
  (forall (T : Type) (FT : Floating T) (LT : lattice T) (Re U : T) (L : Z) (LAMBDA : T),
     Population.ctor LT None Re U L LAMBDA =
     ([Print Cerr "Fatal error: Population could not be allocated."], Exited EXIT_FAILURE)) /\
  (forall T : Type,
     @Continuum.ctor T None =
     ([Print Cerr "Fatal error: Population could not be allocated."],
      Done {| Continuum.M_ := None |})) /\
  (forall (om : bool) (buf : list float) (name : string),
     result (Main.main {| Main.openmp := om; Main.alloc_Macro := None;
                          Main.alloc_Micro := Some buf |} [name]) = Undefined).
Proof.
  split; [reflexivity|]. split; [reflexivity|].
  intros om buf name.
  assert (Continuum.InitContinuum Main.domain {| Continuum.M_ := None |}
            Main.RHO_0 Main.U_0 Main.V_0 Main.W_0 = None) as Hnull.
  { rewrite InitContinuum_cells.
    assert ((0, 0, 0) ∈ Continuum.cells Main.domain) as Hin.
    { apply (elem_of_cells_domain Main.domain domain_fits).
      unfold Continuum.in_domain, Main.domain; cbn [NX NY NZ]. lia. }
    destruct (Continuum.cells Main.domain) as [|c l]; [inversion Hin | reflexivity]. }
  unfold Main.main, Main.simulation, Main.switches.
  cbn [Main.alloc_Macro Main.alloc_Micro Main.openmp length Z.of_nat].
  unfold Continuum.ctor, Population.ctor.
  cbn [bind emit ret lift Z.ltb Z.compare Pos.compare Pos.compare_cont Pos.of_succ_nat].
  rewrite Hnull. destruct om; reflexivity.
Qed.

(** C4, as amended: the constructor of [Population] does not look at the
    relaxation time.  Whenever the buffer is allocated it returns without
    any report, for every [Re], [U], [L] and [LAMBDA], with [TAU_] and the
    collision frequencies stored as the initialisers compute them, neither
    checked nor corrected; the only condition it reports is the allocation
    failure. *)
Theorem ctor_unchecked {T : Type} {FT : Floating T} (LT : lattice T)
    (alloc : option (list T)) (Re U : T) (L : Z) (LAMBDA : T) :
  Population.ctor LT alloc Re U L LAMBDA =
  match alloc with
  | Some buf =>
      ([], Done {| Population.F_ := Some buf;
                   Population.NU_ := (U * of_uint L / Re)%fl;
                   Population.TAU_ :=
                     (U * of_uint L / Re / (CS LT * CS LT) + f_one / f_two)%fl;
                   Population.OMEGA_ :=
                     (f_one / (U * of_uint L / Re / (CS LT * CS LT) + f_one / f_two))%fl;
                   Population.LAMBDA_ := LAMBDA;
                   Population.OMEGA_M_ :=
                     Population.init_OMEGA_M
                       (U * of_uint L / Re / (CS LT * CS LT) + f_one / f_two)%fl LAMBDA |})
  | None =>
      ([Print Cerr "Fatal error: Population could not be allocated."], Exited EXIT_FAILURE)
  end.
Proof. destruct alloc; reflexivity. Qed.

(** C4 as stated fails for a negative Reynolds number: the relaxation time
    is below 1/2 and the construction completes without a word. *)
Lemma ctor_silent_on_invalid_TAU :
  exists pop,
    Population.ctor Main.D3Q27 (Some []) (-1000)%float 0.05%float 19 0.25%float
      = ([], Done pop) /\
    PrimFloat.leb (Population.TAU_ pop) 0.5%float = true.
Proof. eexists. split; [reflexivity | vm_compute; reflexivity]. Qed.

(** ** The relaxation parameters *)

(** The constructor computes in binary64.  Its values are bounded through
    the specification of the primitive operations: the right shifts and the
    rounding to nearest of [binary_round_aux] keep a number on its side of
    a power of two. *)

(** *** Digits and right shifts *)

Lemma fexp_eq x : fexp prec emax x = Z.max (x - 53) (-1074).
Proof. reflexivity. Qed.

Lemma digits2_pos_bounds (p : positive) :
  2 ^ (Z.pos (digits2_pos p) - 1) <= Z.pos p < 2 ^ Z.pos (digits2_pos p).
Proof.
  induction p as [p IH | p IH |]; cbn [digits2_pos].
  - rewrite Pos2Z.inj_succ, Z.pow_succ_r by lia.
    replace (Z.succ (Z.pos (digits2_pos p)) - 1) with (Z.succ (Z.pos (digits2_pos p) - 1)) by lia.
    rewrite Z.pow_succ_r by lia. lia.
  - rewrite Pos2Z.inj_succ, Z.pow_succ_r by lia.
    replace (Z.succ (Z.pos (digits2_pos p)) - 1) with (Z.succ (Z.pos (digits2_pos p) - 1)) by lia.
    rewrite Z.pow_succ_r by lia. lia.
  - cbn. lia.
Qed.

Lemma Zdigits2_bounds (m : Z) :
  0 < m -> 0 < Zdigits2 m /\ 2 ^ (Zdigits2 m - 1) <= m < 2 ^ Zdigits2 m.
Proof.
  destruct m as [|p|p]; try lia. intros _. cbn [Zdigits2].
  split; [lia | apply digits2_pos_bounds].
Qed.

Lemma Zdigits2_nonneg (m : Z) : 0 <= m -> 0 <= Zdigits2 m.
Proof. destruct m; cbn; lia. Qed.

(** one step of the right shift *)
Lemma shr_1_spec (mrs : shr_record) :
  0 <= shr_m mrs ->
  shr_m (shr_1 mrs) = shr_m mrs / 2 /\
  shr_r (shr_1 mrs) = Z.odd (shr_m mrs) /\
  shr_s (shr_1 mrs) = shr_r mrs || shr_s mrs.
Proof.
  destruct mrs as [m r s]. cbn [shr_m shr_r shr_s shr_1]. intros Hm.
  destruct m as [|[p|p|]|p]; cbn [shr_m shr_r shr_s]; try lia.
  - repeat split; reflexivity.
  - repeat split; try reflexivity. rewrite Pos2Z.inj_xI. lia_div.
  - repeat split; try reflexivity. rewrite Pos2Z.inj_xO. lia_div.
  - repeat split; reflexivity.
Qed.

Lemma pow2_pos n : 0 <= n -> 0 < 2 ^ n.
Proof. intros H. apply Z.pow_pos_nonneg; lia. Qed.

Lemma shifts_1 a : shifts 1 a (shr_1 a).
Proof.
  intros Hm. destruct (shr_1_spec a Hm) as (H1 & H2 & H3).
  rewrite H1, H2, H3. change (2 ^ 1) with 2.
  split; [apply Z.div_pos; lia|]. split; [reflexivity|].
  intros -> -> Hmod. split; [|reflexivity].
  rewrite <- Z.negb_even, Zeven_mod, Hmod. reflexivity.
Qed.

Lemma shifts_comp n1 n2 a b c :
  0 <= n1 -> 0 <= n2 -> shifts n1 a b -> shifts n2 b c -> shifts (n1 + n2) a c.
Proof.
  intros Hn1 Hn2 Hab Hbc Ha.
  destruct (Hab Ha) as (Hb & Hmb & Heb).
  destruct (Hbc Hb) as (Hc & Hmc & Hec).
  pose proof (pow2_pos n1 Hn1). pose proof (pow2_pos n2 Hn2).
  rewrite Z.pow_add_r by lia.
  split; [exact Hc|]. split.
  - rewrite Hmc, Hmb, Z.div_div by lia. reflexivity.
  - intros Hr Hs Hmod.
    assert (shr_m a = 2 ^ n1 * (2 ^ n2 * (shr_m a / (2 ^ n1 * 2 ^ n2)))) as Heq.
    { pose proof (Z.div_mod (shr_m a) (2 ^ n1 * 2 ^ n2)). lia. }
    assert (shr_m a mod 2 ^ n1 = 0) as Hmod1.
    { rewrite Heq, Z.mul_comm, Z.mod_mul by lia. reflexivity. }
    destruct (Heb Hr Hs Hmod1) as (Hrb & Hsb).
    apply Hec; [exact Hrb | exact Hsb |].
    rewrite Hmb. rewrite Heq at 1. rewrite Z.mul_comm, Z.div_mul by lia.
    rewrite Z.mul_comm, Z.mod_mul by lia. reflexivity.
Qed.

Lemma shifts_iter p a : shifts (Z.pos p) a (SpecFloat.iter_pos shr_1 p a).
Proof.
  revert a. induction p as [p IH | p IH |]; intros a; cbn [SpecFloat.iter_pos].
  - replace (Z.pos p~1) with (1 + (Z.pos p + Z.pos p)) by lia.
    apply (shifts_comp 1 _ a (shr_1 a)); [lia | lia | apply shifts_1 |].
    apply (shifts_comp _ _ _ (SpecFloat.iter_pos shr_1 p (shr_1 a))); [lia | lia | apply IH | apply IH].
  - replace (Z.pos p~0) with (Z.pos p + Z.pos p) by lia.
    apply (shifts_comp _ _ _ (SpecFloat.iter_pos shr_1 p a)); [lia | lia | apply IH | apply IH].
  - apply shifts_1.
Qed.

Lemma loc_of_shr_record_of_loc m l : loc_of_shr_record (shr_record_of_loc m l) = l.
Proof. destruct l as [|[| |]]; reflexivity. Qed.

Lemma shr_m_record_of_loc m l : shr_m (shr_record_of_loc m l) = m.
Proof. destruct l as [|[| |]]; reflexivity. Qed.

(** [shr_fexp]: the mantissa is divided by [2^n] and the exponent raised by
    [n], for the number [n] of bits in excess of the format *)
Lemma shr_fexp_spec (m e : Z) (l : location) :
  0 <= m ->
  let n := Z.max 0 (fexp prec emax (Zdigits2 m + e) - e) in
  exists mrs,
    shr_fexp prec emax m e l = (mrs, e + n) /\
    shr_m mrs = m / 2 ^ n /\
    (l = loc_Exact -> m mod 2 ^ n = 0 -> loc_of_shr_record mrs = loc_Exact).
Proof.
  intros Hm n. unfold shr_fexp, shr. subst n.
  destruct (fexp prec emax (Zdigits2 m + e) - e) as [|p|p] eqn:Hn.
  - exists (shr_record_of_loc m l). rewrite Z.max_l, Z.add_0_r by lia.
    split; [reflexivity|]. rewrite shr_m_record_of_loc, Z.pow_0_r, Z.div_1_r.
    split; [reflexivity|]. intros -> _. reflexivity.
  - exists (SpecFloat.iter_pos shr_1 p (shr_record_of_loc m l)). rewrite Z.max_r by lia.
    split; [reflexivity|].
    destruct (shifts_iter p (shr_record_of_loc m l)) as (_ & H2 & H3).
    { rewrite shr_m_record_of_loc. exact Hm. }
    rewrite shr_m_record_of_loc in H2, H3. split; [exact H2|].
    intros -> Hmod. destruct (H3 eq_refl eq_refl Hmod) as (Hr & Hs).
    destruct (SpecFloat.iter_pos shr_1 p _) as [m' r' s']. cbn in Hr, Hs. subst. reflexivity.
  - exists (shr_record_of_loc m l). rewrite Z.max_l, Z.add_0_r by lia.
    split; [reflexivity|]. rewrite shr_m_record_of_loc, Z.pow_0_r, Z.div_1_r.
    split; [reflexivity|]. intros -> _. reflexivity.
Qed.

Lemma round_nearest_even_spec m l :
  m <= round_nearest_even m l <= m + 1 /\
  (l = loc_Exact -> round_nearest_even m l = m).
Proof.
  destruct l as [|[| |]]; cbn [round_nearest_even];
    try destruct (Z.even m); split; try lia; try reflexivity; intros H; discriminate.
Qed.

Lemma binary_round_aux_spec (sx : bool) (m e : Z) (l : location) :
  0 <= m ->
  let n1 := Z.max 0 (fexp prec emax (Zdigits2 m + e) - e) in
  exists m1',
    m / 2 ^ n1 <= m1' <= m / 2 ^ n1 + 1 /\
    (l = loc_Exact -> m mod 2 ^ n1 = 0 -> m1' = m / 2 ^ n1) /\
    let n2 := Z.max 0 (fexp prec emax (Zdigits2 m1' + (e + n1)) - (e + n1)) in
    binary_round_aux prec emax sx m e l =
    match m1' / 2 ^ n2 with
    | Z0 => S754_zero sx
    | Zpos p =>
        if e + n1 + n2 <=? emax - prec then S754_finite sx p (e + n1 + n2)
        else S754_infinity sx
    | Zneg _ => S754_nan
    end.
Proof.
  intros Hm n1.
  destruct (shr_fexp_spec m e l Hm) as (mrs1 & Hshr1 & Hm1 & Hl1). fold n1 in Hshr1, Hm1, Hl1.
  assert (0 <= n1) as Hn1 by (subst n1; lia).
  assert (0 <= m / 2 ^ n1) as Hm1pos by (apply Z.div_pos; [lia | apply pow2_pos; lia]).
  destruct (round_nearest_even_spec (shr_m mrs1) (loc_of_shr_record mrs1)) as (Hr & Hrex).
  set (m1' := round_nearest_even (shr_m mrs1) (loc_of_shr_record mrs1)) in *.
  exists m1'. rewrite Hm1 in Hr, Hrex.
  split; [exact Hr|]. split.
  { intros Hl Hmod. apply Hrex, Hl1; assumption. }
  intros n2.
  assert (0 <= m1') as Hm1' by lia.
  destruct (shr_fexp_spec m1' (e + n1) loc_Exact Hm1') as (mrs2 & Hshr2 & Hm2 & _).
  fold n2 in Hshr2, Hm2.
  unfold binary_round_aux. rewrite Hshr1. fold m1'. rewrite Hshr2, Hm2. reflexivity.
Qed.

Lemma binary_round_aux_sign (sx : bool) (m e : Z) (l : location) :
  0 <= m ->
  binary_round_aux prec emax sx m e l = S754_zero sx \/
  binary_round_aux prec emax sx m e l = S754_infinity sx \/
  exists p e2, binary_round_aux prec emax sx m e l = S754_finite sx p e2.
Proof.
  intros Hm. destruct (binary_round_aux_spec sx m e l Hm) as (m1' & Hr & _ & Heq).
  cbv zeta in Heq. rewrite Heq.
  set (n1 := Z.max 0 (fexp prec emax (Zdigits2 m + e) - e)) in *.
  set (n2 := Z.max 0 _).
  assert (0 <= m / 2 ^ n1) by (apply Z.div_pos; [lia | apply pow2_pos; subst n1; lia]).
  assert (0 <= m1' / 2 ^ n2) as H2 by (apply Z.div_pos; [lia | apply pow2_pos; subst n2; lia]).
  destruct (m1' / 2 ^ n2) as [|p|p]; [left; reflexivity | | lia].
  destruct (_ <=? _); [right; right; eauto | right; left; reflexivity].
Qed.

(** *** Values, in units of [2^-1074] *)

Lemma scaled_mono m m' e : m <= m' -> -1074 <= e -> scaled m e <= scaled m' e.
Proof.
  intros H He. unfold scaled. apply Z.mul_le_mono_nonneg_r; [|exact H].
  apply Z.pow_nonneg. lia.
Qed.

Lemma scaled_shift_le m e n : 0 <= m -> 0 <= n -> -1074 <= e -> scaled (m / 2 ^ n) (e + n) <= scaled m e.
Proof.
  intros Hm Hn He. unfold scaled.
  replace (e + n + 1074) with (n + (e + 1074)) by lia.
  rewrite Z.pow_add_r by lia. rewrite Z.mul_assoc.
  apply Z.mul_le_mono_nonneg_r; [apply Z.pow_nonneg; lia|].
  pose proof (pow2_pos n Hn). rewrite Z.mul_comm. apply Z.mul_div_le. lia.
Qed.

Lemma scaled_pow a e : 0 <= a -> -1074 <= e -> scaled (2 ^ a) e = 2 ^ (a + e + 1074).
Proof.
  intros Ha He. unfold scaled. rewrite <- Z.pow_add_r by lia. f_equal. lia.
Qed.

Lemma scaled_ge_inv m e j :
  -1074 <= e <= j -> 2 ^ (j + 1074) <= scaled m e -> 2 ^ (j - e) <= m.
Proof.
  intros He H. unfold scaled in H.
  replace (j + 1074) with ((j - e) + (e + 1074)) in H by lia.
  rewrite (Z.pow_add_r 2 (j - e) (e + 1074)) in H by lia.
  apply (Z.mul_le_mono_pos_r _ _ (2 ^ (e + 1074))); [apply pow2_pos; lia | exact H].
Qed.

Lemma scaled_le_inv m e j :
  -1074 <= e <= j -> scaled m e <= 2 ^ (j + 1074) -> m <= 2 ^ (j - e).
Proof.
  intros He H. unfold scaled in H.
  replace (j + 1074) with ((j - e) + (e + 1074)) in H by lia.
  rewrite (Z.pow_add_r 2 (j - e) (e + 1074)) in H by lia.
  apply (Z.mul_le_mono_pos_r _ _ (2 ^ (e + 1074))); [apply pow2_pos; lia | exact H].
Qed.

Lemma scaled_ge_intro m e j :
  -1074 <= e <= j -> 2 ^ (j - e) <= m -> 2 ^ (j + 1074) <= scaled m e.
Proof.
  intros He H. unfold scaled.
  replace (j + 1074) with ((j - e) + (e + 1074)) by lia.
  rewrite (Z.pow_add_r 2 (j - e) (e + 1074)) by lia.
  apply Z.mul_le_mono_nonneg_r; [apply Z.pow_nonneg; lia | exact H].
Qed.

Lemma scaled_le_intro m e j :
  -1074 <= e <= j -> m <= 2 ^ (j - e) -> scaled m e <= 2 ^ (j + 1074).
Proof.
  intros He H. unfold scaled.
  replace (j + 1074) with ((j - e) + (e + 1074)) by lia.
  rewrite (Z.pow_add_r 2 (j - e) (e + 1074)) by lia.
  apply Z.mul_le_mono_nonneg_r; [apply Z.pow_nonneg; lia | exact H].
Qed.

(** a positive mantissa at an exponent above [j] exceeds [2^j] *)
Lemma scaled_ge_high m e j : 0 < m -> -1074 <= j <= e -> 2 ^ (j + 1074) <= scaled m e.
Proof.
  intros Hm He. unfold scaled.
  apply Z.le_trans with (1 * 2 ^ (e + 1074)).
  - rewrite Z.mul_1_l. apply Z.pow_le_mono_r; lia.
  - apply Z.mul_le_mono_nonneg_r; [apply Z.pow_nonneg; lia | lia].
Qed.

(** a positive value that is at most [2^j] has its exponent at most [j] *)
Lemma scaled_le_exponent m e j :
  0 < m -> -1074 <= e -> -1074 <= j -> scaled m e <= 2 ^ (j + 1074) -> e <= j.
Proof.
  intros Hm He Hj H. unfold scaled in H.
  destruct (Z_le_gt_dec e j) as [|Hgt]; [assumption|]. exfalso.
  assert (2 ^ (j + 1074) < 2 ^ (e + 1074)) by (apply Z.pow_lt_mono_r; lia).
  assert (1 * 2 ^ (e + 1074) <= m * 2 ^ (e + 1074))
    by (apply Z.mul_le_mono_nonneg_r; [apply Z.pow_nonneg; lia | lia]).
  lia.
Qed.

(** truncation to the format keeps a value at or above a power of two *)
Lemma scaled_shift_ge m e j :
  0 < m -> -1074 <= e -> -1074 <= j ->
  2 ^ (j + 1074) <= scaled m e ->
  let n := Z.max 0 (fexp prec emax (Zdigits2 m + e) - e) in
  0 < m / 2 ^ n /\ 2 ^ (j + 1074) <= scaled (m / 2 ^ n) (e + n).
Proof.
  intros Hm He Hj H n.
  destruct (Zdigits2_bounds m Hm) as (Hd & Hlo & Hhi).
  subst n. rewrite fexp_eq. set (n := Z.max 0 _).
  destruct (Z_le_gt_dec (Z.max (Zdigits2 m + e - 53) (-1074) - e) 0) as [Hn | Hn].
  - assert (n = 0) as -> by (subst n; lia).
    rewrite Z.pow_0_r, Z.div_1_r, Z.add_0_r. split; [exact Hm | exact H].
  - assert (n = Z.max (Zdigits2 m + e - 53) (-1074) - e) as Hnv by (subst n; lia).
    assert (0 < n) as Hnpos by lia.
    pose proof (pow2_pos n ltac:(lia)) as Hpn.
    destruct (Z_le_gt_dec (e + n) j) as [Hle | Hgt].
    + assert (2 ^ (j - e) <= m) as Hm' by (apply scaled_ge_inv; [lia | exact H]).
      assert (2 ^ (j - (e + n)) <= m / 2 ^ n) as Hq.
      { apply Z.div_le_lower_bound; [lia|].
        rewrite <- Z.pow_add_r by lia.
        replace (n + (j - (e + n))) with (j - e) by lia. exact Hm'. }
      pose proof (pow2_pos (j - (e + n)) ltac:(lia)).
      split; [lia|]. apply scaled_ge_intro; [lia | exact Hq].
    + assert (n = Zdigits2 m - 53) as Hn53 by lia.
      assert (2 ^ 52 <= m / 2 ^ n) as Hq.
      { apply Z.div_le_lower_bound; [lia|].
        rewrite <- Z.pow_add_r by lia.
        replace (n + 52) with (Zdigits2 m - 1) by lia. exact Hlo. }
      assert (0 < m / 2 ^ n) by lia.
      split; [assumption|]. apply scaled_ge_high; [assumption | lia].
Qed.

(** *** Rounding keeps the bounds that are powers of two *)

Lemma binary_round_aux_lower (sx : bool) (m e : Z) (l : location) (j : Z) :
  0 < m -> -1074 <= e -> -1074 <= j ->
  2 ^ (j + 1074) <= scaled m e ->
  binary_round_aux prec emax sx m e l = S754_infinity sx \/
  exists p e2,
    binary_round_aux prec emax sx m e l = S754_finite sx p e2 /\
    -1074 <= e2 /\ 2 ^ (j + 1074) <= scaled (Z.pos p) e2.
Proof.
  intros Hm He Hj H.
  destruct (binary_round_aux_spec sx m e l ltac:(lia)) as (m1' & Hr & _ & Heq).
  cbv zeta in Heq. rewrite Heq. clear Heq.
  destruct (scaled_shift_ge m e j Hm He Hj H) as (Hm1 & H1). cbv zeta in Hm1, H1.
  set (n1 := Z.max 0 (fexp prec emax (Zdigits2 m + e) - e)) in *.
  assert (0 <= n1) as Hn1 by (subst n1; lia).
  assert (0 < m1') as Hm1' by lia.
  assert (2 ^ (j + 1074) <= scaled m1' (e + n1)) as H1'.
  { eapply Z.le_trans; [exact H1|]. apply scaled_mono; lia. }
  destruct (scaled_shift_ge m1' (e + n1) j Hm1' ltac:(lia) Hj H1') as (Hm2 & H2).
  cbv zeta in Hm2, H2.
  set (n2 := Z.max 0 (fexp prec emax (Zdigits2 m1' + (e + n1)) - (e + n1))) in *.
  assert (0 <= n2) as Hn2 by (subst n2; lia).
  destruct (m1' / 2 ^ n2) as [|p|p]; [lia | | lia].
  destruct (_ <=? _); [right | left; reflexivity].
  exists p, (e + n1 + n2). split; [reflexivity|]. split; [lia | exact H2].
Qed.

Lemma binary_round_aux_upper (sx : bool) (m e : Z) (l : location) (j : Z) :
  0 <= m -> -1074 <= e -> -1074 <= j <= 971 ->
  scaled m e <= 2 ^ (j + 1074) ->
  (l <> loc_Exact -> scaled (m + 1) e <= 2 ^ (j + 1074)) ->
  binary_round_aux prec emax sx m e l = S754_zero sx \/
  exists p e2,
    binary_round_aux prec emax sx m e l = S754_finite sx p e2 /\
    -1074 <= e2 /\ scaled (Z.pos p) e2 <= 2 ^ (j + 1074).
Proof.
  intros Hm He Hj H Hinex.
  destruct (binary_round_aux_spec sx m e l Hm) as (m1' & Hr & Hex & Heq).
  cbv zeta in Heq. rewrite Heq. clear Heq.
  set (n1 := Z.max 0 (fexp prec emax (Zdigits2 m + e) - e)) in *.
  assert (0 <= n1) as Hn1 by (subst n1; lia).
  pose proof (pow2_pos n1 Hn1) as Hp1.
  assert (0 <= m / 2 ^ n1) as Hm1 by (apply Z.div_pos; lia).
  assert (scaled m1' (e + n1) <= 2 ^ (j + 1074)) as H1.
  { destruct (Z.eq_dec m1' (m / 2 ^ n1)) as [-> | Hne].
    { eapply Z.le_trans; [apply scaled_shift_le; lia | exact H]. }
    assert (m1' = m / 2 ^ n1 + 1) as -> by lia.
    destruct (Z.eq_dec n1 0) as [Hz | Hnz].
    { (* no shift: the location is the one given *)
      rewrite Hz in *. rewrite Z.pow_0_r, Z.div_1_r, Z.add_0_r in *.
      apply Hinex. intros ->. apply Hne, Hex; [reflexivity | apply Z.mod_1_r]. }
    (* a shift: the exponent is that of the format *)
    assert (n1 = Z.max (Zdigits2 m + e - 53) (-1074) - e) as Hn1v
      by (subst n1; rewrite fexp_eq; rewrite fexp_eq in Hnz; lia).
    assert (e <= j /\ e + n1 <= j) as (Hej & He1j).
    { destruct (Z.eq_dec m 0) as [-> | Hmz].
      - assert (l <> loc_Exact) as Hl.
        { intros ->. apply Hne, Hex; [reflexivity | apply Z.mod_0_l; lia]. }
        specialize (Hinex Hl). cbn [Z.add] in Hinex.
        assert (e <= j) by (apply (scaled_le_exponent 1); [lia | lia | lia | exact Hinex]).
        cbn [Zdigits2] in Hn1v. lia.
      - destruct (Zdigits2_bounds m ltac:(lia)) as (Hd & Hlo & _).
        assert (e <= j) by (apply (scaled_le_exponent m); [lia | lia | lia | exact H]).
        split; [assumption|].
        assert (m <= 2 ^ (j - e)) as Hmle by (apply scaled_le_inv; [lia | exact H]).
        assert (Zdigits2 m - 1 <= j - e).
        { apply (Z.pow_le_mono_r_iff 2); lia. }
        lia. }
    assert (m <= 2 ^ (j - e)) as Hmle by (apply scaled_le_inv; [lia | exact H]).
    assert (2 ^ (j - e) = 2 ^ (j - (e + n1)) * 2 ^ n1) as Hsplit.
    { rewrite <- Z.pow_add_r by lia. f_equal. lia. }
    apply scaled_le_intro; [lia|].
    destruct (Z.eq_dec m (2 ^ (j - e))) as [Hmeq | Hmne].
    - exfalso. destruct l as [|c].
      + apply Hne, Hex; [reflexivity|]. rewrite Hmeq, Hsplit. apply Z.mod_mul. lia.
      + assert (scaled (m + 1) e <= 2 ^ (j + 1074)) as Hinex' by (apply Hinex; discriminate).
        apply scaled_le_inv in Hinex'; lia.
    - assert (m / 2 ^ n1 < 2 ^ (j - (e + n1))); [|lia].
      apply Z.div_lt_upper_bound; [lia|]. rewrite Z.mul_comm, <- Hsplit. lia. }
  set (n2 := Z.max 0 (fexp prec emax (Zdigits2 m1' + (e + n1)) - (e + n1))) in *.
  assert (0 <= n2) as Hn2 by (subst n2; lia).
  assert (0 <= m1') as Hm1' by lia.
  assert (scaled (m1' / 2 ^ n2) (e + n1 + n2) <= 2 ^ (j + 1074)) as H2.
  { eapply Z.le_trans; [apply scaled_shift_le; lia | exact H1]. }
  assert (0 <= m1' / 2 ^ n2) as Hm2 by (apply Z.div_pos; [lia | apply pow2_pos; lia]).
  destruct (m1' / 2 ^ n2) as [|p|p]; [left; reflexivity | | lia].
  assert (e + n1 + n2 <= j) as He2.
  { apply (scaled_le_exponent (Z.pos p)); [lia | lia | lia | exact H2]. }
  destruct (Z.leb_spec (e + n1 + n2) (emax - prec)) as [_ | Hgt].
  - right. exists p, (e + n1 + n2). split; [reflexivity|]. split; [lia | exact H2].
  - exfalso. change (emax - prec) with 971 in Hgt. lia.
Qed.

(** *** Comparisons of valid numbers with [0.5] and [2] *)

Lemma valid_finite (x : float) s m e :
  Prim2SF x = S754_finite s m e -> canonical m e.
Proof.
  intros H. pose proof (Prim2SF_valid x) as Hv. rewrite H in Hv.
  unfold SpecFloat.valid_binary, bounded, canonical_mantissa in Hv.
  apply andb_prop in Hv as (H1 & H2).
  apply Z.eqb_eq in H1. apply Z.leb_le in H2. split; [exact H1 | exact H2].
Qed.

Lemma canonical_exponent m e : canonical m e -> -1074 <= e.
Proof. intros (H & _). rewrite fexp_eq in H. lia. Qed.

Lemma pow2_52 : 2 ^ 52 = 4503599627370496.
Proof. reflexivity. Qed.

Lemma SFleb_half_finite m e :
  canonical m e -> 2 ^ (-1 + 1074) <= scaled (Z.pos m) e ->
  SFleb SF_half (S754_finite false m e) = true.
Proof.
  intros Hc H. pose proof (canonical_exponent m e Hc) as He.
  destruct Hc as (Hc & _). rewrite fexp_eq in Hc.
  pose proof (digits2_pos_bounds m) as (_ & Hhi).
  set (d := Z.pos (digits2_pos m)) in *.
  assert (0 <= d + e) as Hde.
  { assert (2 ^ (-1 + 1074) < 2 ^ (d + (e + 1074))) as Hlt.
    { eapply Z.le_lt_trans; [exact H|]. unfold scaled.
      rewrite (Z.pow_add_r 2 d (e + 1074)) by lia.
      apply Z.mul_lt_mono_pos_r; [apply pow2_pos; lia | exact Hhi]. }
    apply Z.pow_lt_mono_r_iff in Hlt; lia. }
  assert (-53 <= e) as He53 by lia.
  unfold SFleb, SFcompare, SF_half.
  destruct (Z.compare_spec (-53) e) as [Heq | Hlt | Hgt]; [|reflexivity | lia].
  subst e.
  apply scaled_ge_inv in H; [|lia]. change (2 ^ (-1 - -53)) with 4503599627370496 in H.
  rewrite Pos.compare_cont_spec. cbn [Pos.switch_Eq].
  destruct (Pos.compare_spec 4503599627370496 m) as [| |Hgt]; try reflexivity.
  apply Pos2Z.pos_lt_pos in Hgt. clear - H Hgt. lia.
Qed.

Lemma SFleb_finite_two m e :
  canonical m e -> scaled (Z.pos m) e <= 2 ^ (1 + 1074) ->
  SFleb (S754_finite false m e) SF_two = true.
Proof.
  intros Hc H. pose proof (canonical_exponent m e Hc) as He.
  destruct Hc as (Hc & _). rewrite fexp_eq in Hc.
  pose proof (digits2_pos_bounds m) as (Hlo & _).
  set (d := Z.pos (digits2_pos m)) in *.
  assert (0 < d) as Hd by (subst d; lia).
  assert (d + e <= 2) as Hde.
  { assert (2 ^ (d - 1 + (e + 1074)) <= 2 ^ (1 + 1074)) as Hle.
    { eapply Z.le_trans; [|exact H]. unfold scaled.
      rewrite (Z.pow_add_r 2 (d - 1) (e + 1074)) by lia.
      apply Z.mul_le_mono_nonneg_r; [apply Z.pow_nonneg; lia | exact Hlo]. }
    apply Z.pow_le_mono_r_iff in Hle; lia. }
  assert (e <= -51) as He51 by lia.
  unfold SFleb, SFcompare, SF_two.
  destruct (Z.compare_spec e (-51)) as [Heq | Hlt | Hgt]; [|reflexivity | lia].
  subst e.
  apply scaled_le_inv in H; [|lia]. change (2 ^ (1 - -51)) with 4503599627370496 in H.
  rewrite Pos.compare_cont_spec. cbn [Pos.switch_Eq].
  destruct (Pos.compare_spec m 4503599627370496) as [| |Hgt]; try reflexivity.
  apply Pos2Z.pos_lt_pos in Hgt. clear - H Hgt. lia.
Qed.

(** *** The operations of the constructor *)

Lemma iter_xO (mx d : positive) : Z.pos (Pos.iter xO mx d) = Z.pos mx * 2 ^ Z.pos d.
Proof.
  induction d as [|d IH] using Pos.peano_ind.
  - cbn [Pos.iter]. rewrite Pos2Z.inj_xO. change (2 ^ 1) with 2. ring.
  - rewrite Pos.iter_succ, Pos2Z.inj_xO, IH, Pos2Z.inj_succ, Z.pow_succ_r by lia. ring.
Qed.

Lemma scaled_shl_align (mx : positive) (ex ex' : Z) :
  -1074 <= ex -> -1074 <= ex' ->
  -1074 <= snd (shl_align mx ex ex') /\
  scaled (Z.pos (fst (shl_align mx ex ex'))) (snd (shl_align mx ex ex')) = scaled (Z.pos mx) ex.
Proof.
  intros He He'. unfold shl_align.
  destruct (ex' - ex) as [|d|d] eqn:Hd; cbn [fst snd]; try (split; [lia | reflexivity]).
  split; [lia|]. rewrite iter_xO. unfold scaled.
  replace (ex + 1074) with (Z.pos d + (ex' + 1074)) by lia.
  rewrite (Z.pow_add_r 2 (Z.pos d) (ex' + 1074)) by lia. ring.
Qed.

Lemma ltb_0_positive (x : float) : PrimFloat.ltb 0 x = true -> positive_sf (Prim2SF x).
Proof.
  rewrite ltb_spec. change (Prim2SF 0) with (S754_zero false).
  destruct (Prim2SF x) as [s | [|] | | [|] m e]; cbn; intros H; try discriminate; exact I.
Qed.

Lemma ltb_finite_positive (x : float) :
  PrimFloat.ltb 0 x = true -> PrimFloat.ltb x infinity = true ->
  exists m e, Prim2SF x = S754_finite false m e.
Proof.
  intros H0 Hinf. apply ltb_0_positive in H0. rewrite ltb_spec in Hinf.
  change (Prim2SF infinity) with (S754_infinity false) in Hinf.
  destruct (Prim2SF x) as [s | [|] | | [|] m e]; cbn in H0, Hinf; try contradiction;
    try discriminate.
  eauto.
Qed.

Lemma SFmul_positive (a b : spec_float) :
  positive_sf a -> positive_sf b -> nonneg_sf (SFmul prec emax a b).
Proof.
  destruct a as [sa | [|] | | [|] ma ea]; cbn [positive_sf]; try contradiction;
    destruct b as [sb | [|] | | [|] mb eb]; cbn [positive_sf]; try contradiction;
    intros _ _; cbn [SFmul xorb nonneg_sf]; try reflexivity.
  destruct (binary_round_aux_sign false (Z.pos (ma * mb)) (ea + eb) loc_Exact ltac:(lia))
    as [-> | [-> | (p & e2 & ->)]]; cbn; auto.
Qed.

Lemma SFdiv_nonneg (a : spec_float) (mb : positive) (eb : Z) :
  nonneg_sf a -> nonneg_sf (SFdiv prec emax a (S754_finite false mb eb)).
Proof.
  destruct a as [sa | sa | | sa ma ea]; cbn [nonneg_sf]; try contradiction.
  - intros _. exact I.
  - intros ->. reflexivity.
  - intros ->. cbn [SFdiv xorb]. unfold SFdiv_core_binary.
    set (m' := match _ with Z.pos _ => _ | Z0 => _ | Z.neg _ => _ end).
    assert (0 <= m') as Hm'.
    { subst m'. destruct (_ - _) as [|s|s]; [lia | | lia].
      rewrite Z.shiftl_mul_pow2 by lia. apply Z.mul_nonneg_nonneg; [lia|].
      apply Z.pow_nonneg. lia. }
    pose proof (Z.div_pos m' (Z.pos mb) Hm' ltac:(lia)) as Hq.
    unfold Z.div in Hq. destruct (Z.div_eucl m' (Z.pos mb)) as [q r].
    destruct (binary_round_aux_sign false q
                (Z.min (fexp prec emax (Zdigits2 (Z.pos ma) + ea - (Zdigits2 (Z.pos mb) + eb)))
                   (ea - eb)) (new_location (Z.pos mb) r) Hq)
      as [-> | [-> | (p & e2 & ->)]]; cbn; auto.
Qed.

Lemma shl_align_le (mx : positive) (ex ex' : Z) :
  ex' <= ex -> snd (shl_align mx ex ex') = ex'.
Proof.
  intros H. unfold shl_align. destruct (ex' - ex) as [|d|d] eqn:Hd; cbn [snd]; lia.
Qed.

Lemma binary_round_lower (sx : bool) (mx : positive) (ex j : Z) :
  -1074 <= ex -> -1074 <= j ->
  2 ^ (j + 1074) <= scaled (Z.pos mx) ex ->
  binary_round prec emax sx mx ex = S754_infinity sx \/
  exists p e2,
    binary_round prec emax sx mx ex = S754_finite sx p e2 /\
    -1074 <= e2 /\ 2 ^ (j + 1074) <= scaled (Z.pos p) e2.
Proof.
  intros He Hj H. unfold binary_round.
  destruct (scaled_shl_align mx ex (fexp prec emax (Z.pos (digits2_pos mx) + ex)) He)
    as (He' & HV); [rewrite fexp_eq; lia|].
  destruct (shl_align mx ex _) as [mz ez]. cbn [fst snd] in He', HV.
  apply binary_round_aux_lower; [lia | exact He' | exact Hj | rewrite HV; exact H].
Qed.

Lemma of_uint_positive (L : Z) :
  0 < L <= 4294967295 ->
  positive_sf (Prim2SF (of_uint63 (Uint63.of_Z L))).
Proof.
  intros HL. rewrite of_uint63_spec, Uint63.of_Z_spec.
  rewrite Z.mod_small by (change Uint63Axioms.wB with 9223372036854775808; lia).
  destruct L as [|p|p]; try lia. cbn [binary_normalize].
  destruct (binary_round_lower false p 0 0) as [-> | (q & e2 & -> & _)];
    [lia | lia | | exact I | exact I].
  apply scaled_ge_intro; [lia|]. change (2 ^ (0 - 0)) with 1. lia.
Qed.

Lemma SFadd_half (a : spec_float) :
  nonneg_sf a ->
  (forall s m e, a = S754_finite s m e -> -1074 <= e) ->
  at_least_half (SFadd prec emax a SF_half).
Proof.
  assert (2 ^ (-1 + 1074) <= scaled 4503599627370496 (-53)) as Hhalf.
  { apply scaled_ge_intro; [lia|]. change (2 ^ (-1 - -53)) with 4503599627370496. lia. }
  destruct a as [sa | sa | | sa ma ea]; cbn [nonneg_sf]; try contradiction.
  - intros _ _. right. exists 4503599627370496%positive, (-53).
    split; [reflexivity|]. split; [lia | exact Hhalf].
  - intros -> _. left. reflexivity.
  - intros -> Hv. specialize (Hv false ma ea eq_refl).
    unfold SF_half. cbn [SFadd cond_Zopp].
    set (ez := Z.min ea (-53)).
    destruct (scaled_shl_align 4503599627370496 (-53) ez ltac:(lia) ltac:(lia)) as (_ & HV).
    rewrite (shl_align_le 4503599627370496 (-53) ez) in HV by lia.
    set (a := fst (shl_align ma ea ez)) in *.
    set (b := fst (shl_align 4503599627370496 (-53) ez)) in *.
    change (Z.pos a + Z.pos b) with (Z.pos (a + b)). cbn [binary_normalize].
    apply (binary_round_lower false (a + b) ez (-1)); [lia | lia |].
    rewrite <- HV in Hhalf. eapply Z.le_trans; [exact Hhalf|].
    apply scaled_mono; lia.
Qed.

Lemma new_location_exact (nb : Z) : new_location nb 0 = loc_Exact.
Proof. unfold new_location. destruct (Z.even nb); reflexivity. Qed.

Lemma SFdiv_one (y : spec_float) :
  at_least_half y ->
  (forall s m e, y = S754_finite s m e -> e <= 971) ->
  at_most_two (SFdiv prec emax SF_one y).
Proof.
  intros [-> | (my & ey & -> & Hey & H)] Hv; [left; reflexivity|].
  specialize (Hv false my ey eq_refl).
  pose proof (digits2_pos_bounds my) as (_ & Hhi).
  assert (0 <= Zdigits2 (Z.pos my) + ey) as Hk.
  { cbn [Zdigits2]. set (d := Z.pos (digits2_pos my)) in *.
    assert (2 ^ (-1 + 1074) < 2 ^ (d + (ey + 1074))) as Hlt.
    { eapply Z.le_lt_trans; [exact H|]. unfold scaled.
      rewrite (Z.pow_add_r 2 d (ey + 1074)) by lia.
      apply Z.mul_lt_mono_pos_r; [apply pow2_pos; lia | exact Hhi]. }
    apply Z.pow_lt_mono_r_iff in Hlt; lia. }
  unfold SF_one. cbn [SFdiv xorb]. unfold SFdiv_core_binary.
  change (Zdigits2 (Z.pos 4503599627370496)) with 53.
  set (e' := Z.min (fexp prec emax (53 + -52 - (Zdigits2 (Z.pos my) + ey))) (-52 - ey)).
  assert (-1074 <= e' /\ e' <= -52 /\ e' <= -52 - ey) as (He'lo & He'hi & He'ey).
  { subst e'. rewrite fexp_eq. lia. }
  set (m' := match -52 - ey - e' with Z.pos _ => _ | Z0 => _ | Z.neg _ => _ end).
  assert (m' = 2 ^ (- ey - e')) as Hm'.
  { subst m'. destruct (-52 - ey - e') as [|s|s] eqn:Hs; [| | lia].
    - replace (- ey - e') with 52 by lia. reflexivity.
    - rewrite Z.shiftl_mul_pow2 by lia. rewrite <- Hs.
      change 4503599627370496 with (2 ^ 52). rewrite <- Z.pow_add_r by lia.
      f_equal. lia. }
  assert (m' <= Z.pos my * 2 ^ (1 - e')) as Hle.
  { rewrite Hm'. destruct (Z_le_gt_dec ey (-1)) as [Hneg | Hpos].
    - apply scaled_ge_inv in H; [|lia].
      replace (- ey - e') with ((-1 - ey) + (1 - e')) by lia.
      rewrite Z.pow_add_r by lia.
      apply Z.mul_le_mono_nonneg_r; [apply Z.pow_nonneg; lia | exact H].
    - apply Z.le_trans with (1 * 2 ^ (1 - e')).
      + rewrite Z.mul_1_l. apply Z.pow_le_mono_r; lia.
      + apply Z.mul_le_mono_nonneg_r; [apply Z.pow_nonneg; lia | lia]. }
  assert (0 < m') as Hm'pos by (rewrite Hm'; apply pow2_pos; lia).
  assert (fst (Z.div_eucl m' (Z.pos my)) = m' / Z.pos my) as Hq by reflexivity.
  assert (snd (Z.div_eucl m' (Z.pos my)) = m' mod Z.pos my) as Hr by reflexivity.
  destruct (Z.div_eucl m' (Z.pos my)) as [q r]. cbn [fst snd] in Hq, Hr.
  assert (0 <= q) as Hq0 by (rewrite Hq; apply Z.div_pos; lia).
  pose proof (pow2_pos (1 - e') ltac:(lia)) as HB.
  destruct (binary_round_aux_upper false q e' (new_location (Z.pos my) r) 1)
    as [-> | (p & e2 & -> & He2 & Hp)]; [exact Hq0 | lia | lia | | | left; reflexivity | ].
  - apply scaled_le_intro; [lia|]. rewrite Hq.
    apply Z.div_le_upper_bound; [lia | exact Hle].
  - intros Hl. apply scaled_le_intro; [lia|].
    assert (r <> 0) as Hr0 by (intros ->; apply Hl, new_location_exact).
    assert (m' <> Z.pos my * 2 ^ (1 - e')) as Hne.
    { intros Heq. apply Hr0. rewrite Hr, Heq, Z.mul_comm. apply Z.mod_mul. lia. }
    assert (q < 2 ^ (1 - e')); [|lia].
    rewrite Hq. apply Z.div_lt_upper_bound; lia.
  - right. exists p, e2. split; [reflexivity|]. split; [exact He2 | exact Hp].
Qed.

Lemma Prim2SF_exponent_min (x : float) :
  forall s m e, Prim2SF x = S754_finite s m e -> -1074 <= e.
Proof. intros s m e H. eapply canonical_exponent, valid_finite, H. Qed.

Lemma Prim2SF_exponent_max (x : float) :
  forall s m e, Prim2SF x = S754_finite s m e -> e <= 971.
Proof. intros s m e H. apply valid_finite in H as (_ & H). exact H. Qed.

(** The bounds of the relaxation time and of the collision frequency, for
    the values that the constructor computes in binary64. *)
Lemma relaxation_floats (Re U cs2 : float) (L : Z) :
  PrimFloat.ltb 0 Re = true -> PrimFloat.ltb Re infinity = true ->
  PrimFloat.ltb 0 U = true ->
  0 < L <= 4294967295 ->
  PrimFloat.ltb 0 cs2 = true -> PrimFloat.ltb cs2 infinity = true ->
  let TAU := (U * of_uint63 (Uint63.of_Z L) / Re / cs2 + 1 / 2)%float in
  PrimFloat.leb 0.5 TAU = true /\
  PrimFloat.leb 0 (1 / TAU) = true /\
  PrimFloat.leb (1 / TAU) 2 = true.
Proof.
  intros HRe0 HRe HU HL Hcs0 Hcs TAU.
  destruct (ltb_finite_positive Re HRe0 HRe) as (mr & er & HRe').
  destruct (ltb_finite_positive cs2 Hcs0 Hcs) as (mc & ec & Hcs').
  assert (nonneg_sf (Prim2SF (U * of_uint63 (Uint63.of_Z L)))) as H1.
  { rewrite mul_spec. apply SFmul_positive; [apply ltb_0_positive, HU | apply of_uint_positive, HL]. }
  assert (nonneg_sf (Prim2SF (U * of_uint63 (Uint63.of_Z L) / Re))) as H2.
  { rewrite div_spec, HRe'. apply SFdiv_nonneg, H1. }
  assert (nonneg_sf (Prim2SF (U * of_uint63 (Uint63.of_Z L) / Re / cs2))) as H3.
  { rewrite div_spec, Hcs'. apply SFdiv_nonneg, H2. }
  assert (at_least_half (Prim2SF TAU)) as HTAU.
  { subst TAU. rewrite add_spec. change (Prim2SF (1 / 2)) with SF_half.
    apply SFadd_half; [exact H3 | apply Prim2SF_exponent_min]. }
  assert (at_most_two (Prim2SF (1 / TAU))) as HOM.
  { rewrite div_spec. change (Prim2SF 1) with SF_one.
    apply SFdiv_one; [exact HTAU | apply Prim2SF_exponent_max]. }
  rewrite !leb_spec.
  change (Prim2SF 0.5) with SF_half. change (Prim2SF 0) with (S754_zero false).
  change (Prim2SF 2) with SF_two.
  split; [|split].
  - destruct HTAU as [-> | (m & e & Heq & _ & Hm)]; [reflexivity|].
    rewrite Heq. apply SFleb_half_finite; [eapply valid_finite, Heq | exact Hm].
  - destruct HOM as [-> | (m & e & -> & _)]; reflexivity.
  - destruct HOM as [-> | (m & e & Heq & _ & Hm)]; [reflexivity|].
    rewrite Heq. apply SFleb_finite_two; [eapply valid_finite, Heq | exact Hm].
Qed.

(** C5, as amended: in the binary64 arithmetic of the program, a Population
    constructed with a finite [Re > 0], with [U > 0] and [L > 0], over a
    lattice whose squared speed of sound is positive and finite, has
    [TAU_ >= 1/2] and [OMEGA_ = 1/TAU_] (the rounded quotient) in the closed
    interval [[0,2]], where [TAU_] is [U*L/Re] divided by the squared speed
    of sound plus [1/2], each operation rounded. *)
Theorem relaxation_binary64 (LT : lattice float) (buf : list float) (Re U : float) (L : Z)
    (LAMBDA : float) :
  PrimFloat.ltb 0 Re = true -> PrimFloat.ltb Re infinity = true ->
  PrimFloat.ltb 0 U = true ->
  0 < L <= UINT_MAX ->
  PrimFloat.ltb 0 (CS LT * CS LT) = true ->
  PrimFloat.ltb (CS LT * CS LT) infinity = true ->
  exists pop,
    Population.ctor LT (Some buf) Re U L LAMBDA = ([], Done pop) /\
    Population.TAU_ pop
      = (U * of_uint63 (Uint63.of_Z L) / Re / (CS LT * CS LT) + 1 / 2)%float /\
    PrimFloat.leb 0.5 (Population.TAU_ pop) = true /\
    Population.OMEGA_ pop = (1 / Population.TAU_ pop)%float /\
    PrimFloat.leb 0 (Population.OMEGA_ pop) = true /\
    PrimFloat.leb (Population.OMEGA_ pop) 2 = true.
Proof.
  intros HRe0 HRe HU HL Hcs0 Hcs.
  assert (0 < L <= 4294967295) as HL' by (unfold UINT_MAX in HL; lia).
  destruct (relaxation_floats Re U (CS LT * CS LT) L HRe0 HRe HU HL' Hcs0 Hcs)
    as (HTAU & HOM0 & HOM2).
  eexists. split; [reflexivity|].
  cbn [Population.TAU_ Population.OMEGA_].
  unfold Population.init_OMEGA, Population.init_TAU, Population.init_NU.
  cbn [fadd fsub fmul fdiv of_uint f_one f_two Floating_double].
  split; [reflexivity|]. split; [exact HTAU|]. split; [reflexivity|].
  split; [exact HOM0 | exact HOM2].
Qed.

(** The parameters and the lattice of [main]. *)
Lemma relaxation_binary64_main :
  (PrimFloat.ltb 0 Main.Re = true /\ PrimFloat.ltb Main.Re infinity = true /\
   PrimFloat.ltb 0 Main.U = true /\ 0 < Main.L <= UINT_MAX /\
   PrimFloat.ltb 0 (CS Main.D3Q27 * CS Main.D3Q27) = true /\
   PrimFloat.ltb (CS Main.D3Q27 * CS Main.D3Q27) infinity = true) /\
  exists pop,
    Population.ctor Main.D3Q27 (Some []) Main.Re Main.U Main.L f_quarter = ([], Done pop) /\
    Population.TAU_ pop
      = (Main.U * of_uint63 (Uint63.of_Z Main.L) / Main.Re
         / (CS Main.D3Q27 * CS Main.D3Q27) + 1 / 2)%float /\
    PrimFloat.leb 0.5 (Population.TAU_ pop) = true /\
    Population.OMEGA_ pop = (1 / Population.TAU_ pop)%float /\
    PrimFloat.leb 0 (Population.OMEGA_ pop) = true /\
    PrimFloat.leb (Population.OMEGA_ pop) 2 = true.
Proof.
  split.
  { split; [reflexivity|]. split; [reflexivity|]. split; [reflexivity|].
    split; [vm_compute; split; [reflexivity | discriminate]|].
    split; reflexivity. }
  apply (relaxation_binary64 Main.D3Q27 [] Main.Re Main.U Main.L f_quarter);
    [reflexivity | reflexivity | reflexivity
    | vm_compute; split; [reflexivity | discriminate]
    | reflexivity | reflexivity].
Defined.

(** C5 as stated fails in binary64: with [Re = 1e200], [U = 1e-200] and
    [L = 1], all positive, [U*L/Re] underflows to zero, so that [TAU_] is
    exactly [1/2] and [OMEGA_] exactly [2]. *)
Lemma relaxation_rounds_to_half :
  PrimFloat.ltb 0 1e200 = true /\ PrimFloat.ltb 0 1e-200 = true /\ 0 < 1 /\
  exists pop,
    Population.ctor Main.D3Q27 (Some []) 1e200%float 1e-200%float 1 0.25%float
      = ([], Done pop) /\
    Population.TAU_ pop = 0.5%float /\
    Population.OMEGA_ pop = 2%float /\
    PrimFloat.ltb 0.5 (Population.TAU_ pop) = false /\
    PrimFloat.ltb (Population.OMEGA_ pop) 2 = false.
Proof.
  split; [reflexivity|]. split; [reflexivity|]. split; [lia|].
  eexists. split; [reflexivity|]. repeat split; vm_compute; reflexivity.
Qed.

(** The other end of the interval is reached as well: with [U = 1e308] and
    [L = 19] the product [U*L] overflows, [TAU_] is [+infinity] and
    [OMEGA_] is [0]. *)
Lemma relaxation_overflows_to_zero :
  exists pop,
    Population.ctor Main.D3Q27 (Some []) 1000%float 1e308%float 19 0.25%float
      = ([], Done pop) /\
    Population.TAU_ pop = infinity /\
    Population.OMEGA_ pop = 0%float.
Proof. eexists. split; [reflexivity|]. split; vm_compute; reflexivity. Qed.

(** An infinite Reynolds number is outside of the amended claim: with
    [Re = U = +infinity] the quotient is a NaN and no bound holds. *)
Lemma relaxation_nan_at_infinity :
  exists pop,
    Population.ctor Main.D3Q27 (Some []) infinity infinity 1 0.25%float = ([], Done pop) /\
    PrimFloat.leb 0.5 (Population.TAU_ pop) = false /\
    PrimFloat.leb (Population.OMEGA_ pop) 2 = false.
Proof. eexists. split; [reflexivity|]. split; vm_compute; reflexivity. Qed.

(** In binary64 and with the parameters of [main] the bounds hold:
    [TAU_] is [0.50285...] and [OMEGA_] is the rounded quotient [1/TAU_]. *)
Lemma relaxation_main :
  exists pop,
    Population.ctor Main.D3Q27 (Some []) Main.Re Main.U Main.L f_quarter = ([], Done pop) /\
    PrimFloat.ltb 0.5 (Population.TAU_ pop) = true /\
    Population.OMEGA_ pop = (1 / Population.TAU_ pop)%float /\
    PrimFloat.ltb 0 (Population.OMEGA_ pop) = true /\
    PrimFloat.ltb (Population.OMEGA_ pop) 2 = true.
Proof.
  eexists. split; [reflexivity|]. repeat split; vm_compute; reflexivity.
Qed.

(** ** The command surface *)

Lemma switches_first_argument name arg rest :
  Main.switches (name :: arg :: rest) =
  if String.eqb arg "--version" || String.eqb arg "--v" then
    ([PrintDisclaimer], Exited EXIT_SUCCESS)
  else if String.eqb arg "--convert" then
    ([Print Cerr "Error: Feature not implemented yet."], Exited EXIT_FAILURE)
  else if String.eqb arg "--info" || String.eqb arg "--help" then
    ([Print Cerr "Usage: '--convert'             Convert *.bin files to *.vtk";
      Print Cerr "       '--help'    or '--info' Show help";
      Print Cerr "       '--version' or '--v'    Show build version"],
     Exited EXIT_SUCCESS)
  else ([], Done tt).
Proof.
  unfold Main.switches.
  destruct (Z.ltb_spec 1 (Z.of_nat (length (name :: arg :: rest)))) as [_ | H];
    [|cbn [length] in H; lia].
  cbn [nth].
  destruct (String.eqb arg "--version" || String.eqb arg "--v"); [reflexivity|].
  destruct (String.eqb arg "--convert"); [reflexivity|].
  destruct (String.eqb arg "--info" || String.eqb arg "--help"); reflexivity.
Qed.

Lemma main_switch env name arg rest t status :
  Main.switches (name :: arg :: rest) = (t, Exited status) ->
  Main.main env (name :: arg :: rest) = (Main.startup_events env ++ t, Exited status).
Proof.
  intros H. unfold Main.main, Main.startup_events. rewrite H.
  destruct (Main.openmp env); reflexivity.
Qed.

(** The run of the simulation when both buffers are allocated. *)
Lemma simulation_runs env bufM bufF :
  Main.alloc_Macro env = Some bufM ->
  Z.of_nat (length bufM) = Continuum.length_ Main.domain ->
  Main.alloc_Micro env = Some bufF ->
  Main.simulation env =
  ([InitialOutput; ExportParameters; Cylinder3D; InitLattice false;
    Print Cout "Simulation started..."; Timer_Start]
   ++ trace (Main.main_loop Main.NT Main.save 0)
   ++ [Timer_Stop; PerformanceOutput; Print Cout "See you, comrade!"],
   Done EXIT_SUCCESS).
Proof.
  intros HM Hlen HF.
  destruct (InitContinuum_frame Main.domain Main.RHO_0 Main.U_0 Main.V_0 Main.W_0
              {| Continuum.M_ := Some bufM |}) as (con' & Hinit & _);
    [vm_compute; discriminate | vm_compute; discriminate | vm_compute; discriminate
    | exists bufM; split; [reflexivity | exact Hlen] |].
  destruct NT_steps as (Hnt & Hmax & _).
  unfold Main.simulation. rewrite HM, HF.
  unfold Continuum.ctor, Population.ctor, Population.dtor.
  cbn [bind emit ret lift]. rewrite Hinit.
  rewrite main_loop_unroll by lia. cbn [trace fst].
  generalize (Main.indices Main.NT 0 ≫= Main.iteration_events Main.NT Main.save).
  intros l. cbn [bind emit ret lift app]. reflexivity.
Qed.

(** C8: with first argument [--version] or [--v] the program prints the
    build information and exits with status 0; with [--help] or [--info] it
    prints the usage and exits with status 0; with [--convert] it reports an
    error and exits with status 1, and nothing else is attempted: in these
    runs nothing is allocated.  With no arguments, and the two buffers
    allocated, it runs the simulation to completion and returns 0: the set-up
    calls, then the [NT/2] iterations of the time loop, each its even and
    its odd parity pass and the export that is due, then the closing calls. *)
Theorem command_surface (env : Main.environment) (name : string) (rest : list string) :
  Main.main env (name :: "--version" :: rest)%string =
    (Main.startup_events env ++ [PrintDisclaimer], Exited 0) /\
  Main.main env (name :: "--v" :: rest)%string =
    (Main.startup_events env ++ [PrintDisclaimer], Exited 0) /\
  Main.main env (name :: "--help" :: rest)%string =
    (Main.startup_events env ++
     [Print Cerr "Usage: '--convert'             Convert *.bin files to *.vtk";
      Print Cerr "       '--help'    or '--info' Show help";
      Print Cerr "       '--version' or '--v'    Show build version"], Exited 0) /\
  Main.main env (name :: "--info" :: rest)%string =
    (Main.startup_events env ++
     [Print Cerr "Usage: '--convert'             Convert *.bin files to *.vtk";
      Print Cerr "       '--help'    or '--info' Show help";
      Print Cerr "       '--version' or '--v'    Show build version"], Exited 0) /\
  Main.main env (name :: "--convert" :: rest)%string =
    (Main.startup_events env ++ [Print Cerr "Error: Feature not implemented yet."], Exited 1) /\
  forall bufM bufF : list float,
    Main.alloc_Macro env = Some bufM ->
    Z.of_nat (length bufM) = Continuum.length_ Main.domain ->
    Main.alloc_Micro env = Some bufF ->
    Main.main env [name] =
      (Main.startup_events env ++
       [InitialOutput; ExportParameters; Cylinder3D; InitLattice false;
        Print Cout "Simulation started..."; Timer_Start]
       ++ (Main.indices Main.NT 0 ≫= Main.iteration_events Main.NT Main.save)
       ++ [Timer_Stop; PerformanceOutput; Print Cout "See you, comrade!"],
       Done 0).
Proof.
  repeat (split; [apply main_switch; rewrite switches_first_argument; reflexivity|]).
  intros bufM bufF HM Hlen HF.
  destruct NT_steps as (Hnt & Hmax & _).
  unfold Main.main. rewrite (simulation_runs env bufM bufF HM Hlen HF).
  rewrite main_loop_unroll by lia. cbn [trace fst].
  generalize (Main.indices Main.NT 0 ≫= Main.iteration_events Main.NT Main.save). intros l.
  unfold Main.startup_events. destruct (Main.openmp env); reflexivity.
Qed.

(** A run of [main] in which both buffers are allocated. *)
Lemma command_surface_allocating :
  (Main.alloc_Macro Main.allocating =
     Some (replicate (Z.to_nat (Continuum.length_ Main.domain)) PrimFloat.nan) /\
   Z.of_nat (length (replicate (Z.to_nat (Continuum.length_ Main.domain)) PrimFloat.nan))
     = Continuum.length_ Main.domain /\
   Main.alloc_Micro Main.allocating =
     Some (replicate (Z.to_nat (Population.length_ Main.domain Main.D3Q27 1)) PrimFloat.nan)) /\
  Main.main Main.allocating ["LB-t"; "--convert"]%string =
    (Main.startup_events Main.allocating ++ [Print Cerr "Error: Feature not implemented yet."],
     Exited 1) /\
  Main.main Main.allocating ["LB-t"]%string =
    (Main.startup_events Main.allocating ++
     [InitialOutput; ExportParameters; Cylinder3D; InitLattice false;
      Print Cout "Simulation started..."; Timer_Start]
     ++ (Main.indices Main.NT 0 ≫= Main.iteration_events Main.NT Main.save)
     ++ [Timer_Stop; PerformanceOutput; Print Cout "See you, comrade!"],
     Done 0).
Proof.
  assert (Z.of_nat (length (replicate (Z.to_nat (Continuum.length_ Main.domain)) PrimFloat.nan))
          = Continuum.length_ Main.domain) as Hlen.
  { rewrite length_replicate. apply Z2Nat.id. vm_compute. discriminate. }
  split; [split; [reflexivity | split; [exact Hlen | reflexivity]]|].
  pose proof (command_surface Main.allocating "LB-t" []) as (_ & _ & _ & _ & Hconvert & Hrun).
  split; [exact Hconvert|].
  exact (Hrun (replicate (Z.to_nat (Continuum.length_ Main.domain)) PrimFloat.nan)
           (replicate (Z.to_nat (Population.length_ Main.domain Main.D3Q27 1)) PrimFloat.nan)
           eq_refl Hlen eq_refl).
Defined.

(** The indexing of the population field of [main]. *)
Lemma indexing_bijection_main :
  (ND Main.D3Q27 = 2 * OFF Main.D3Q27 /\
   0 <= NX Main.domain /\ 0 <= NY Main.domain /\ 0 <= NZ Main.domain /\
   0 <= 1 /\ 0 <= OFF Main.D3Q27) /\
  (forall x y z n dd p,
     Population.valid Main.domain Main.D3Q27 1 x y z n dd p ->
     0 <= Population.SpatialToLinear Main.domain Main.D3Q27 1 x y z n dd p
       < Population.length_ Main.domain Main.D3Q27 1 /\
     Population.LinearToSpatial Main.domain Main.D3Q27 1
       (Population.SpatialToLinear Main.domain Main.D3Q27 1 x y z n dd p)
     = (x, y, z, p, n, dd)) /\
  Population.LinearToSpatial Main.domain Main.D3Q27 1 49545215 = (191, 95, 95, 0, 1, 13).
Proof.
  split; [repeat split; vm_compute; congruence|].
  split; [|reflexivity].
  apply (indexing_bijection Main.domain Main.D3Q27 1); vm_compute; congruence.
Defined.

Lemma uniform_loaded v odd x y z i :
  0 <= x < 192 -> 0 <= y < 96 -> 0 <= z < 96 -> 0 <= i < 28 ->
  Population.loaded Main.D3Q27 Main.own_slot (Main.uniform v) odd
    (x - 1, x, x + 1) (y - 1, y, y + 1) (z - 1, z, z + 1) 0 i = Some v.
Proof.
  intros Hx Hy Hz Hi.
  unfold Population.loaded, Main.own_slot, Population.F_read, Main.uniform.
  cbn [Population.F_ fst snd].
  assert (Population.valid Main.domain Main.D3Q27 1 x y z
            (i / OFF Main.D3Q27) (i mod OFF Main.D3Q27) 0) as Hv.
  { unfold Population.valid, Main.domain, Main.D3Q27. cbn [NX NY NZ OFF]. lia_div. }
  pose proof (Population_SpatialToLinear_range Main.domain Main.D3Q27 1 eq_refl _ _ _ _ _ _ Hv)
    as Hr.
  unfold rd.
  destruct (Z.ltb_spec (Population.SpatialToLinear Main.domain Main.D3Q27 1 x y z
                          (i / OFF Main.D3Q27) (i mod OFF Main.D3Q27) 0) 0); [lia|].
  apply lookup_replicate_2. lia.
Qed.

(** [Load] of the cell [(5,6,7)] of a population of [main], into an array
    that holds other values. *)
Lemma Load_zeroes_OFF_main :
  (0 < OFF Main.D3Q27 /\ ND Main.D3Q27 = 2 * OFF Main.D3Q27 /\ ND Main.D3Q27 <= UINT_MAX /\
   Z.of_nat (length (replicate 28 PrimFloat.nan)) = ND Main.D3Q27 /\
   (forall i, 0 <= i < ND Main.D3Q27 ->
      is_Some (Population.loaded Main.D3Q27 Main.own_slot (Main.uniform 1%float) true
                 (4, 5, 6) (5, 6, 7) (6, 7, 8) 0 i))) /\
  exists f',
    Population.Load Main.D3Q27 Main.own_slot (Main.uniform 1%float) true
      (4, 5, 6) (5, 6, 7) (6, 7, 8) (replicate 28 PrimFloat.nan) 0 = Some f' /\
    rd f' (OFF Main.D3Q27) = Some 0%float /\
    rd f' 13 = Some 1%float /\ rd f' 15 = Some 1%float.
Proof.
  assert (forall i, 0 <= i < ND Main.D3Q27 ->
            Population.loaded Main.D3Q27 Main.own_slot (Main.uniform 1%float) true
              (4, 5, 6) (5, 6, 7) (6, 7, 8) 0 i = Some 1%float) as Hloaded.
  { intros i Hi. apply (uniform_loaded 1%float true 5 6 7 i); [lia | lia | lia | exact Hi]. }
  assert (forall i, 0 <= i < ND Main.D3Q27 ->
            is_Some (Population.loaded Main.D3Q27 Main.own_slot (Main.uniform 1%float) true
                       (4, 5, 6) (5, 6, 7) (6, 7, 8) 0 i)) as Hdef.
  { intros i Hi. rewrite (Hloaded i Hi). eexists; reflexivity. }
  split.
  { split; [reflexivity|]. split; [reflexivity|]. split; [vm_compute; discriminate|].
    split; [reflexivity | exact Hdef]. }
  destruct (Load_zeroes_OFF Main.D3Q27 Main.own_slot (Main.uniform 1%float) true
              (4, 5, 6) (5, 6, 7) (6, 7, 8) 0 (replicate 28 PrimFloat.nan))
    as (f' & Hrun & _ & Hzero & Hrest & _);
    [reflexivity | reflexivity | vm_compute; discriminate | reflexivity | exact Hdef |].
  exists f'. split; [exact Hrun|]. split; [exact Hzero|].
  split; (rewrite Hrest; [apply Hloaded | |]; unfold Main.D3Q27; cbn [ND OFF]; lia).
Defined.

(** With no arguments and the allocation of the population field failing,
    [main] reports the failure and exits with [EXIT_FAILURE] before the
    simulation starts. *)
Lemma main_aborts_without_population (om : bool) (alloc : option (list float))
    (name : string) :
  result (Main.main {| Main.openmp := om; Main.alloc_Macro := alloc;
                       Main.alloc_Micro := None |} [name]) = Exited 1 /\
  List.filter Main.is_pass_event
    (trace (Main.main {| Main.openmp := om; Main.alloc_Macro := alloc;
                         Main.alloc_Micro := None |} [name])) = [].
Proof. destruct om, alloc; split; reflexivity. Qed.

(** * Part III: further properties of the embedded code *)

(** ** [Population::Store] *)

Section StoreFacts.
Context {T : Type} {FT : Floating T}.
Variable LT : lattice T.
Variable AA_IndexWrite : bool -> Z * Z * Z -> Z * Z * Z -> Z * Z * Z -> Z -> Z -> Z -> Z.
Variable odd : bool.
Variables x y z : Z * Z * Z.
Variable p : Z.
Variable f : list T.
Variable pop : @Population.t T.
Variable F : list T.

Local Abbreviation widx := (Population.write_index LT AA_IndexWrite odd x y z p).

Hypothesis HOFF : 0 < OFF LT.
Hypothesis HND : ND LT = 2 * OFF LT.
Hypothesis Huint : ND LT <= UINT_MAX.
Hypothesis Hlen : Z.of_nat (length f) = ND LT.
Hypothesis HF : Population.F_ pop = Some F.
Hypothesis Hbounds : forall j, 0 <= j < ND LT -> 0 <= widx j < Z.of_nat (length F).

Local Abbreviation stored := (Population.stored LT AA_IndexWrite odd x y z p f F pop).

Lemma stored_start : stored 0 pop.
Proof.
  split; [repeat split|]. exists F. split; [exact HF|]. split; [reflexivity|].
  split; [reflexivity | intros j Hj; lia].
Qed.

Lemma store_one_stored n dd q :
  0 <= n < 2 -> 0 <= dd < OFF LT ->
  stored (n * OFF LT + dd) q ->
  exists q', Population.store_one LT AA_IndexWrite odd x y z f p n dd q = Some q' /\
             stored (n * OFF LT + (dd + 1)) q'.
Proof.
  intros Hn Hdd (Hpar & Fk & HFk & Hlenk & Hframe & Hval).
  set (k := n * OFF LT + dd) in *.
  assert (0 <= n * OFF LT <= OFF LT) as Hn' by nia.
  assert (0 <= k < ND LT) as Hk by (unfold k; lia).
  destruct (half_direction LT n dd Hdd) as (Hq & Hr). fold k in Hq, Hr.
  assert (widx k = AA_IndexWrite odd x y z n dd p) as Hw
    by (unfold Population.write_index; rewrite Hq, Hr; reflexivity).
  assert (exists v, rd f k = Some v) as (v & Hv).
  { unfold rd. destruct (Z.ltb_spec k 0); [lia|].
    apply lookup_lt_is_Some_2. lia. }
  assert (wr Fk (widx k) v = Some (<[Z.to_nat (widx k) := v]> Fk)) as Hwr.
  { apply wr_Some. rewrite Hlenk. apply Hbounds, Hk. }
  unfold Population.store_one, Population.F_write.
  rewrite (wrap32_small (n * OFF LT)) by lia.
  rewrite (wrap32_small (n * OFF LT + dd)) by (fold k; lia).
  fold k. rewrite Hv, HFk, <- Hw, Hwr.
  eexists. split; [reflexivity|].
  split; [exact Hpar|].
  eexists. split; [reflexivity|]. split; [rewrite length_insert; exact Hlenk|].
  replace (n * OFF LT + (dd + 1)) with (k + 1) by (unfold k; lia).
  split.
  - intros i Hi. rewrite (rd_wr_ne _ _ i _ _ Hwr) by (apply Hi; lia).
    apply Hframe. intros j Hj. apply Hi. lia.
  - intros j Hj Hlast. destruct (Z.eq_dec j k) as [-> | Hne].
    + rewrite (rd_wr_eq _ _ _ _ Hwr). symmetry. exact Hv.
    + rewrite (rd_wr_ne _ _ (widx j) _ _ Hwr) by (apply Hlast; lia).
      apply Hval; [lia|]. intros j' Hj'. apply Hlast. lia.
Qed.

Lemma store_loops :
  exists q, Population.Store LT AA_IndexWrite pop odd x y z f p = Some q /\
            stored (ND LT) q.
Proof.
  unfold Population.Store.
  destruct (for_lt_invariant (fun n q => stored (n * OFF LT) q)
    (fun n => for_lt 0 (OFF LT) (fun dd =>
       Population.store_one LT AA_IndexWrite odd x y z f p n dd))
    0 (1 + 1) pop) as (q & Hrun & Hq).
  - lia.
  - exact stored_start.
  - intros n q0 Hn Hq0.
    destruct (for_lt_invariant (fun dd q => stored (n * OFF LT + dd) q)
      (fun dd => Population.store_one LT AA_IndexWrite odd x y z f p n dd)
      0 (OFF LT) q0) as (q1 & Hrun1 & Hq1).
    + lia.
    + replace (n * OFF LT + 0) with (n * OFF LT) by lia. exact Hq0.
    + intros dd q2 Hdd Hq2. apply store_one_stored; [lia | lia | exact Hq2].
    + exists q1. split; [exact Hrun1|].
      replace ((n + 1) * OFF LT) with (n * OFF LT + OFF LT) by lia. exact Hq1.
  - exists q. split; [exact Hrun|].
    replace (ND LT) with ((1 + 1) * OFF LT) by lia. exact Hq.
Qed.

End StoreFacts.

(** A loop is undefined as soon as one of its iterations is, on every state
    that the loop can be in. *)
Lemma for_lt_fails {S : Type} (I : S -> Prop) (body : Z -> S -> option S)
    (lo hi i0 : Z) (s : S) :
  lo <= i0 < hi -> I s ->
  (forall i s1 s2, body i s1 = Some s2 -> I s1 -> I s2) ->
  (forall s1, I s1 -> body i0 s1 = None) ->
  for_lt lo hi body s = None.
Proof.
  intros Hi0 Hs Hpres Hfail.
  remember (Z.to_nat (i0 - lo)) as n eqn:Hn. revert lo s Hi0 Hs Hn.
  induction n as [|n IH]; intros lo s Hi0 Hs Hn.
  - assert (lo = i0) as -> by lia.
    rewrite for_lt_step by lia. rewrite Hfail by exact Hs. reflexivity.
  - rewrite for_lt_step by lia.
    destruct (body lo s) as [s'|] eqn:Hb; [|reflexivity].
    apply IH; [lia | exact (Hpres lo s s' Hb Hs) | lia].
Qed.

Lemma for_lt_preserves {S : Type} (I : S -> Prop) (body : Z -> S -> option S)
    (lo hi : Z) (s s' : S) :
  (forall i s1 s2, body i s1 = Some s2 -> I s1 -> I s2) ->
  for_lt lo hi body s = Some s' -> I s -> I s'.
Proof.
  intros Hpres.
  remember (Z.to_nat (hi - lo)) as n eqn:Hn. revert lo s Hn.
  induction n as [|n IH]; intros lo s Hn Hrun Hs.
  - rewrite for_lt_done in Hrun by lia. injection Hrun as <-. exact Hs.
  - rewrite for_lt_step in Hrun by lia.
    destruct (body lo s) as [s1|] eqn:Hb; [|discriminate].
    apply (IH (lo + 1) s1); [lia | exact Hrun | exact (Hpres lo s s1 Hb Hs)].
Qed.

(** Whether one of the first [n] offsets is [i]. *)
Lemma offset_hit (w : Z -> Z) (n i : Z) :
  (exists j, 0 <= j < n /\ w j = i) \/ (forall j, 0 <= j < n -> w j <> i).
Proof.
  destruct (Z.le_gt_cases n 0) as [Hle | Hpos]; [right; intros j Hj; lia|].
  rewrite <- (Z2Nat.id n) by lia. generalize (Z.to_nat n). clear Hpos. intros m.
  induction m as [|m IH]; [right; intros j Hj; lia|].
  destruct IH as [(j & Hj & Hw) | Hnone].
  - left. exists j. split; [lia | exact Hw].
  - destruct (Z.eq_dec (w (Z.of_nat m)) i) as [Heq | Hne].
    + left. exists (Z.of_nat m). split; [lia | exact Heq].
    + right. intros j Hj. destruct (Z.eq_dec j (Z.of_nat m)) as [-> | Hjm];
        [exact Hne | apply Hnone; lia].
Qed.

(** X1.  [Store] writes the [2*OFF] elements of the local array to their
    offsets, in the order of the loops, and touches nothing else: the
    parameters and the length of the buffer are kept, every element that is
    not addressed keeps its value, and an offset holds the array element of
    the last assignment that addressed it. *)
Theorem Store_last_write_wins {T : Type} {FT : Floating T} (LT : lattice T)
    (AA_IndexWrite : bool -> Z * Z * Z -> Z * Z * Z -> Z * Z * Z -> Z -> Z -> Z -> Z)
    (pop : @Population.t T) (F : list T) (odd : bool) (x y z : Z * Z * Z) (p : Z)
    (f : list T) :
  0 < OFF LT -> ND LT = 2 * OFF LT -> ND LT <= UINT_MAX ->
  Z.of_nat (length f) = ND LT ->
  Population.F_ pop = Some F ->
  (forall j, 0 <= j < ND LT ->
     0 <= Population.write_index LT AA_IndexWrite odd x y z p j < Z.of_nat (length F)) ->
  exists q F',
    Population.Store LT AA_IndexWrite pop odd x y z f p = Some q /\
    Population.F_ q = Some F' /\
    Population.same_parameters q pop /\
    length F' = length F /\
    (forall i,
       (forall j, 0 <= j < ND LT ->
          Population.write_index LT AA_IndexWrite odd x y z p j <> i) ->
       rd F' i = rd F i) /\
    (forall j, 0 <= j < ND LT ->
       (forall j', j < j' < ND LT ->
          Population.write_index LT AA_IndexWrite odd x y z p j' <>
          Population.write_index LT AA_IndexWrite odd x y z p j) ->
       rd F' (Population.write_index LT AA_IndexWrite odd x y z p j) = rd f j).
Proof.
  intros HOFF HND Huint Hlen HF Hbounds.
  destruct (store_loops LT AA_IndexWrite odd x y z p f pop F HOFF HND Huint Hlen HF Hbounds)
    as (q & Hrun & Hpar & F' & HF' & Hlen' & Hframe & Hval).
  exists q, F'.
  split; [exact Hrun|]. split; [exact HF'|]. split; [exact Hpar|].
  split; [exact Hlen'|]. split; [exact Hframe | exact Hval].
Qed.

(** X2.  [Store] is undefined when the buffer is null or when one of the
    [2*OFF] offsets lies outside of the buffer: no object is returned. *)
Theorem Store_undefined {T : Type} {FT : Floating T} (LT : lattice T)
    (AA_IndexWrite : bool -> Z * Z * Z -> Z * Z * Z -> Z * Z * Z -> Z -> Z -> Z -> Z)
    (pop : @Population.t T) (odd : bool) (x y z : Z * Z * Z) (p : Z) (f : list T) (j : Z) :
  0 <= j < 2 * OFF LT ->
  match Population.F_ pop with
  | None => True
  | Some F =>
      ~ 0 <= Population.write_index LT AA_IndexWrite odd x y z p j < Z.of_nat (length F)
  end ->
  Population.Store LT AA_IndexWrite pop odd x y z f p = None.
Proof.
  intros Hj Hbad.
  assert (0 < OFF LT) as HOFF by lia.
  set (I := fun q : @Population.t T =>
              length <$> Population.F_ q = length <$> Population.F_ pop).
  assert (forall n dd q1 q2,
            Population.store_one LT AA_IndexWrite odd x y z f p n dd q1 = Some q2 ->
            I q1 -> I q2) as Hpres.
  { intros n dd q1 q2 Hstep Hq1. unfold I in *. rewrite <- Hq1.
    unfold Population.store_one, Population.F_write in Hstep.
    destruct (rd f _); [|discriminate].
    destruct (Population.F_ q1) as [F1|]; [|discriminate].
    destruct (wr F1 _ _) as [F2|] eqn:Hwr; [|discriminate].
    injection Hstep as <-. cbn. f_equal. apply (wr_length _ _ _ _ Hwr). }
  assert (0 <= j mod OFF LT < OFF LT) as Hr by (apply Z.mod_pos_bound; lia).
  assert (0 <= j / OFF LT < 1 + 1) as Hq.
  { split; [apply Z.div_pos; lia | apply Z.div_lt_upper_bound; lia]. }
  unfold Population.Store.
  apply (for_lt_fails I _ 0 (1 + 1) (j / OFF LT)); [exact Hq | reflexivity | |].
  - intros n q1 q2 Hrun Hq1.
    apply (for_lt_preserves I _ _ _ _ _ (Hpres n) Hrun Hq1).
  - intros q1 Hq1.
    apply (for_lt_fails I _ 0 (OFF LT) (j mod OFF LT)); [exact Hr | exact Hq1 | apply Hpres |].
    intros q2 Hq2. unfold Population.store_one, Population.F_write.
    destruct (rd f _); [|reflexivity].
    unfold I in Hq2. destruct (Population.F_ q2) as [F2|]; [|reflexivity].
    destruct (Population.F_ pop) as [F|]; [|discriminate].
    cbn in Hq2. injection Hq2 as Hlen.
    destruct (wr F2 _ _) as [F3|] eqn:Hwr; [|reflexivity].
    apply wr_inv in Hwr as (Hin & _). exfalso. apply Hbad.
    unfold Population.write_index. rewrite <- Hlen. exact Hin.
Qed.

(** X3.  [Load] is undefined as soon as one of the [2*OFF] elements that it
    reads is not an element of the buffer (the buffer is null, or the offset
    lies outside of it): no array is returned, whatever the other
    elements. *)
Theorem Load_undefined {T : Type} {FT : Floating T} (LT : lattice T)
    (AA_IndexRead : bool -> Z * Z * Z -> Z * Z * Z -> Z * Z * Z -> Z -> Z -> Z -> Z)
    (pop : @Population.t T) (odd : bool) (x y z : Z * Z * Z) (p : Z) (f : list T) (j : Z) :
  0 <= j < 2 * OFF LT ->
  Population.loaded LT AA_IndexRead pop odd x y z p j = None ->
  Population.Load LT AA_IndexRead pop odd x y z f p = None.
Proof.
  intros Hj Hbad.
  assert (0 <= j mod OFF LT < OFF LT) as Hr by (apply Z.mod_pos_bound; lia).
  assert (0 <= j / OFF LT < 1 + 1) as Hq.
  { split; [apply Z.div_pos; lia | apply Z.div_lt_upper_bound; lia]. }
  unfold Population.Load.
  rewrite (for_lt_fails (fun _ => True) _ 0 (1 + 1) (j / OFF LT)); auto.
  intros f1 _.
  apply (for_lt_fails (fun _ => True) _ 0 (OFF LT) (j mod OFF LT)); auto.
  intros f2 _. unfold Population.load_one.
  unfold Population.loaded in Hbad. rewrite Hbad. reflexivity.
Qed.

Section LoadStore.
Context {T : Type} {FT : Floating T}.
Variable LT : lattice T.
Variable AA_IndexRead : bool -> Z * Z * Z -> Z * Z * Z -> Z * Z * Z -> Z -> Z -> Z -> Z.
Variable AA_IndexWrite : bool -> Z * Z * Z -> Z * Z * Z -> Z * Z * Z -> Z -> Z -> Z -> Z.
Variables rodd wodd : bool.
Variables x y z : Z * Z * Z.
Variable p : Z.
Variable pop : @Population.t T.
Variable F : list T.

Local Abbreviation ridx := (Population.read_index LT AA_IndexRead rodd x y z p).
Local Abbreviation widx := (Population.write_index LT AA_IndexWrite wodd x y z p).

Hypothesis HOFF : 0 < OFF LT.
Hypothesis HND : ND LT = 2 * OFF LT.
Hypothesis Huint : ND LT <= UINT_MAX.
Hypothesis HF : Population.F_ pop = Some F.
Hypothesis Hbounds : forall j, 0 <= j < ND LT -> 0 <= widx j < Z.of_nat (length F).
Hypothesis Hinj :
  forall j j', 0 <= j < ND LT -> 0 <= j' < ND LT -> widx j = widx j' -> j = j'.
Hypothesis Hsame : forall j, 0 <= j < ND LT -> ridx j = widx j.

Lemma rd_is_Some (l : list T) (i : Z) :
  0 <= i < Z.of_nat (length l) -> is_Some (rd l i).
Proof.
  intros Hi. unfold rd. destruct (Z.ltb_spec i 0); [lia|].
  apply lookup_lt_is_Some_2. lia.
Qed.

Lemma load_after_store (f f0 : list T) :
  Z.of_nat (length f) = ND LT -> Z.of_nat (length f0) = ND LT ->
  exists q,
    Population.Store LT AA_IndexWrite pop wodd x y z f p = Some q /\
    Population.Load LT AA_IndexRead q rodd x y z f0 p =
      Some (<[Z.to_nat (OFF LT) := f_zero]> f).
Proof.
  intros Hlen Hlen0.
  destruct (store_loops LT AA_IndexWrite wodd x y z p f pop F HOFF HND Huint Hlen HF Hbounds)
    as (q & Hrun & _ & Fq & HFq & Hlenq & _ & Hval).
  exists q. split; [exact Hrun|].
  assert (forall i, 0 <= i < ND LT ->
            Population.loaded LT AA_IndexRead q rodd x y z p i = rd f i) as Hloaded.
  { intros i Hi. unfold Population.loaded, Population.F_read. rewrite HFq.
    change (AA_IndexRead rodd x y z (i / OFF LT) (i mod OFF LT) p) with (ridx i).
    rewrite (Hsame i Hi). apply Hval; [exact Hi|].
    intros j' Hj' Heq. apply Hinj in Heq; lia. }
  destruct (load_loops LT AA_IndexRead q rodd x y z p HOFF HND Huint f0 Hlen0)
    as (f1 & Hload & Hlen1 & Hall).
  { intros i Hi. rewrite (Hloaded i Hi). apply rd_is_Some. lia. }
  assert (f1 = f) as ->.
  { apply (rd_ext _ _ (ND LT) Hlen1 Hlen). intros i Hi.
    rewrite (Hall i Hi). apply Hloaded, Hi. }
  unfold Population.Load. rewrite Hload. apply wr_Some. lia.
Qed.

Lemma store_after_load (f0 : list T) :
  Z.of_nat (length f0) = ND LT ->
  exists f' q F',
    Population.Load LT AA_IndexRead pop rodd x y z f0 p = Some f' /\
    Population.Store LT AA_IndexWrite pop wodd x y z f' p = Some q /\
    Population.F_ q = Some F' /\
    length F' = length F /\
    forall i, rd F' i = if i =? widx (OFF LT) then Some f_zero else rd F i.
Proof.
  intros Hlen0.
  assert (forall i, 0 <= i < ND LT ->
            Population.loaded LT AA_IndexRead pop rodd x y z p i = rd F (widx i)) as Hloaded.
  { intros i Hi. unfold Population.loaded, Population.F_read. rewrite HF.
    change (AA_IndexRead rodd x y z (i / OFF LT) (i mod OFF LT) p) with (ridx i).
    rewrite (Hsame i Hi). reflexivity. }
  destruct (load_loops LT AA_IndexRead pop rodd x y z p HOFF HND Huint f0 Hlen0)
    as (f1 & Hload & Hlen1 & Hall).
  { intros i Hi. rewrite (Hloaded i Hi). apply rd_is_Some, Hbounds, Hi. }
  assert (wr f1 (OFF LT) f_zero = Some (<[Z.to_nat (OFF LT) := f_zero]> f1)) as Hwr
    by (apply wr_Some; lia).
  set (f' := <[Z.to_nat (OFF LT) := f_zero]> f1) in *.
  assert (Z.of_nat (length f') = ND LT) as Hlen'
    by (unfold f'; rewrite length_insert; exact Hlen1).
  destruct (store_loops LT AA_IndexWrite wodd x y z p f' pop F HOFF HND Huint Hlen' HF Hbounds)
    as (q & Hrun & _ & Fq & HFq & Hlenq & Hframe & Hval).
  exists f', q, Fq.
  split; [unfold Population.Load; rewrite Hload; exact Hwr|].
  split; [exact Hrun|]. split; [exact HFq|]. split; [exact Hlenq|].
  intros i. destruct (offset_hit widx (ND LT) i) as [(j & Hj & <-) | Hnone].
  - rewrite Hval by (try assumption; intros j' Hj' Heq; apply Hinj in Heq; lia).
    destruct (Z.eqb_spec (widx j) (widx (OFF LT))) as [Heq | Hne].
    + apply Hinj in Heq; [| lia | lia]. subst j. exact (rd_wr_eq _ _ _ _ Hwr).
    + rewrite (rd_wr_ne _ _ j _ _ Hwr) by congruence.
      rewrite (Hall j Hj). apply Hloaded, Hj.
  - rewrite (Hframe i Hnone).
    destruct (Z.eqb_spec i (widx (OFF LT))) as [-> | _]; [|reflexivity].
    exfalso. apply (Hnone (OFF LT)); [lia | reflexivity].
Qed.

End LoadStore.

(** X4.  [Load] reads back what [Store] wrote.  When the read offsets of
    the [Load] are the write offsets of the [Store], pairwise distinct and
    inside of the buffer, [Load] after [Store] of the local array [f]
    returns [f] with element [OFF] replaced by [0.0], whatever the buffer and
    the array held before. *)
Theorem Load_after_Store {T : Type} {FT : Floating T} (LT : lattice T)
    (AA_IndexRead AA_IndexWrite :
       bool -> Z * Z * Z -> Z * Z * Z -> Z * Z * Z -> Z -> Z -> Z -> Z)
    (rodd wodd : bool) (x y z : Z * Z * Z) (p : Z) (pop : @Population.t T)
    (F f f0 : list T) :
  0 < OFF LT -> ND LT = 2 * OFF LT -> ND LT <= UINT_MAX ->
  Population.F_ pop = Some F ->
  Z.of_nat (length f) = ND LT -> Z.of_nat (length f0) = ND LT ->
  (forall j, 0 <= j < ND LT ->
     0 <= Population.write_index LT AA_IndexWrite wodd x y z p j < Z.of_nat (length F)) ->
  (forall j j', 0 <= j < ND LT -> 0 <= j' < ND LT ->
     Population.write_index LT AA_IndexWrite wodd x y z p j =
     Population.write_index LT AA_IndexWrite wodd x y z p j' -> j = j') ->
  (forall j, 0 <= j < ND LT ->
     Population.read_index LT AA_IndexRead rodd x y z p j =
     Population.write_index LT AA_IndexWrite wodd x y z p j) ->
  exists q,
    Population.Store LT AA_IndexWrite pop wodd x y z f p = Some q /\
    Population.Load LT AA_IndexRead q rodd x y z f0 p =
      Some (<[Z.to_nat (OFF LT) := f_zero]> f).
Proof.
  intros HOFF HND Huint HF Hlen Hlen0 Hbounds Hinj Hsame.
  apply (load_after_store LT AA_IndexRead AA_IndexWrite rodd wodd x y z p pop F);
    assumption.
Qed.

(** X5.  A [Load] followed by the [Store] of the loaded array to the same
    offsets (pairwise distinct, inside of the buffer) leaves the buffer as
    it was except for one element: the one of half 1, direction 0, which
    now holds [0.0]. *)
Theorem Store_after_Load {T : Type} {FT : Floating T} (LT : lattice T)
    (AA_IndexRead AA_IndexWrite :
       bool -> Z * Z * Z -> Z * Z * Z -> Z * Z * Z -> Z -> Z -> Z -> Z)
    (rodd wodd : bool) (x y z : Z * Z * Z) (p : Z) (pop : @Population.t T)
    (F f0 : list T) :
  0 < OFF LT -> ND LT = 2 * OFF LT -> ND LT <= UINT_MAX ->
  Population.F_ pop = Some F ->
  Z.of_nat (length f0) = ND LT ->
  (forall j, 0 <= j < ND LT ->
     0 <= Population.write_index LT AA_IndexWrite wodd x y z p j < Z.of_nat (length F)) ->
  (forall j j', 0 <= j < ND LT -> 0 <= j' < ND LT ->
     Population.write_index LT AA_IndexWrite wodd x y z p j =
     Population.write_index LT AA_IndexWrite wodd x y z p j' -> j = j') ->
  (forall j, 0 <= j < ND LT ->
     Population.read_index LT AA_IndexRead rodd x y z p j =
     Population.write_index LT AA_IndexWrite wodd x y z p j) ->
  exists f' q F',
    Population.Load LT AA_IndexRead pop rodd x y z f0 p = Some f' /\
    Population.Store LT AA_IndexWrite pop wodd x y z f' p = Some q /\
    Population.F_ q = Some F' /\
    length F' = length F /\
    forall i, rd F' i =
      if i =? AA_IndexWrite wodd x y z 1 0 p then Some f_zero else rd F i.
Proof.
  intros HOFF HND Huint HF Hlen0 Hbounds Hinj Hsame.
  destruct (store_after_load LT AA_IndexRead AA_IndexWrite rodd wodd x y z p pop F
              HOFF HND Huint HF Hbounds Hinj Hsame f0 Hlen0)
    as (f' & q & F' & Hload & Hstore & HF' & Hlen' & Hrd).
  exists f', q, F'. repeat (split; [assumption|]).
  intros i. rewrite Hrd. unfold Population.write_index.
  rewrite Z.div_same, Z.mod_same by lia. reflexivity.
Qed.

(** The offsets of [own_slot] for a cell of the domain of [main] are
    consecutive, starting at the offset of the cell. *)
Lemma own_slot_offsets odd xl x xr yl y yr zl z zr i :
  0 <= i < 28 ->
  Main.own_slot odd (xl, x, xr) (yl, y, yr) (zl, z, zr)
    (i / OFF Main.D3Q27) (i mod OFF Main.D3Q27) 0 =
  Population.SpatialToLinear Main.domain Main.D3Q27 1 x y z 0 0 0 + i.
Proof.
  intros Hi. unfold Main.own_slot, Population.SpatialToLinear, Main.D3Q27.
  cbn [fst snd ND OFF]. lia_div.
Qed.

Lemma uniform_bounds (v : float) odd i :
  0 <= i < 28 ->
  0 <= Population.write_index Main.D3Q27 Main.own_slot odd (4, 5, 6) (5, 6, 7) (6, 7, 8) 0 i
    < Z.of_nat (length (replicate (Z.to_nat (Population.length_ Main.domain Main.D3Q27 1)) v)).
Proof.
  intros Hi. rewrite length_replicate, Z2Nat.id by (vm_compute; discriminate).
  unfold Population.write_index.
  rewrite (own_slot_offsets odd 4 5 6 5 6 7 6 7 8 i Hi).
  change (Population.SpatialToLinear Main.domain Main.D3Q27 1 5 6 7 0 0 0) with 3645068.
  change (Population.length_ Main.domain Main.D3Q27 1) with 49545216. lia.
Qed.

Lemma uniform_distinct odd i j :
  0 <= i < 28 -> 0 <= j < 28 ->
  Population.write_index Main.D3Q27 Main.own_slot odd (4, 5, 6) (5, 6, 7) (6, 7, 8) 0 i =
  Population.write_index Main.D3Q27 Main.own_slot odd (4, 5, 6) (5, 6, 7) (6, 7, 8) 0 j ->
  i = j.
Proof.
  intros Hi Hj. unfold Population.write_index.
  rewrite (own_slot_offsets odd 4 5 6 5 6 7 6 7 8 i Hi), (own_slot_offsets odd 4 5 6 5 6 7 6 7 8 j Hj). lia.
Qed.

Lemma uniform_same_offsets i :
  0 <= i < 28 ->
  Population.read_index Main.D3Q27 Main.own_slot true (4, 5, 6) (5, 6, 7) (6, 7, 8) 0 i =
  Population.write_index Main.D3Q27 Main.own_slot false (4, 5, 6) (5, 6, 7) (6, 7, 8) 0 i.
Proof. intros Hi. reflexivity. Qed.

(** [Store] into the cell [(5,6,7)] of a population of [main]. *)
Lemma Store_last_write_wins_main :
  (0 < OFF Main.D3Q27 /\ ND Main.D3Q27 = 2 * OFF Main.D3Q27 /\ ND Main.D3Q27 <= UINT_MAX /\
   Z.of_nat (length (replicate 28 2%float)) = ND Main.D3Q27 /\
   Population.F_ (Main.uniform 1%float) =
     Some (replicate (Z.to_nat (Population.length_ Main.domain Main.D3Q27 1)) 1%float)) /\
  exists q F',
    Population.Store Main.D3Q27 Main.own_slot (Main.uniform 1%float) false
      (4, 5, 6) (5, 6, 7) (6, 7, 8) (replicate 28 2%float) 0 = Some q /\
    Population.F_ q = Some F' /\
    Population.same_parameters q (Main.uniform 1%float) /\
    rd F' 3645067 = Some 1%float /\
    rd F' 3645068 = Some 2%float.
Proof.
  split; [repeat (split; [reflexivity || (vm_compute; discriminate)|]); reflexivity|].
  destruct (Store_last_write_wins Main.D3Q27 Main.own_slot (Main.uniform 1%float)
              (replicate (Z.to_nat (Population.length_ Main.domain Main.D3Q27 1)) 1%float)
              false (4, 5, 6) (5, 6, 7) (6, 7, 8) 0 (replicate 28 2%float))
    as (q & F' & Hrun & HF' & Hpar & _ & Hframe & Hval);
    [reflexivity | reflexivity | vm_compute; discriminate | reflexivity | reflexivity
    | intros j Hj; apply uniform_bounds; exact Hj |].
  exists q, F'. split; [exact Hrun|]. split; [exact HF'|]. split; [exact Hpar|].
  assert (forall i, 0 <= i < 28 ->
            Population.write_index Main.D3Q27 Main.own_slot false
              (4, 5, 6) (5, 6, 7) (6, 7, 8) 0 i = 3645068 + i) as Hidx.
  { intros i Hi. unfold Population.write_index.
    rewrite (own_slot_offsets false 4 5 6 5 6 7 6 7 8 i Hi). reflexivity. }
  split.
  - rewrite Hframe.
    + unfold rd. cbn [Z.ltb Z.compare]. apply lookup_replicate_2.
      change (Population.length_ Main.domain Main.D3Q27 1) with 49545216. lia.
    + intros j Hj. rewrite (Hidx j Hj). lia.
  - change 3645068 with (3645068 + 0). rewrite <- (Hidx 0) by lia.
    rewrite Hval; [reflexivity | unfold Main.D3Q27; cbn [ND]; lia |].
    intros j' Hj'. rewrite !Hidx by (unfold Main.D3Q27 in Hj'; cbn [ND] in Hj'; lia). lia.
Defined.

(** [Store] into a population whose allocation failed. *)
Lemma Store_undefined_unallocated :
  (0 <= 0 < 2 * OFF Main.D3Q27 /\ True) /\
  Population.Store Main.D3Q27 Main.own_slot Main.unallocated false
    (4, 5, 6) (5, 6, 7) (6, 7, 8) (replicate 28 2%float) 0 = None.
Proof.
  split; [split; [unfold Main.D3Q27; cbn [OFF]; lia | exact I]|].
  apply (Store_undefined Main.D3Q27 Main.own_slot Main.unallocated false
           (4, 5, 6) (5, 6, 7) (6, 7, 8) 0 (replicate 28 2%float) 0);
    [unfold Main.D3Q27; cbn [OFF]; lia | exact I].
Defined.

(** [Load] from a population whose allocation failed. *)
Lemma Load_undefined_unallocated :
  (0 <= 27 < 2 * OFF Main.D3Q27 /\
   Population.loaded Main.D3Q27 Main.own_slot Main.unallocated true
     (4, 5, 6) (5, 6, 7) (6, 7, 8) 0 27 = None) /\
  Population.Load Main.D3Q27 Main.own_slot Main.unallocated true
    (4, 5, 6) (5, 6, 7) (6, 7, 8) (replicate 28 2%float) 0 = None.
Proof.
  split; [split; [unfold Main.D3Q27; cbn [OFF]; lia | reflexivity]|].
  apply (Load_undefined Main.D3Q27 Main.own_slot Main.unallocated true
           (4, 5, 6) (5, 6, 7) (6, 7, 8) 0 (replicate 28 2%float) 27);
    [unfold Main.D3Q27; cbn [OFF]; lia | reflexivity].
Defined.

(** The hypotheses on the offsets of [own_slot] at cell [(5,6,7)]. *)
Lemma own_slot_ready (v : float) :
  0 < OFF Main.D3Q27 /\ ND Main.D3Q27 = 2 * OFF Main.D3Q27 /\ ND Main.D3Q27 <= UINT_MAX /\
  Population.F_ (Main.uniform v) =
    Some (replicate (Z.to_nat (Population.length_ Main.domain Main.D3Q27 1)) v) /\
  (forall j, 0 <= j < ND Main.D3Q27 ->
     0 <= Population.write_index Main.D3Q27 Main.own_slot false
            (4, 5, 6) (5, 6, 7) (6, 7, 8) 0 j
       < Z.of_nat (length (replicate
                     (Z.to_nat (Population.length_ Main.domain Main.D3Q27 1)) v))) /\
  (forall j j', 0 <= j < ND Main.D3Q27 -> 0 <= j' < ND Main.D3Q27 ->
     Population.write_index Main.D3Q27 Main.own_slot false
       (4, 5, 6) (5, 6, 7) (6, 7, 8) 0 j =
     Population.write_index Main.D3Q27 Main.own_slot false
       (4, 5, 6) (5, 6, 7) (6, 7, 8) 0 j' -> j = j') /\
  (forall j, 0 <= j < ND Main.D3Q27 ->
     Population.read_index Main.D3Q27 Main.own_slot true
       (4, 5, 6) (5, 6, 7) (6, 7, 8) 0 j =
     Population.write_index Main.D3Q27 Main.own_slot false
       (4, 5, 6) (5, 6, 7) (6, 7, 8) 0 j).
Proof.
  split; [reflexivity|]. split; [reflexivity|]. split; [vm_compute; discriminate|].
  split; [reflexivity|]. split; [intros j Hj; apply uniform_bounds, Hj|].
  split; [intros j j' Hj Hj'; apply uniform_distinct; assumption|].
  intros j Hj. reflexivity.
Qed.

(** [Load] after [Store] at the cell [(5,6,7)] of a population of [main]. *)
Lemma Load_after_Store_main :
  (0 < OFF Main.D3Q27 /\ ND Main.D3Q27 = 2 * OFF Main.D3Q27 /\
   Z.of_nat (length (replicate 28 2%float)) = ND Main.D3Q27) /\
  exists q,
    Population.Store Main.D3Q27 Main.own_slot (Main.uniform 1%float) false
      (4, 5, 6) (5, 6, 7) (6, 7, 8) (replicate 28 2%float) 0 = Some q /\
    Population.Load Main.D3Q27 Main.own_slot q true
      (4, 5, 6) (5, 6, 7) (6, 7, 8) (replicate 28 PrimFloat.nan) 0 =
      Some (<[Z.to_nat (OFF Main.D3Q27) := 0%float]> (replicate 28 2%float)).
Proof.
  split; [repeat split; reflexivity|].
  destruct (own_slot_ready 1%float) as (H1 & H2 & H3 & H4 & H5 & H6 & H7).
  exact (Load_after_Store Main.D3Q27 Main.own_slot Main.own_slot true false
           (4, 5, 6) (5, 6, 7) (6, 7, 8) 0 (Main.uniform 1%float) _
           (replicate 28 2%float) (replicate 28 PrimFloat.nan)
           H1 H2 H3 H4 eq_refl eq_refl H5 H6 H7).
Defined.

(** [Store] after [Load] at the cell [(5,6,7)] of a population of [main]. *)
Lemma Store_after_Load_main :
  (0 < OFF Main.D3Q27 /\ ND Main.D3Q27 = 2 * OFF Main.D3Q27 /\
   Z.of_nat (length (replicate 28 PrimFloat.nan)) = ND Main.D3Q27) /\
  exists f' q F',
    Population.Load Main.D3Q27 Main.own_slot (Main.uniform 1%float) true
      (4, 5, 6) (5, 6, 7) (6, 7, 8) (replicate 28 PrimFloat.nan) 0 = Some f' /\
    Population.Store Main.D3Q27 Main.own_slot (Main.uniform 1%float) false
      (4, 5, 6) (5, 6, 7) (6, 7, 8) f' 0 = Some q /\
    Population.F_ q = Some F' /\
    length F' = length (replicate (Z.to_nat (Population.length_ Main.domain Main.D3Q27 1))
                          1%float) /\
    forall i, rd F' i =
      if i =? Main.own_slot false (4, 5, 6) (5, 6, 7) (6, 7, 8) 1 0 0 then Some 0%float
      else rd (replicate (Z.to_nat (Population.length_ Main.domain Main.D3Q27 1)) 1%float) i.
Proof.
  split; [repeat split; reflexivity|].
  destruct (own_slot_ready 1%float) as (H1 & H2 & H3 & H4 & H5 & H6 & H7).
  exact (Store_after_Load Main.D3Q27 Main.own_slot Main.own_slot true false
           (4, 5, 6) (5, 6, 7) (6, 7, 8) 0 (Main.uniform 1%float) _
           (replicate 28 PrimFloat.nan) H1 H2 H3 H4 eq_refl H5 H6 H7).
Defined.

(** ** The command line and the time loop, for every constant *)

(** X6.  [main] looks at its first argument only: the program name and the
    arguments after the first do not change what it does. *)
Theorem main_first_argument_only (env : Main.environment) (name name' arg : string)
    (rest rest' : list string) :
  Main.main env (name :: arg :: rest) = Main.main env (name' :: arg :: rest').
Proof.
  unfold Main.main. rewrite !switches_first_argument. reflexivity.
Qed.

(** X7.  A first argument that is none of the five switches is not
    reported: the program runs as it does without arguments. *)
Theorem main_unknown_option (env : Main.environment) (name arg : string)
    (rest : list string) :
  arg <> "--version"%string -> arg <> "--v"%string -> arg <> "--convert"%string ->
  arg <> "--info"%string -> arg <> "--help"%string ->
  Main.main env (name :: arg :: rest) = Main.main env [name].
Proof.
  intros H1 H2 H3 H4 H5.
  assert (Main.switches (name :: arg :: rest) = ([], Done tt)) as Hs.
  { rewrite switches_first_argument.
    apply String.eqb_neq in H1, H2, H3, H4, H5. rewrite H1, H2, H3, H4, H5. reflexivity. }
  assert (Main.switches [name] = ([], Done tt)) as Hs0 by reflexivity.
  unfold Main.main. rewrite Hs, Hs0. reflexivity.
Qed.

Lemma main_unknown_option_verbose :
  ("--verbose" <> "--version" /\ "--verbose" <> "--v" /\ "--verbose" <> "--convert" /\
   "--verbose" <> "--info" /\ "--verbose" <> "--help")%string /\
  Main.main Main.allocating ["LB-t"; "--verbose"; "--help"]%string =
  Main.main Main.allocating ["LB-t"]%string.
Proof.
  split; [repeat split; discriminate|].
  apply main_unknown_option; discriminate.
Defined.

Lemma loop_body_events_any nt sv i :
  sv = false \/ 0 < nt / 10 -> nt <= UINT_MAX -> 0 <= i < nt ->
  Main.loop_body nt sv i = (Main.iteration_events nt sv i, Done tt).
Proof.
  intros [-> | Hnt] Hmax Hi.
  - reflexivity.
  - apply loop_body_events; unfold UINT_MAX in *; lia_div.
Qed.

Lemma main_loop_unroll_any nt sv i :
  sv = false \/ 0 < nt / 10 -> nt <= UINT_MAX -> 0 <= i ->
  Main.main_loop nt sv i =
  (Main.indices nt i ≫= Main.iteration_events nt sv, Done tt).
Proof.
  intros Hsv Hmax.
  remember (Z.to_nat (nt - i)) as n eqn:Hn. revert i Hn.
  induction n as [n IH] using lt_wf_ind. intros i Hn Hi.
  rewrite Main.main_loop_equation_1.
  destruct (Z_lt_dec i nt) as [Hlt | Hge]; simpl.
  - rewrite loop_body_events_any by (try assumption; lia).
    rewrite (IH (Z.to_nat (nt - (i + 2)))) by lia.
    rewrite (indices_step nt i) by lia. reflexivity.
  - rewrite indices_done by lia. reflexivity.
Qed.

Lemma length_bind_pair {A B : Type} (l : list A) (b1 b2 : B) :
  length (l ≫= (fun _ => [b1; b2])) = (2 * length l)%nat.
Proof.
  induction l as [|a l IH]; [reflexivity|].
  rewrite bind_cons. cbn [length app]. rewrite IH. lia.
Qed.

(** X8.  For every number of steps [NT] (at least 10 when saving), the loop
    ends after [ceil(NT/2)] iterations and has made [2*ceil(NT/2)] parity
    passes, alternately even and odd, each pass the four calls in their
    order: that is [NT] passes when [NT] is even and [NT + 1] when [NT] is
    odd. *)
Theorem main_loop_passes_any (nt : Z) (sv : bool) :
  0 <= nt <= UINT_MAX -> sv = false \/ 10 <= nt ->
  result (Main.main_loop nt sv 0) = Done tt /\
  List.filter Main.is_pass_event (trace (Main.main_loop nt sv 0)) =
    (seqZ 0 ((nt + 1) / 2) ≫= (fun _ => [false; true])) ≫= Main.pass_events /\
  Z.of_nat (length (seqZ 0 ((nt + 1) / 2) ≫= (fun _ => [false; true]))) =
    if Z.even nt then nt else nt + 1.
Proof.
  intros Hnt Hsv.
  assert (sv = false \/ 0 < nt / 10) as Hsv' by (destruct Hsv; [left; assumption | right; lia_div]).
  rewrite (main_loop_unroll_any nt sv 0 Hsv') by lia. cbn [result trace fst snd].
  split; [reflexivity|]. split.
  - rewrite filter_bind.
    rewrite (list_bind_ext _ (fun _ => Main.pass_events false ++ Main.pass_events true)
               _ (Main.indices nt 0)); [| intros i; apply iteration_pass_events | reflexivity].
    unfold Main.indices. rewrite list_fmap_bind, Z.sub_0_r.
    generalize (seqZ 0 ((nt + 1) / 2)). intros l.
    induction l as [|a l IH]; [reflexivity|].
    rewrite !bind_cons, bind_app, <- IH. reflexivity.
  - rewrite length_bind_pair, length_seqZ.
    destruct (Z.even nt) eqn:Heven.
    + apply Zeven_bool_iff, Zeven_ex in Heven as [k ->]. lia_div.
    + assert (Z.odd nt = true) as Hodd by (rewrite <- Z.negb_even, Heven; reflexivity).
      apply Zodd_bool_iff, Zodd_ex in Hodd as [k ->]. lia_div.
Qed.

(** A run of 15 steps with saving: 8 iterations, 16 parity passes. *)
Lemma main_loop_passes_15 :
  (0 <= 15 <= UINT_MAX /\ (true = false \/ 10 <= 15)) /\
  result (Main.main_loop 15 true 0) = Done tt /\
  Z.of_nat (length (seqZ 0 ((15 + 1) / 2) ≫= (fun _ => [false; true]))) = 16.
Proof.
  split; [split; [unfold UINT_MAX; lia | right; lia]|].
  destruct (main_loop_passes_any 15 true) as (H1 & _ & H3);
    [unfold UINT_MAX; lia | right; lia |].
  split; [exact H1 | exact H3].
Defined.

(** X9.  With saving and fewer than 10 steps the divisor [NT/10] is zero:
    the first iteration makes its two parity passes and then evaluates
    [i % 0], which is undefined. *)
Theorem main_loop_short_run_undefined (nt : Z) :
  0 < nt < 10 ->
  Main.main_loop nt true 0 =
  (Main.pass_events false ++ Main.pass_events true, Undefined).
Proof.
  intros Hnt. rewrite Main.main_loop_equation_1.
  destruct (Z_lt_dec 0 nt) as [Hlt | Hge]; [|lia]. simpl.
  unfold Main.loop_body.
  replace (nt / 10) with 0 by lia_div. reflexivity.
Qed.

Lemma main_loop_short_run_undefined_2 :
  0 < 2 < 10 /\
  Main.main_loop 2 true 0 = (Main.pass_events false ++ Main.pass_events true, Undefined).
Proof. split; [lia | apply main_loop_short_run_undefined; lia]. Defined.

Lemma elem_of_indices nt k :
  k ∈ Main.indices nt 0 <-> 0 <= k < nt /\ k mod 2 = 0.
Proof.
  unfold Main.indices. rewrite list_elem_of_fmap. split.
  - intros (m & -> & Hm). apply elem_of_seqZ in Hm. lia_div.
  - intros (Hk & Heven). exists (k / 2). split; [lia_div|].
    apply elem_of_seqZ. lia_div.
Qed.

Lemma ExportVtk_in_trace nt i :
  10 <= nt <= UINT_MAX ->
  In (ExportVtk i) (trace (Main.main_loop nt true 0)) <->
  0 <= i < nt /\ i mod 2 = 0 /\ i mod (nt / 10) = 0.
Proof.
  intros Hnt.
  assert (0 < nt / 10) as Hq by lia_div.
  assert (In (ExportVtk i) (trace (Main.main_loop nt true 0)) <->
          In (ExportVtk i)
            (List.filter Main.is_export_event (trace (Main.main_loop nt true 0)))) as ->.
  { rewrite List.filter_In. cbn [Main.is_export_event]. tauto. }
  rewrite main_loop_export_events by lia.
  rewrite <- list_elem_of_In, list_elem_of_bind. split.
  - intros (k & Hin & Hk).
    apply list_elem_of_In, List.filter_In in Hk as (Hk & Hmod).
    apply list_elem_of_In, elem_of_indices in Hk. apply Z.eqb_eq in Hmod.
    apply list_elem_of_In in Hin. cbn [In] in Hin.
    destruct Hin as [H | [H | [H | []]]]; try discriminate.
    injection H as <-. tauto.
  - intros (Hi & Heven & Hmod). exists i. split.
    + apply list_elem_of_In. cbn [In]. auto.
    + apply list_elem_of_In, List.filter_In. split.
      * apply list_elem_of_In, elem_of_indices. tauto.
      * apply Z.eqb_eq, Hmod.
Qed.

(** X10.  The cadence of the exports, for every number of steps
    [10 <= NT]: the snapshot of step [i] is exported exactly for the loop
    indices (even, below [NT]) that [NT/10] divides, each export being the
    status line, then [SetZero] over the wall list, then [ExportVtk].  When
    [NT/10] is odd these are the multiples of [2*(NT/10)] only, so that
    every other tenth of the run goes without an export. *)
Theorem main_loop_export_cadence (nt : Z) :
  10 <= nt <= UINT_MAX ->
  List.filter Main.is_export_event (trace (Main.main_loop nt true 0)) =
    List.filter (fun i => i mod (nt / 10) =? 0) (Main.indices nt 0)
      ≫= (fun i => [StatusOutput i; SetZero wall; ExportVtk i]) /\
  (forall i, In (ExportVtk i) (trace (Main.main_loop nt true 0)) <->
             0 <= i < nt /\ i mod 2 = 0 /\ i mod (nt / 10) = 0) /\
  (Z.odd (nt / 10) = true ->
   forall i, In (ExportVtk i) (trace (Main.main_loop nt true 0)) <->
             0 <= i < nt /\ i mod (2 * (nt / 10)) = 0).
Proof.
  intros Hnt. assert (0 < nt / 10) as Hq by lia_div.
  split; [apply main_loop_export_events; lia|].
  split; [intros i; apply ExportVtk_in_trace, Hnt|].
  intros Hodd i. rewrite (ExportVtk_in_trace nt i Hnt).
  apply Zodd_bool_iff, Zodd_ex in Hodd as [m Hm].
  generalize dependent (nt / 10). intros q Hq Hm. subst q.
  split.
  - intros (Hi & Heven & Hmod). split; [exact Hi|].
    apply Z.mod_divide in Hmod as [k Hk]; [|lia].
    assert (k mod 2 = 0) as Hkeven by lia_div.
    apply Z.mod_divide; [lia|]. exists (k / 2).
    assert (k = 2 * (k / 2)) as Hk2 by lia_div.
    rewrite Hk, Hk2 at 1. ring.
  - intros (Hi & Hmod). split; [exact Hi|].
    apply Z.mod_divide in Hmod as [k Hk]; [|lia].
    split.
    + lia_div.
    + apply Z.mod_divide; [lia|]. exists (2 * k). lia.
Qed.

(** With [NT = 30] the divisor is 3: of the ten snapshots one expects, only
    those of the steps 0, 6, 12, 18 and 24 are exported. *)
Lemma main_loop_export_cadence_30 :
  10 <= 30 <= UINT_MAX /\
  List.filter Main.is_export_event (trace (Main.main_loop 30 true 0)) =
    [0; 6; 12; 18; 24] ≫= (fun i => [StatusOutput i; SetZero wall; ExportVtk i]).
Proof.
  split; [unfold UINT_MAX; lia|].
  destruct (main_loop_export_cadence 30) as (H & _); [unfold UINT_MAX; lia|].
  rewrite H. reflexivity.
Defined.

(** The run after the switches, for every result of the two allocations. *)
Lemma simulation_cases (env : Main.environment) :
  (exists t, Main.simulation env = (t, Exited EXIT_FAILURE) /\
             Main.alloc_Micro env = None /\
             ~ In (Print Cout "See you, comrade!") t) \/
  (exists t, Main.simulation env = (t, Undefined) /\
             ~ In (Print Cout "See you, comrade!") t) \/
  (exists t, Main.simulation env =
               (t ++ [Timer_Stop; PerformanceOutput; Print Cout "See you, comrade!"],
                Done EXIT_SUCCESS)).
Proof.
  destruct NT_steps as (Hnt & Hmax & _).
  unfold Main.simulation, Continuum.ctor, Population.ctor, Population.dtor.
  destruct (Main.alloc_Micro env) as [bufF|] eqn:HF.
  - destruct (Continuum.InitContinuum Main.domain {| Continuum.M_ := Main.alloc_Macro env |}
                Main.RHO_0 Main.U_0 Main.V_0 Main.W_0) as [con'|] eqn:Hinit.
    + right. right. rewrite main_loop_unroll by lia.
      generalize (Main.indices Main.NT 0 ≫= Main.iteration_events Main.NT Main.save).
      intros l.
      destruct (Main.alloc_Macro env) as [bufM|]; cbn [bind emit ret lift app];
        rewrite Hinit; cbn [bind emit ret lift app].
      * exists ([InitialOutput; ExportParameters; Cylinder3D; InitLattice false;
                 Print Cout "Simulation started..."; Timer_Start] ++ l). reflexivity.
      * exists ([Print Cerr "Fatal error: Population could not be allocated.";
                 InitialOutput; ExportParameters; Cylinder3D; InitLattice false;
                 Print Cout "Simulation started..."; Timer_Start] ++ l). reflexivity.
    + right. left.
      destruct (Main.alloc_Macro env) as [bufM|]; cbn [bind emit ret lift app];
        rewrite Hinit; cbn [bind emit ret lift app];
        eexists; (split; [reflexivity|]); cbn [In]; intuition discriminate.
  - left.
    destruct (Main.alloc_Macro env) as [bufM|]; cbn [bind emit ret lift exit app];
      eexists; (split; [reflexivity|]); (split; [reflexivity|]);
      cbn [In]; intuition discriminate.
Qed.

Lemma switches_cases (argv : list string) :
  Main.switches argv = ([], Done tt) \/
  exists t status, Main.switches argv = (t, Exited status) /\
                   ~ In (Print Cout "See you, comrade!") t.
Proof.
  destruct argv as [|name [|arg rest]]; [left; reflexivity | left; reflexivity |].
  rewrite switches_first_argument.
  destruct (String.eqb arg "--version" || String.eqb arg "--v").
  { right. eexists _, _. split; [reflexivity|]. cbn [In]. intuition discriminate. }
  destruct (String.eqb arg "--convert").
  { right. eexists _, _. split; [reflexivity|]. cbn [In]. intuition discriminate. }
  destruct (String.eqb arg "--info" || String.eqb arg "--help").
  { right. eexists _, _. split; [reflexivity|]. cbn [In]. intuition discriminate. }
  left. reflexivity.
Qed.

(** X11.  The destructor of the population runs when [main] returns, and
    only then: its line is printed exactly in the runs that end with
    [return EXIT_SUCCESS]; the runs that end in [exit] (a switch, or the
    failed allocation of the population) never print it. *)
Theorem destructor_runs_iff_main_returns (env : Main.environment) (argv : list string) :
  In (Print Cout "See you, comrade!") (trace (Main.main env argv)) <->
  result (Main.main env argv) = Done EXIT_SUCCESS.
Proof.
  unfold Main.main.
  destruct (switches_cases argv) as [Hs | (t & status & Hs & Ht)]; rewrite Hs.
  - destruct (simulation_cases env)
      as [(t & Hsim & _ & Ht) | [(t & Hsim & Ht) | (t & Hsim)]]; rewrite Hsim;
      destruct (Main.openmp env); cbn [bind emit ret trace result fst snd app].
    1-4: split; [intros Hin | intros H; discriminate];
         cbn [In] in Hin; exfalso; intuition discriminate.
    1-2: split; [reflexivity | intros _];
         cbn [In]; rewrite ?in_app_iff; cbn [In]; tauto.
  - destruct (Main.openmp env); cbn [bind emit ret trace result fst snd app];
      (split; [intros Hin | intros H; discriminate]);
      cbn [In] in Hin; exfalso; intuition discriminate.
Qed.

(** ** More on [InitContinuum] *)




Lemma run_list_fails {A S : Type} (I : S -> Prop) (f : A -> S -> option S)
    (l : list A) (a : A) (s : S) :
  a ∈ l -> I s ->
  (forall b s1 s2, f b s1 = Some s2 -> I s1 -> I s2) ->
  (forall s1, I s1 -> f a s1 = None) ->
  run_list f l s = None.
Proof.
  intros Hin HI Hpres Hfail. revert s HI.
  induction l as [|b l IH]; intros s HI; [inversion Hin|].
  cbn [run_list].
  apply elem_of_cons in Hin as [<- | Hin].
  - rewrite (Hfail s HI). reflexivity.
  - destruct (f b s) as [s'|] eqn:Hb; [|reflexivity].
    apply IH; [exact Hin | exact (Hpres b s s' Hb HI)].
Qed.

Lemma set_length {T : Type} (d : dims) (con con' : @Continuum.t T) x y z m v (n : Z) :
  Continuum.set d con x y z m v = Some con' ->
  (exists buf, Continuum.M_ con = Some buf /\ Z.of_nat (length buf) = n) ->
  exists buf', Continuum.M_ con' = Some buf' /\ Z.of_nat (length buf') = n.
Proof.
  unfold Continuum.set. intros Hset (buf & Hbuf & Hlen). rewrite Hbuf in Hset.
  destruct (wr buf _ v) as [buf'|] eqn:Hwr; [|discriminate].
  injection Hset as <-. exists buf'. split; [reflexivity|].
  rewrite (wr_length buf _ v buf' Hwr). exact Hlen.
Qed.

(** Outside of that condition the property fails.  The byte count of the
    vast domain wraps around to 582656, so that the class allocates 72832
    doubles; block 0 reaches cell [(0,2,0)], whose first slot lies at offset
    132248: [InitContinuum] writes outside of the buffer. *)
Lemma InitContinuum_size_wraps :
  Continuum.memSize_ vast 8 = 582656 /\
  forall (con : @Continuum.t float) (RHO_0 U_0 V_0 W_0 : float),
    Continuum.holds_memSize vast 8 con ->
    Continuum.InitContinuum vast con RHO_0 U_0 V_0 W_0 = None.
Proof.
  split; [reflexivity|].
  intros con RHO_0 U_0 V_0 W_0 (buf & Hbuf & Hlen).
  change (Continuum.memSize_ vast 8) with 582656 in Hlen.
  rewrite InitContinuum_cells.
  apply (run_list_fails
           (fun c : @Continuum.t float =>
              exists b, Continuum.M_ c = Some b /\ Z.of_nat (length b) = 72832)
           _ _ (0, 2, 0)).
  - apply elem_of_cells. exists 0. split; [|reflexivity].
    vm_compute. split; [discriminate | reflexivity].
  - exists buf. split; [exact Hbuf | lia].
  - intros [[x y] z] s1 s2 Hcell HI. cbn [fst snd] in Hcell.
    unfold Continuum.init_cell in Hcell.
    destruct (Continuum.set vast s1 x y z 0 RHO_0) as [c1|] eqn:H1; [|discriminate].
    destruct (Continuum.set vast c1 x y z 1 U_0) as [c2|] eqn:H2; [|discriminate].
    destruct (Continuum.set vast c2 x y z 2 V_0) as [c3|] eqn:H3; [|discriminate].
    eapply set_length; [exact Hcell|]. eapply set_length; [exact H3|].
    eapply set_length; [exact H2|]. eapply set_length; [exact H1 | exact HI].
  - intros s1 (b & Hb & Hlb). cbn [fst snd].
    unfold Continuum.init_cell, Continuum.set. rewrite Hb.
    change (Continuum.SpatialToLinear vast 0 2 0 0) with 132248.
    unfold wr. rewrite Hlb. reflexivity.
Qed.

(** X15.  For a resolution that fits, every block of the loop nest is a
    box of at least one and at most 32 cells along each axis: no iteration
    of the parallel loop is idle. *)
Theorem blocks_nonempty (d : dims) (block : Z) :
  Continuum.fits d ->
  0 <= block < Continuum.NUM_BLOCKS d ->
  0 < Continuum.x_end d block - Continuum.x_start d block <= Continuum.BLOCK_SIZE /\
  0 < Continuum.y_end d block - Continuum.y_start d block <= Continuum.BLOCK_SIZE /\
  0 < Continuum.z_end d block - Continuum.z_start d block <= Continuum.BLOCK_SIZE /\
  Continuum.in_block d block
    (Continuum.x_start d block) (Continuum.y_start d block) (Continuum.z_start d block)
    = true.
Proof.
  intros Hfits Hblock.
  destruct (block_ranges d Hfits block Hblock) as (Hxs & Hxe & Hys & Hye & Hzs & Hze).
  destruct (blocks_pos d Hfits block Hblock) as (Ha & Hb & Hc & Hab).
  pose proof (block_counts d Hfits) as (Hx & Hy & Hz & _). cbv zeta in Hx, Hy, Hz.
  pose proof Hblock as Hblock'. rewrite (NUM_BLOCKS_eq d Hfits) in Hblock'.
  destruct (digits_bound _ _ _ Ha Hb block Hblock') as (Hi & Hj & Hk).
  cbv zeta in Hxs, Hxe, Hys, Hye, Hzs, Hze.
  rewrite in_block_spec, Hxs, Hxe, Hys, Hye, Hzs, Hze.
  unfold Continuum.BLOCK_SIZE.
  generalize dependent (block mod Continuum.NUM_BLOCKS_X d).
  generalize dependent
    (block mod (Continuum.NUM_BLOCKS_X d * Continuum.NUM_BLOCKS_Y d) / Continuum.NUM_BLOCKS_X d).
  generalize dependent (block / (Continuum.NUM_BLOCKS_X d * Continuum.NUM_BLOCKS_Y d)).
  intros. lia.
Qed.

(** The last block of the domain of [main], which is a full block. *)
Lemma blocks_nonempty_main :
  (Continuum.fits Main.domain /\ 0 <= 53 < Continuum.NUM_BLOCKS Main.domain) /\
  0 < Continuum.x_end Main.domain 53 - Continuum.x_start Main.domain 53
    <= Continuum.BLOCK_SIZE /\
  0 < Continuum.y_end Main.domain 53 - Continuum.y_start Main.domain 53
    <= Continuum.BLOCK_SIZE /\
  0 < Continuum.z_end Main.domain 53 - Continuum.z_start Main.domain 53
    <= Continuum.BLOCK_SIZE /\
  Continuum.in_block Main.domain 53
    (Continuum.x_start Main.domain 53) (Continuum.y_start Main.domain 53)
    (Continuum.z_start Main.domain 53) = true.
Proof.
  split; [split; [exact domain_fits | vm_compute; split; [discriminate | reflexivity]]|].
  apply (blocks_nonempty Main.domain 53);
    [exact domain_fits | vm_compute; split; [discriminate | reflexivity]].
Defined.

(** X16.  On a field whose allocation failed [InitContinuum] writes
    through the null pointer as soon as the domain has a cell; with an
    extent of zero it has no block to run and leaves the field alone. *)
Theorem InitContinuum_null {T : Type} (d : dims) (RHO_0 U_0 V_0 W_0 : T) :
  Continuum.fits d ->
  Continuum.InitContinuum d {| Continuum.M_ := None |} RHO_0 U_0 V_0 W_0 =
  if (0 <? NX d) && (0 <? NY d) && (0 <? NZ d)
  then None
  else Some {| Continuum.M_ := None |}.
Proof.
  intros Hfits. rewrite InitContinuum_cells.
  destruct (Continuum.cells d) as [|[[x y] z] l] eqn:Hcells.
  - destruct ((0 <? NX d) && (0 <? NY d) && (0 <? NZ d)) eqn:Hpos; [|reflexivity].
    apply andb_prop in Hpos as (Hpos & Hz). apply andb_prop in Hpos as (Hx & Hy).
    apply Z.ltb_lt in Hx, Hy, Hz.
    assert ((0, 0, 0) ∈ Continuum.cells d) as Hin.
    { apply (elem_of_cells_domain d Hfits). unfold Continuum.in_domain. lia. }
    rewrite Hcells in Hin. inversion Hin.
  - assert (Continuum.in_domain d x y z) as (Hx & Hy & Hz).
    { apply (elem_of_cells_domain d Hfits). rewrite Hcells. apply list_elem_of_here. }
    destruct (Z.ltb_spec 0 (NX d)); [|lia].
    destruct (Z.ltb_spec 0 (NY d)); [|lia].
    destruct (Z.ltb_spec 0 (NZ d)); [|lia].
    reflexivity.
Qed.

(** The domain of [main]. *)
Lemma InitContinuum_null_main :
  Continuum.fits Main.domain /\
  Continuum.InitContinuum Main.domain {| Continuum.M_ := None |}
    Main.RHO_0 Main.U_0 Main.V_0 Main.W_0 =
  if (0 <? NX Main.domain) && (0 <? NY Main.domain) && (0 <? NZ Main.domain)
  then None
  else Some {| Continuum.M_ := None |}.
Proof.
  split; [exact domain_fits|].
  apply (InitContinuum_null Main.domain Main.RHO_0 Main.U_0 Main.V_0 Main.W_0).
  exact domain_fits.
Defined.

(** Every element of the buffer is a slot of a cell of the domain. *)
Lemma Continuum_linear_cell (d : dims) (i : Z) :
  0 <= NX d -> 0 <= NY d -> 0 <= NZ d ->
  0 <= i < Continuum.length_ d ->
  exists x y z m,
    Continuum.in_domain d x y z /\ 0 <= m < 4 /\ m = i mod 4 /\
    Continuum.SpatialToLinear d x y z m = i.
Proof.
  unfold Continuum.length_, Continuum.NM_, Continuum.in_domain, Continuum.SpatialToLinear.
  intros Hx Hy Hz Hi.
  assert (0 < NX d) as Hxp by nia.
  assert (0 < NY d) as Hyp by nia.
  assert (0 < NZ d) as Hzp by nia.
  set (c := i / 4).
  assert (0 <= c < NZ d * NY d * NX d) as Hc by (subst c; lia_div).
  set (r := c / NX d).
  assert (0 <= r < NZ d * NY d) as Hr.
  { subst r. split; [apply Z.div_pos; lia|].
    apply Z.div_lt_upper_bound; [lia|]. lia. }
  exists (c mod NX d), (r mod NY d), (r / NY d), (i mod 4).
  pose proof (Z.mod_pos_bound c (NX d) Hxp).
  pose proof (Z.mod_pos_bound r (NY d) Hyp).
  pose proof (Z.mod_pos_bound i 4 eq_refl).
  split; [split; [assumption|split; [assumption|]]|].
  { split; [apply Z.div_pos; lia|]. apply Z.div_lt_upper_bound; lia. }
  split; [assumption|]. split; [reflexivity|].
  replace (r / NY d * NY d + r mod NY d) with r
    by (pose proof (Z.div_mod r (NY d)); lia).
  replace (r * NX d + c mod NX d) with c
    by (subst r; pose proof (Z.div_mod c (NX d)); lia).
  subst c. unfold Continuum.NM_. clear. lia_div.
Qed.

(** After [InitContinuum] on a resolution that fits, the buffer holds the
    four values in turn. *)
Lemma InitContinuum_slots {T : Type} (d : dims) (con : @Continuum.t T)
    (RHO_0 U_0 V_0 W_0 : T) :
  Continuum.fits d -> Continuum.allocated d con ->
  exists buf',
    Continuum.InitContinuum d con RHO_0 U_0 V_0 W_0 = Some {| Continuum.M_ := Some buf' |} /\
    Z.of_nat (length buf') = Continuum.length_ d /\
    forall i, 0 <= i < Continuum.length_ d ->
      rd buf' i = Some (match i mod 4 with 0 => RHO_0 | 1 => U_0 | 2 => V_0 | _ => W_0 end).
Proof.
  intros Hfits Hal. pose proof Hfits as (Hx & Hy & Hz & _).
  destruct (run_init_cells d RHO_0 U_0 V_0 W_0 (Continuum.cells d) con Hal)
    as (con' & Hrun & (buf' & Hbuf & Hlen) & Hinit & _).
  { intros x y z. apply cells_in_domain; lia. }
  exists buf'. rewrite InitContinuum_cells, Hrun.
  destruct con' as [M]. cbn [Continuum.M_] in Hbuf. subst M.
  split; [reflexivity|]. split; [exact Hlen|].
  intros i Hi.
  destruct (Continuum_linear_cell d i) as (x & y & z & m & Hdom & Hm & Hmi & Hlin);
    [lia | lia | lia | exact Hi |].
  destruct (Hinit x y z Hdom) as (H0 & H1 & H2 & H3).
  { right. apply (elem_of_cells_domain d Hfits). exact Hdom. }
  unfold Continuum.get in H0, H1, H2, H3. cbn [Continuum.M_] in H0, H1, H2, H3.
  rewrite <- Hmi.
  assert (m = 0 \/ m = 1 \/ m = 2 \/ m = 3) as [-> | [-> | [-> | ->]]] by lia;
    rewrite <- Hlin; assumption.
Qed.

(** X17.  For a resolution that fits, the field that [InitContinuum]
    leaves does not depend on what the field held before: from any two
    allocated fields it gives the same field, every element of the buffer
    being overwritten, and running it again changes nothing. *)
Theorem InitContinuum_overwrites {T : Type} (d : dims) (con con2 : @Continuum.t T)
    (RHO_0 U_0 V_0 W_0 : T) :
  Continuum.fits d -> Continuum.allocated d con -> Continuum.allocated d con2 ->
  exists con',
    Continuum.InitContinuum d con RHO_0 U_0 V_0 W_0 = Some con' /\
    Continuum.InitContinuum d con2 RHO_0 U_0 V_0 W_0 = Some con' /\
    Continuum.allocated d con' /\
    Continuum.InitContinuum d con' RHO_0 U_0 V_0 W_0 = Some con'.
Proof.
  intros Hfits Hal Hal2.
  assert (forall c1 c2 : @Continuum.t T,
            Continuum.allocated d c1 -> Continuum.allocated d c2 ->
            exists c', Continuum.InitContinuum d c1 RHO_0 U_0 V_0 W_0 = Some c' /\
                       Continuum.InitContinuum d c2 RHO_0 U_0 V_0 W_0 = Some c' /\
                       Continuum.allocated d c') as Hsame.
  { intros c1 c2 H1 H2.
    destruct (InitContinuum_slots d c1 RHO_0 U_0 V_0 W_0 Hfits H1)
      as (buf1 & Hrun1 & Hlen1 & Hslots1).
    destruct (InitContinuum_slots d c2 RHO_0 U_0 V_0 W_0 Hfits H2)
      as (buf2 & Hrun2 & Hlen2 & Hslots2).
    exists {| Continuum.M_ := Some buf1 |}. split; [exact Hrun1|]. split.
    - rewrite Hrun2. replace buf2 with buf1; [reflexivity|].
      apply (rd_ext buf1 buf2 (Continuum.length_ d) Hlen1 Hlen2).
      intros i Hi. rewrite Hslots1, Hslots2 by exact Hi. reflexivity.
    - exists buf1. split; [reflexivity | exact Hlen1]. }
  destruct (Hsame con con2 Hal Hal2) as (con' & Hrun & Hrun2 & Hal').
  exists con'. split; [exact Hrun|]. split; [exact Hrun2|]. split; [exact Hal'|].
  destruct (Hsame con con' Hal Hal') as (c' & Hrun' & Hrun'' & _).
  rewrite Hrun in Hrun'. injection Hrun' as <-. exact Hrun''.
Qed.

(** The 16x16x16 domain, from a buffer of NaNs and from a buffer of zeros. *)
Lemma InitContinuum_overwrites_cube16 :
  (Continuum.fits cube16 /\ Continuum.allocated cube16 (fresh cube16 PrimFloat.nan) /\
   Continuum.allocated cube16 (fresh cube16 0%float)) /\
  exists con',
    Continuum.InitContinuum cube16 (fresh cube16 PrimFloat.nan) 1%float 0.05%float 0%float 0%float
      = Some con' /\
    Continuum.InitContinuum cube16 (fresh cube16 0%float) 1%float 0.05%float 0%float 0%float
      = Some con' /\
    Continuum.allocated cube16 con' /\
    Continuum.InitContinuum cube16 con' 1%float 0.05%float 0%float 0%float = Some con'.
Proof.
  assert (forall v, Continuum.allocated cube16 (fresh cube16 v)) as Hal.
  { intros v. apply allocated_replicate. vm_compute. discriminate. }
  split; [split; [exact cube16_fits | split; apply Hal]|].
  apply (InitContinuum_overwrites cube16 (fresh cube16 PrimFloat.nan) (fresh cube16 0%float));
    [exact cube16_fits | apply Hal | apply Hal].
Defined.

(** ** The sizes of the allocations *)

Lemma wrap64_small n : 0 <= n < 2 ^ 64 -> wrap64 n = n.
Proof. unfold wrap64. intros H. apply Z.mod_small. exact H. Qed.

(** A resolution that fits has at most [2^47] cells. *)
Lemma volume_bound (d : dims) :
  Continuum.fits d -> 0 < NX d -> 0 < NY d -> 0 < NZ d ->
  NZ d <= 2 ^ 32 /\ NZ d * NY d <= 2 ^ 42 /\ NZ d * NY d * NX d <= 2 ^ 47.
Proof.
  intros (Hx & Hy & Hz & Hn) Hxp Hyp Hzp.
  pose proof (ceil_div_block (NX d)) as Ha.
  pose proof (ceil_div_block (NY d)) as Hb.
  pose proof (ceil_div_block (NZ d)) as Hc.
  set (a := ceil_div (NX d) Continuum.BLOCK_SIZE) in *.
  set (b := ceil_div (NY d) Continuum.BLOCK_SIZE) in *.
  set (c := ceil_div (NZ d) Continuum.BLOCK_SIZE) in *.
  unfold UINT_MAX in *.
  assert (1 <= a) by lia. assert (1 <= b) by lia. assert (1 <= c) by lia.
  assert (b * c <= a * b * c) by nia.
  assert (NZ d * NY d <= (32 * c) * (32 * b)) by (apply Z.mul_le_mono_nonneg; lia).
  assert (NZ d * NY d * NX d <= ((32 * c) * (32 * b)) * (32 * a))
    by (apply Z.mul_le_mono_nonneg; nia).
  split; [lia|]. split; nia.
Qed.

(** X18.  For a resolution that fits and an element of at most 16 bytes
    the byte count [memSize_] of the macroscopic field does not wrap
    around in [size_t]: it is [sizeof(T)] times the number of elements that
    the indexing addresses. *)
Theorem memSize_exact (d : dims) (sizeof_T : Z) :
  Continuum.fits d -> 0 <= sizeof_T <= 16 ->
  Continuum.memSize_ d sizeof_T = sizeof_T * Continuum.length_ d.
Proof.
  intros Hfits Hsz. pose proof Hfits as (Hx & Hy & Hz & _).
  unfold Continuum.memSize_, Continuum.length_, Continuum.NM_.
  destruct (Z.eq_dec (NZ d) 0) as [-> | Hzn].
  { rewrite !Z.mul_0_r. reflexivity. }
  destruct (Z.eq_dec (NY d) 0) as [-> | Hyn].
  { rewrite !Z.mul_0_r. reflexivity. }
  destruct (Z.eq_dec (NX d) 0) as [-> | Hxn].
  { rewrite !Z.mul_0_r. reflexivity. }
  destruct (volume_bound d Hfits) as (H1 & H2 & H3); [lia | lia | lia |].
  assert (0 <= NZ d * NY d) by nia.
  assert (0 <= NZ d * NY d * NX d) by nia.
  rewrite (wrap64_small (sizeof_T * NZ d)) by nia.
  rewrite (wrap64_small (sizeof_T * NZ d * NY d)) by nia.
  rewrite (wrap64_small (sizeof_T * NZ d * NY d * NX d)) by nia.
  rewrite wrap64_small by nia.
  ring.
Qed.

(** The field of [main]: 192x96x96 cells of four doubles. *)
Lemma memSize_exact_main :
  (Continuum.fits Main.domain /\ 0 <= 8 <= 16) /\
  Continuum.memSize_ Main.domain 8 = 8 * Continuum.length_ Main.domain.
Proof.
  split; [split; [exact domain_fits | lia]|].
  apply (memSize_exact Main.domain 8); [exact domain_fits | lia].
Defined.

(** X19.  For a resolution that fits, the byte count [MEM_SIZE_] of the
    population does not wrap around in [size_t] as long as one cell takes
    at most [2^16] bytes: it is [sizeof(T)] times the number of elements
    that the indexing addresses. *)
Theorem MEM_SIZE_exact {T : Type} (d : dims) (LT : lattice T) (NPOP sizeof_T : Z) :
  Continuum.fits d -> 0 < sizeof_T -> 0 < NPOP -> 0 < ND LT ->
  sizeof_T * NPOP * ND LT <= 2 ^ 16 ->
  Population.MEM_SIZE_ d LT NPOP sizeof_T = sizeof_T * Population.length_ d LT NPOP.
Proof.
  intros Hfits Hsz Hp Hnd Hcell. pose proof Hfits as (Hx & Hy & Hz & _).
  unfold Population.MEM_SIZE_, Population.length_.
  destruct (Z.eq_dec (NZ d) 0) as [-> | Hzn].
  { rewrite !Z.mul_0_r. reflexivity. }
  destruct (Z.eq_dec (NY d) 0) as [-> | Hyn].
  { rewrite !Z.mul_0_r. reflexivity. }
  destruct (Z.eq_dec (NX d) 0) as [-> | Hxn].
  { rewrite !Z.mul_0_r. reflexivity. }
  destruct (volume_bound d Hfits) as (H1 & H2 & H3); [lia | lia | lia |].
  assert (0 <= NZ d * NY d) by nia.
  assert (0 <= NZ d * NY d * NX d) by nia.
  assert (sizeof_T <= 2 ^ 16 /\ sizeof_T * NPOP <= 2 ^ 16) as (Hs1 & Hs2) by nia.
  rewrite (wrap64_small (sizeof_T * NZ d)) by nia.
  rewrite (wrap64_small (sizeof_T * NZ d * NY d)) by nia.
  rewrite (wrap64_small (sizeof_T * NZ d * NY d * NX d)) by nia.
  rewrite (wrap64_small (sizeof_T * NZ d * NY d * NX d * NPOP)).
  2:{ replace (sizeof_T * NZ d * NY d * NX d * NPOP)
        with ((sizeof_T * NPOP) * (NZ d * NY d * NX d)) by ring.
      split; [nia|].
      apply Z.le_lt_trans with (2 ^ 16 * 2 ^ 47); [|reflexivity].
      apply Z.mul_le_mono_nonneg; lia. }
  rewrite wrap64_small; [ring|].
  replace (sizeof_T * NZ d * NY d * NX d * NPOP * ND LT)
    with ((sizeof_T * NPOP * ND LT) * (NZ d * NY d * NX d)) by ring.
  split; [nia|].
  apply Z.le_lt_trans with (2 ^ 16 * 2 ^ 47); [|reflexivity].
  apply Z.mul_le_mono_nonneg; nia.
Qed.

(** The population of [main]: 192x96x96 cells of 28 doubles. *)
Lemma MEM_SIZE_exact_main :
  (Continuum.fits Main.domain /\ 0 < 8 /\ 0 < 1 /\ 0 < ND Main.D3Q27 /\
   8 * 1 * ND Main.D3Q27 <= 2 ^ 16) /\
  Population.MEM_SIZE_ Main.domain Main.D3Q27 1 8
  = 8 * Population.length_ Main.domain Main.D3Q27 1.
Proof.
  split.
  { split; [exact domain_fits|]. split; [lia|]. split; [lia|].
    split; [reflexivity | vm_compute; discriminate]. }
  apply (MEM_SIZE_exact Main.domain Main.D3Q27 1 8);
    [exact domain_fits | lia | lia | reflexivity | vm_compute; discriminate].
Defined.
